(** * The Stockfish UCI adapter of lc0-service

    A shallow embedding of [src/engine/stockfish_wrapper.py]: the regular
    expressions and the loop of [_parse_analysis], the integer part of
    [_estimate_wdl], and the protocol driver and life cycle of
    [StockfishWrapper] ([_send_command], [_read_line], [_wait_for],
    [_read_until_bestmove], [stop], [is_ready], [new_game],
    [analyze_position]) as a state-and-exception monad over the adapter's
    fields and the child process behind its pipes.

    What lies outside the repository is taken as a parameter: python-chess
    (record [PyChess]) and the floating-point stage of [_estimate_wdl]. *)

From Stdlib Require Import ZArith String Ascii List DecimalString QArith.
From stdpp Require Import base option list gmap sorting.

Local Open Scope string_scope.
Local Open Scope Z_scope.

(** ** Python strings

    UCI is an ASCII protocol; a decoded line is a [string] of the Standard
    Library and the character classes are Python's on the ASCII range. *)

Module Str.

(** [c.isspace()]: TAB, LF, VT, FF, CR, the separators 0x1c..0x1f, space. *)
Definition isspace (c : ascii) : bool :=
  let n := N_of_ascii c in
  ((9 <=? n) && (n <=? 13) || (28 <=? n) && (n <=? 32))%N.

(** [\d] *)
Definition isdigit (c : ascii) : bool :=
  let n := N_of_ascii c in ((48 <=? n) && (n <=? 57))%N.

Definition digit_value (c : ascii) : Z := Z.of_N (N_of_ascii c) - 48.

Definition is_newline (c : ascii) : bool := (N_of_ascii c =? 10)%N.

(** [s.startswith(p)] *)
Definition startswith (s p : string) : bool := String.prefix p s.

(** [p in s] *)
Fixpoint contains (p s : string) : bool :=
  String.prefix p s ||
  match s with
  | EmptyString => false
  | String _ s' => contains p s'
  end.

(** What is left of [s] after the literal [p], when [s] starts with it. *)
Fixpoint after (p s : string) : option string :=
  match p, s with
  | EmptyString, _ => Some s
  | String a p', String b s' => if Ascii.eqb a b then after p' s' else None
  | String _ _, EmptyString => None
  end.

(** The longest run of characters satisfying [f] at the head of [s], and
    the rest: what a greedy [c+] or [c*] consumes. *)
Fixpoint span (f : ascii -> bool) (s : string) : string * string :=
  match s with
  | EmptyString => (EmptyString, EmptyString)
  | String c s' =>
      if f c then let '(run, rest) := span f s' in (String c run, rest)
      else (EmptyString, s)
  end.

(** [int(ds)] on a string of decimal digits, most significant first. *)
Fixpoint int_digits (acc : Z) (ds : string) : Z :=
  match ds with
  | EmptyString => acc
  | String c ds' => int_digits (10 * acc + digit_value c) ds'
  end.

(** [s.strip()] *)
Fixpoint lstrip (s : string) : string :=
  match s with
  | EmptyString => EmptyString
  | String c s' => if isspace c then lstrip s' else s
  end.

Fixpoint rstrip (s : string) : string :=
  match s with
  | EmptyString => EmptyString
  | String c s' =>
      match rstrip s' with
      | EmptyString => if isspace c then EmptyString else String c EmptyString
      | r => String c r
      end
  end.

Definition strip (s : string) : string := rstrip (lstrip s).

(** [s.split()]: the maximal runs of non-blank characters, in order. [tok]
    is the run being read. *)
Definition flush (tok : string) : list string :=
  match tok with EmptyString => [] | _ => [tok] end.

Fixpoint split_from (tok : string) (s : string) : list string :=
  match s with
  | EmptyString => flush tok
  | String c s' =>
      if isspace c then flush tok ++ split_from EmptyString s'
      else split_from (tok ++ String c EmptyString) s'
  end.

Definition split (s : string) : list string := split_from EmptyString s.

(** The line terminator. *)
Definition LF : string := String "010"%char EmptyString.

(** [str(n)] for an integer, as an f-string renders it. *)
Definition of_int (n : Z) : string := NilZero.string_of_int (Z.to_int n).

End Str.

(** ** The regular expressions of [_parse_analysis]

    [pattern.search(line)] tries the pattern at every start position from
    the left and keeps the first match; [search m] does that for a matcher
    [m] of the pattern anchored at the head of its argument. The [int] of
    a group of digits is its value: the groups are taken within the number
    of digits CPython converts (4300 unless configured otherwise), past
    which [int] raises. *)

Module Re.

Fixpoint search {A} (m : string -> option A) (s : string) : option A :=
  match m s with
  | Some a => Some a
  | None =>
      match s with
      | EmptyString => None
      | String _ s' => search m s'
      end
  end.

(** [(\d+)] at the head of [s], then [int(...)] of the group. *)
Definition digits (s : string) : option Z :=
  match Str.span Str.isdigit s with
  | (EmptyString, _) => None
  | (ds, _) => Some (Str.int_digits 0 ds)
  end.

(** [(-?\d+)] at the head of [s]: when a sign is not followed by a digit
    the optional sign backtracks to nothing and [\d+] fails on the sign. *)
Definition signed_digits (s : string) : option Z :=
  match s with
  | String "-"%char s' => Z.opp <$> digits s'
  | _ => digits s
  end.

(** [(.+)$] at the head of [s]: the dot does not match a newline, and [$]
    holds at the end of the string or before a newline that ends it. *)
Definition to_end_of_line (s : string) : option string :=
  match Str.span (fun c => negb (Str.is_newline c)) s with
  | (EmptyString, _) => None
  | (g, EmptyString) => Some g
  | (g, String _ EmptyString) => Some g
  | _ => None
  end.

(** A literal followed by a group. *)
Definition lit_then {A} (lit : string) (group : string -> option A)
    (s : string) : option A :=
  match Str.after lit s with
  | Some rest => group rest
  | None => None
  end.

Definition multipv_pattern := search (lit_then "multipv " digits).
Definition depth_pattern := search (lit_then " depth " digits).
Definition seldepth_pattern := search (lit_then "seldepth " digits).
Definition nodes_pattern := search (lit_then "nodes " digits).
Definition time_pattern := search (lit_then " time " digits).
Definition nps_pattern := search (lit_then "nps " digits).
Definition score_cp_pattern := search (lit_then "score cp " signed_digits).
Definition score_mate_pattern := search (lit_then "score mate " signed_digits).
Definition pv_pattern := search (lit_then " pv " to_end_of_line).

End Re.

(** ** Exceptions and results *)

Inductive exn : Type :=
  | RuntimeError (msg : string)
  | ValueError
  | OverflowError
  | AssertionError
  | UnicodeDecodeError
  | ConnectionError
  | OSError
  | TimeoutError.

Inductive result (A : Type) : Type :=
  | Ok (a : A)
  | Raised (e : exn).
Arguments Ok {A} a.
Arguments Raised {A} e.

(** [except (ValueError, chess.InvalidMoveError)]: [InvalidMoveError] and the
    other move errors of python-chess are subclasses of [ValueError], which
    stands for the whole family here. *)
Definition is_value_error (e : exn) : bool :=
  match e with
  | ValueError => true
  | _ => false
  end.

Definition result_bind {A B} (r : result A) (k : A -> result B) : result B :=
  match r with
  | Ok a => k a
  | Raised e => Raised e
  end.

(** A [for] loop whose body may raise. *)
Fixpoint for_each {A S} (body : S -> A -> result S) (s : S) (xs : list A)
    : result S :=
  match xs with
  | [] => Ok s
  | x :: xs' => result_bind (body s x) (fun s' => for_each body s' xs')
  end.

(** ** The data model ([move_candidates.py], as the parser fills it) *)

Module MoveCandidate.
Record t : Type := make {
  move : string;
  move_san : string;
  score_cp : Z;
  score_wdl : Z * Z * Z;
  pv : list string;
  pv_san : list string;
  nodes : Z;
  depth : Z;
  policy : Q;
  rank : Z;
  multipv_index : Z;
}.
End MoveCandidate.

Module PositionAnalysis.
Record t : Type := make {
  fen : string;
  candidates : list MoveCandidate.t;
  evaluation_cp : Z;
  evaluation_wdl : Z * Z * Z;
  total_nodes : Z;
  time_ms : Z;
  nps : Z;
  depth : Z;
  seldepth : Z;
  multipv : Z;
}.
End PositionAnalysis.

(** ** python-chess, as the parser uses it

    [Board_of_fen] is [chess.Board(fen)] ([None]: the FEN is rejected with
    [ValueError]); [from_uci] is [chess.Move.from_uci] ([None]:
    [InvalidMoveError]); [is_legal b m] is [m in b.legal_moves]; [san] is
    [Board.san], which returns the notation or raises; [push] is the board
    after [Board.push]. A scratch copy and its original share nothing, so
    boards are values. *)

Record PyChess : Type := {
  Board : Type;
  Move : Type;
  Board_of_fen : string -> option Board;
  from_uci : string -> option Move;
  is_legal : Board -> Move -> bool;
  san : Board -> Move -> result string;
  push : Board -> Move -> Board;
}.

Module Parser.
Section WithOracles.

Context (chess : PyChess).

(** Lines 349-360 of [_estimate_wdl] are double-precision arithmetic around
    [math.exp]: [wdl_floats score_cp] stands for the pair [(win, draw)] they
    produce, and is [None] when [math.exp] raises [OverflowError]. *)
Context (wdl_floats : Z -> option (Z * Z)).

Definition _estimate_wdl (score_cp : Z) : result (Z * Z * Z) :=
  match wdl_floats score_cp with
  | Some (win, draw) =>
      let loss := 1000 - win - draw in
      Ok (win, draw, loss)
  | None => Raised OverflowError
  end.

(** *** One info line (the body of the loop, lines 228-315) *)

(** What the regular expressions read off a line (lines 229-270 and
    276-280); [None] is one of the two [continue]s of lines 229-235. *)
Record info : Type := {
  mpv_idx : Z;
  i_depth : Z;
  i_seldepth : Z;
  i_nodes : Z;
  i_time : option Z;
  i_nps : option Z;
  i_score_cp : Z;
  i_pv : list string;
}.

Definition read_info (line : string) : option info :=
  if negb (Str.contains "multipv" line) then None
  else
    match Re.multipv_pattern line with
    | None => None
    | Some idx =>
        Some {|
          mpv_idx := idx;
          i_depth := default 0 (Re.depth_pattern line);
          i_seldepth := default 0 (Re.seldepth_pattern line);
          i_nodes := default 0 (Re.nodes_pattern line);
          i_time := Re.time_pattern line;
          i_nps := Re.nps_pattern line;
          i_score_cp :=
            match Re.score_mate_pattern line with
            | Some mate_in =>
                if 0 <? mate_in then 10000 - Z.abs mate_in
                else -10000 + Z.abs mate_in
            | None => default 0 (Re.score_cp_pattern line)
            end;
          i_pv :=
            match Re.pv_pattern line with
            | Some g => Str.split g
            | None => []
            end;
        |}
    end.

(** The walk of lines 282-292 over a scratch board: the human notation of
    the moves up to the first one that does not parse, is not legal where
    it is played, or whose notation raises a [ValueError]; any other
    exception of [san] leaves the loop and the parser. *)
Fixpoint walk_pv (temp_board : Board chess) (pv : list string)
    : result (list string) :=
  match pv with
  | [] => Ok []
  | move_uci :: rest =>
      match from_uci chess move_uci with
      | None => Ok []
      | Some move =>
          if is_legal chess temp_board move then
            match san chess temp_board move with
            | Ok s =>
                result_bind (walk_pv (push chess temp_board move) rest)
                  (fun pv_san => Ok (s :: pv_san))
            | Raised e => if is_value_error e then Ok [] else Raised e
            end
          else Ok []
      end
  end.

(** Lines 273-315: the candidate a line gives, if any. [Ok None] is a line
    that stores nothing: no variation, or a first move that does not parse
    or whose notation on [board] raises a [ValueError]. *)
Definition candidate_of (board : Board chess) (i : info)
    : result (option MoveCandidate.t) :=
  result_bind (_estimate_wdl (i_score_cp i)) (fun wdl =>
  let pv := i_pv i in
  result_bind (walk_pv board pv) (fun pv_san =>
  match pv with
  | [] => Ok None
  | move_uci :: _ =>
      match from_uci chess move_uci with
      | None => Ok None
      | Some move =>
          match san chess board move with
          | Raised e => if is_value_error e then Ok None else Raised e
          | Ok move_san =>
              Ok (Some {|
                MoveCandidate.move := move_uci;
                MoveCandidate.move_san := move_san;
                MoveCandidate.score_cp := i_score_cp i;
                MoveCandidate.score_wdl := wdl;
                MoveCandidate.pv := pv;
                MoveCandidate.pv_san := pv_san;
                MoveCandidate.nodes := i_nodes i;
                MoveCandidate.depth := i_depth i;
                MoveCandidate.policy := 0%Q;
                MoveCandidate.rank := mpv_idx i;
                MoveCandidate.multipv_index := mpv_idx i;
              |})
          end
      end
  end)).

(** The local variables the loop updates. *)
Record acc : Type := {
  candidates : gmap Z MoveCandidate.t;
  total_nodes : Z;
  time_ms : Z;
  nps : Z;
  max_depth : Z;
  max_seldepth : Z;
}.

Definition acc0 : acc :=
  {| candidates := ∅; total_nodes := 0; time_ms := 0; nps := 0;
     max_depth := 0; max_seldepth := 0 |}.

Definition store (i : info) (c : option MoveCandidate.t)
    (m : gmap Z MoveCandidate.t) : gmap Z MoveCandidate.t :=
  match c with
  | Some c => <[mpv_idx i := c]> m
  | None => m
  end.

Definition parse_line (board : Board chess) (a : acc) (line : string)
    : result acc :=
  match read_info line with
  | None => Ok a
  | Some i =>
      result_bind (candidate_of board i) (fun c =>
      Ok {|
        candidates := store i c (candidates a);
        total_nodes := Z.max (total_nodes a) (i_nodes i);
        time_ms :=
          match i_time i with
          | Some t => Z.max (time_ms a) t
          | None => time_ms a
          end;
        nps :=
          match i_nps i with
          | Some n => Z.max (nps a) n
          | None => nps a
          end;
        max_depth := Z.max (max_depth a) (i_depth i);
        max_seldepth := Z.max (max_seldepth a) (i_seldepth i);
      |})
  end.

(** Lines 318-320: [[candidates[k] for k in sorted(candidates.keys())
    if k in candidates]]. *)
Definition sorted_candidates (m : gmap Z MoveCandidate.t)
    : list MoveCandidate.t :=
  omap (fun k => m !! k) (merge_sort Z.le (map_to_list m).*1).

Definition _parse_analysis (fen : string) (info_lines : list string)
    (bestmove_line : string) : result PositionAnalysis.t :=
  match Board_of_fen chess fen with
  | None => Raised ValueError
  | Some board =>
      result_bind (for_each (parse_line board) acc0 info_lines) (fun a =>
      let sorted_candidates := sorted_candidates (candidates a) in
      Ok {|
        PositionAnalysis.fen := fen;
        PositionAnalysis.candidates := sorted_candidates;
        PositionAnalysis.evaluation_cp :=
          match sorted_candidates with
          | c :: _ => MoveCandidate.score_cp c
          | [] => 0
          end;
        PositionAnalysis.evaluation_wdl :=
          match sorted_candidates with
          | c :: _ => MoveCandidate.score_wdl c
          | [] => (333, 334, 333)
          end;
        PositionAnalysis.total_nodes := total_nodes a;
        PositionAnalysis.time_ms := time_ms a;
        PositionAnalysis.nps := nps a;
        PositionAnalysis.depth := max_depth a;
        PositionAnalysis.seldepth := max_seldepth a;
        PositionAnalysis.multipv := Z.of_nat (length sorted_candidates);
      |})
  end.

(** *** Vocabulary for the statements below *)

(** Every entry of the dictionary is the candidate of one of [lines], under
    the MultiPV index of that line. *)
Definition from_lines (board : Board chess) (lines : list string)
    (m : gmap Z MoveCandidate.t) : Prop :=
  forall k c, m !! k = Some c ->
    exists line i, line ∈ lines /\ read_info line = Some i /\
      mpv_idx i = k /\ candidate_of board i = Ok (Some c).

(** [plays b pv sans b']: every move of [pv] parses, is legal where it is
    played starting from [b], and has the notation listed in [sans]; [b'] is
    the board after the last one. *)
Inductive plays : Board chess -> list string -> list string -> Board chess
    -> Prop :=
  | plays_nil b : plays b [] [] b
  | plays_cons b u m s rest sans b' :
      from_uci chess u = Some m ->
      is_legal chess b m = true ->
      san chess b m = Ok s ->
      plays (push chess b m) rest sans b' ->
      plays b (u :: rest) (s :: sans) b'.

(** A move that is malformed, or illegal on [b]. *)
Definition unplayable (b : Board chess) (u : string) : Prop :=
  match from_uci chess u with
  | None => True
  | Some m => is_legal chess b m = false
  end.

End WithOracles.
End Parser.

(** ** A fragment of python-chess around the starting position

    Enough of the library to run the parser on concrete engine output: the
    board is the list of moves pushed since the starting position, and
    legality and notation are tabulated for a few opening moves. The
    examples below stay inside the table, or use moves that fail before the
    table is consulted. *)

Module Opening.

Definition STARTING_FEN : string :=
  "rnbqkbnr/pppppppp/8/8/8/8/PPPPPPPP/RNBQKBNR w KQkq - 0 1".

Definition is_square (f r : ascii) : bool :=
  let nf := N_of_ascii f in
  let nr := N_of_ascii r in
  ((97 <=? nf) && (nf <=? 104) && (49 <=? nr) && (nr <=? 56))%N.

Definition is_promotion (rest : string) : bool :=
  match rest with
  | EmptyString => true
  | String c EmptyString =>
      existsb (Ascii.eqb c) ["p"; "n"; "b"; "r"; "q"; "k"]%char
  | _ => false
  end.

(** [Move.from_uci] without drops: the null move, or two distinct squares
    and an optional promotion piece. *)
Definition parse_uci (uci : string) : option string :=
  if String.eqb uci "0000" then Some uci
  else
    match uci with
    | String f1 (String r1 (String f2 (String r2 rest))) =>
        if is_square f1 r1 && is_square f2 r2 && is_promotion rest
           && negb (Ascii.eqb f1 f2 && Ascii.eqb r1 r2)
        then Some uci else None
    | _ => None
    end.

Definition table : list (list string * string * string) :=
  [ ([], "e2e4", "e4"); ([], "d2d4", "d4"); ([], "g1f3", "Nf3");
    ([], "c2c4", "c4");
    (["e2e4"], "e7e5", "e5"); (["e2e4"], "c7c5", "c5");
    (["d2d4"], "d7d5", "d5"); (["d2d4"], "g8f6", "Nf6");
    (["e2e4"; "e7e5"], "g1f3", "Nf3") ].

Definition lookup (b : list string) (m : string) : option string :=
  snd <$> List.find
    (fun e => bool_decide (fst (fst e) = b) && String.eqb (snd (fst e)) m)
    table.

Definition chess : PyChess := {|
  Board := list string;
  Move := string;
  Board_of_fen := fun fen =>
    if String.eqb fen STARTING_FEN then Some [] else None;
  from_uci := parse_uci;
  is_legal := fun b m => bool_decide (is_Some (lookup b m));
  san := fun b m =>
    match lookup b m with
    | Some s => Ok s
    | None => Raised ValueError
    end;
  push := fun b m => (b ++ [m])%list;
|}.

(** [_estimate_wdl]'s floating-point stage at the scores the examples use
    (CPython, IEEE doubles). *)
Definition wdl_floats (score_cp : Z) : option (Z * Z) :=
  snd <$> List.find (fun e => fst e =? score_cp)
    [ (0, (384, 230)); (20, (409, 220)); (30, (421, 215));
      (35, (428, 212)); (40, (434, 210)); (50, (446, 205)) ].

Definition _parse_analysis := Parser._parse_analysis chess wdl_floats.

End Opening.

(** ** The adapter and the process behind it *)

Module Adapter.

Record StockfishConfig : Type := {
  executable_path : string;
  hash_mb : Z;
  threads : Z;
  multipv : Z;
  use_nnue : bool;
  skill_level : Z;
}.

Definition to_uci_options (c : StockfishConfig) : list (string * string) :=
  ([ ("Hash", Str.of_int (hash_mb c));
     ("Threads", Str.of_int (threads c));
     ("MultiPV", Str.of_int (multipv c));
     ("UCI_AnalyseMode", "true") ]
   ++ (if use_nnue c then [("Use NNUE", "true")] else [])
   ++ (if skill_level c <? 20 then [("Skill Level", Str.of_int (skill_level c))]
       else []))%list.

(** The fields of a [StockfishWrapper]. A handle is [true] when it is not
    [None]; [_lock] is [true] while the lock is held. *)
Record StockfishWrapper : Type := {
  config : StockfishConfig;
  _process : bool;
  _reader : bool;
  _writer : bool;
  _lock : bool;
  _is_ready : bool;
}.

(** [__init__] *)
Definition new (c : StockfishConfig) : StockfishWrapper :=
  {| config := c; _process := false; _reader := false; _writer := false;
     _lock := false; _is_ready := false |}.

(** One line of the child's standard output, as [readline] returns it:
    bytes that decode to a text, or bytes on which [decode()] raises. *)
Inductive raw_line : Type :=
  | Bytes (text : string)
  | Undecodable.

(** The engine process, seen from its pipes. [stdout] is what it will still
    write; after that the stream is at its end ([stdout_eof]) or silent.
    [stdin_lost] is a broken input pipe, on which [drain()] raises.
    [exits_in_grace] says whether [wait()] returns within the five seconds
    [stop] allows. *)
Record Child : Type := {
  stdout : list raw_line;
  stdout_eof : bool;
  stdin_lost : bool;
  exits_in_grace : bool;
  exited : bool;
}.

(** What the adapter does to its surroundings, in order. *)
Inductive event : Type :=
  | Acquire
  | Release
  | Write (data : string)
  | Kill.

Record state : Type := {
  self : StockfishWrapper;
  child : Child;
  spawns : option Child;
  log : list event;
}.

Definition set_self (f : StockfishWrapper -> StockfishWrapper) (s : state)
    : state :=
  {| self := f (self s); child := child s; spawns := spawns s; log := log s |}.

Definition set_child (f : Child -> Child) (s : state) : state :=
  {| self := self s; child := f (child s); spawns := spawns s; log := log s |}.

Definition emit (e : event) (s : state) : state :=
  {| self := self s; child := child s; spawns := spawns s;
     log := (log s ++ [e])%list |}.

(** The state once the child's pending output is [out]. *)
Definition with_stdout (out : list raw_line) (s : state) : state :=
  set_child (fun c =>
    {| stdout := out; stdout_eof := stdout_eof c; stdin_lost := stdin_lost c;
       exits_in_grace := exits_in_grace c; exited := exited c |}) s.

(** The state once the child has exited. *)
Definition with_exited (s : state) : state :=
  set_child (fun c =>
    {| stdout := stdout c; stdout_eof := stdout_eof c;
       stdin_lost := stdin_lost c; exits_in_grace := exits_in_grace c;
       exited := true |}) s.

Definition set_lock (b : bool) (s : state) : state :=
  set_self (fun w =>
    {| config := config w; _process := _process w; _reader := _reader w;
       _writer := _writer w; _lock := b; _is_ready := _is_ready w |}) s.

(** The child dies on its own: its pipes close and [wait()] would return. *)
Definition crash (s : state) : state :=
  set_child (fun c =>
    {| stdout := []; stdout_eof := true; stdin_lost := true;
       exits_in_grace := exits_in_grace c; exited := true |}) s.

(** What a wait leaves alone: the adapter's fields, the log (so nothing is
    written and nothing killed), and everything about the child but the
    lines taken off its output. *)
Definition only_reads (s s' : state) : Prop :=
  self s' = self s /\ log s' = log s /\ spawns s' = spawns s /\
  exited (child s') = exited (child s) /\
  stdin_lost (child s') = stdin_lost (child s) /\
  exits_in_grace (child s') = exits_in_grace (child s) /\
  stdout_eof (child s') = stdout_eof (child s).

(** The commands written so far. *)
Definition written (s : state) : list string :=
  omap (fun e => match e with Write d => Some d | _ => None end) (log s).

(** *** Coroutines: state, exceptions, and awaits that never resume *)

Inductive outcome (A : Type) : Type :=
  | Done (r : result A)
  | Hangs.
Arguments Done {A} r.
Arguments Hangs {A}.

Definition M (A : Type) : Type := state -> outcome A * state.

Definition ret {A} (a : A) : M A := fun s => (Done (Ok a), s).
Definition raise {A} (e : exn) : M A := fun s => (Done (Raised e), s).
Definition lift {A} (r : result A) : M A := fun s => (Done r, s).
Definition hang {A} : M A := fun s => (Hangs, s).
Definition get : M state := fun s => (Done (Ok s), s).
Definition modify (f : state -> state) : M unit := fun s => (Done (Ok tt), f s).

Definition bind {A B} (m : M A) (k : A -> M B) : M B := fun s =>
  match m s with
  | (Done (Ok a), s') => k a s'
  | (Done (Raised e), s') => (Done (Raised e), s')
  | (Hangs, s') => (Hangs, s')
  end.

#[export] Instance M_ret : MRet M := @ret.
#[export] Instance M_bind : MBind M := fun A B k m => bind m k.

Definition when (b : bool) (m : M unit) : M unit := if b then m else ret tt.

(** [try: m / except TimeoutError: handler] *)
Definition except_timeout (m handler : M unit) : M unit := fun s =>
  match m s with
  | (Done (Raised TimeoutError), s') => handler s'
  | r => r
  end.

(** [async with self._lock: body]. The lock is released when the body
    returns or raises. A body that hangs keeps it; a caller that finds it
    held waits for a release that no other task of this run performs. *)
Definition with_lock {A} (body : M A) : M A := fun s =>
  if _lock (self s) then (Hangs, s)
  else
    match body (emit Acquire (set_lock true s)) with
    | (Done r, s') => (Done r, emit Release (set_lock false s'))
    | (Hangs, s') => (Hangs, s')
    end.

(** *** The protocol driver *)

Definition _send_command (command : string) : M unit :=
  s ← get;
  if negb (_writer (self s)) then raise (RuntimeError "Stockfish non avviato")
  else if stdin_lost (child s) then raise ConnectionError
  else modify (emit (Write (command ++ Str.LF)%string)).

Definition _read_line : M string := fun s =>
  if negb (_reader (self s)) then
    (Done (Raised (RuntimeError "Stockfish non avviato")), s)
  else
    match stdout (child s) with
    | Bytes text :: rest => (Done (Ok (Str.strip text)), with_stdout rest s)
    | Undecodable :: rest => (Done (Raised UnicodeDecodeError), with_stdout rest s)
    | [] =>
        if stdout_eof (child s) then (Done (Ok EmptyString), s) else (Hangs, s)
    end.

(** [while True] around [_read_line]. Every turn but the last takes one
    line off [stdout]; once it is empty a turn changes nothing, so the loop
    that has not returned by then never does: [budget] counts the turns and
    is the number of pending lines plus one. *)
Definition budget (s : state) : nat := S (length (stdout (child s))).

Fixpoint wait_for_loop (turns : nat) (expected : string) (lines : list string)
    : M (list string) :=
  match turns with
  | O => hang
  | S turns' =>
      line ← _read_line;
      let lines := (lines ++ [line])%list in
      if Str.startswith line expected then ret lines
      else wait_for_loop turns' expected lines
  end.

Definition _wait_for (expected : string) : M (list string) := fun s =>
  wait_for_loop (budget s) expected [] s.

Fixpoint read_until_bestmove_loop (turns : nat) (info_lines : list string)
    : M (list string * string) :=
  match turns with
  | O => hang
  | S turns' =>
      line ← _read_line;
      if Str.startswith line "info" && Str.contains "pv" line then
        read_until_bestmove_loop turns' (info_lines ++ [line])%list
      else if Str.startswith line "bestmove" then ret (info_lines, line)
      else read_until_bestmove_loop turns' info_lines
  end.

Definition _read_until_bestmove : M (list string * string) := fun s =>
  read_until_bestmove_loop (budget s) [] s.

(** *** The life cycle *)

(** [asyncio.wait_for(self._process.wait(), timeout=5.0)] *)
Definition wait_with_grace : M unit := fun s =>
  if exited (child s) || exits_in_grace (child s) then
    (Done (Ok tt), with_exited s)
  else (Done (Raised TimeoutError), s).

(** [self._process.kill()] then [await self._process.wait()] *)
Definition kill_and_wait : M unit :=
  modify (fun s => with_exited (emit Kill s)).

Definition stop : M unit :=
  s ← get;
  if negb (_process (self s)) then ret tt
  else
    _send_command "quit" ;;
    except_timeout wait_with_grace kill_and_wait ;;
    modify (set_self (fun w =>
      {| config := config w; _process := false; _reader := false;
         _writer := false; _lock := _lock w; _is_ready := false |})).

(** [asyncio.create_subprocess_exec] and the two assignments after it. *)
Definition spawn : M unit := fun s =>
  match spawns s with
  | None => (Done (Raised OSError), s)
  | Some c =>
      (Done (Ok tt),
       {| self :=
            {| config := config (self s); _process := true; _reader := true;
               _writer := true; _lock := _lock (self s);
               _is_ready := _is_ready (self s) |};
          child := c; spawns := None; log := log s |})
  end.

Fixpoint set_options (options : list (string * string)) : M unit :=
  match options with
  | [] => ret tt
  | (name, value) :: rest =>
      _send_command ("setoption name " ++ name ++ " value " ++ value)%string ;;
      set_options rest
  end.

Definition start : M unit :=
  s ← get;
  when (_process (self s)) stop ;;
  spawn ;;
  _send_command "uci" ;;
  _wait_for "uciok" ;;
  s ← get;
  set_options (to_uci_options (config (self s))) ;;
  _send_command "isready" ;;
  _wait_for "readyok" ;;
  modify (set_self (fun w =>
    {| config := config w; _process := _process w; _reader := _reader w;
       _writer := _writer w; _lock := _lock w; _is_ready := true |})).

Definition is_ready : M bool :=
  s ← get;
  if negb (_is_ready (self s)) then ret false
  else
    with_lock (
      _send_command "isready" ;;
      _wait_for "readyok" ;;
      ret true).

Definition new_game : M unit :=
  with_lock (
    _send_command "ucinewgame" ;;
    _send_command "isready" ;;
    _wait_for "readyok" ;;
    ret tt).

Definition is_running (s : state) : bool :=
  _process (self s) && negb (exited (child s)).

Section Analysis.

Context (chess : PyChess) (wdl_floats : Z -> option (Z * Z)).

Definition go_command (nodes depth time_ms : option Z) : string :=
  ("go" ++
   match depth, time_ms, nodes with
   | Some depth, _, _ => " depth " ++ Str.of_int depth
   | None, Some time_ms, _ => " movetime " ++ Str.of_int time_ms
   | None, None, Some nodes =>
       let approx_depth := Z.max 15 (Z.min 30 (10 + nodes / 100000)) in
       " depth " ++ Str.of_int approx_depth
   | None, None, None => " depth 20"
   end)%string.

(** [num_moves is not None and num_moves != self.config.multipv] *)
Definition other_multipv (num_moves : option Z) (s : state) : option Z :=
  match num_moves with
  | Some n => if n =? multipv (config (self s)) then None else Some n
  | None => None
  end.

Definition analyze_position (fen : string)
    (nodes depth time_ms num_moves : option Z) : M PositionAnalysis.t :=
  with_lock (
    s ← get;
    if negb (_is_ready (self s)) then
      raise (RuntimeError "Stockfish non pronto, chiamare start() prima")
    else
      match other_multipv num_moves s with
      | Some n =>
          _send_command ("setoption name MultiPV value " ++ Str.of_int n)%string
      | None => ret tt
      end ;;
      _send_command ("position fen " ++ fen)%string ;;
      _send_command (go_command nodes depth time_ms) ;;
      '(info_lines, bestmove_line) ← _read_until_bestmove;
      s ← get;
      match other_multipv num_moves s with
      | Some _ =>
          _send_command ("setoption name MultiPV value "
                         ++ Str.of_int (multipv (config (self s))))%string
      | None => ret tt
      end ;;
      lift (Parser._parse_analysis chess wdl_floats fen info_lines
              bestmove_line)).

End Analysis.

End Adapter.

(** ** Engines and engine output for the examples *)

Module Scenario.
Import Adapter.

Definition cfg : StockfishConfig :=
  {| executable_path := "/usr/local/bin/stockfish"; hash_mb := 2048;
     threads := 4; multipv := 10; use_nnue := true; skill_level := 20 |}.

(** A live engine that will write [out] and then fall silent. *)
Definition engine (out : list raw_line) : Child :=
  {| stdout := out; stdout_eof := false; stdin_lost := false;
     exits_in_grace := true; exited := false |}.

(** An engine that ignores the quit command. *)
Definition stubborn (out : list raw_line) : Child :=
  {| stdout := out; stdout_eof := false; stdin_lost := false;
     exits_in_grace := false; exited := false |}.

Definition no_child : Child :=
  {| stdout := []; stdout_eof := true; stdin_lost := true;
     exits_in_grace := true; exited := true |}.

(** A fresh adapter, with the process its first [start] will get. *)
Definition fresh (c : Child) : state :=
  {| self := new cfg; child := no_child; spawns := Some c; log := [] |}.

Definition handshake : list raw_line :=
  [Bytes "Stockfish 16 by the Stockfish developers";
   Bytes "id name Stockfish 16"; Bytes "uciok"; Bytes "readyok"].

(** The adapter after a successful [start] on an engine that answers the
    handshake and then writes [out]. *)
Definition started (out : list raw_line) : state :=
  snd (start (fresh (engine (handshake ++ out)%list))).

Definition started_stubborn : state :=
  snd (start (fresh (stubborn handshake))).

(** The adapter in the middle of [start], after "uci" has been written to an
    engine that will write [out]. *)
Definition awaiting_uciok (out : list raw_line) : state :=
  snd ((spawn ;; _send_command "uci") (fresh (engine out))).

(** Commands as they appear on the engine's input. *)
Definition commands (cs : list string) : list string :=
  (fun c => (c ++ Str.LF)%string) <$> cs.

Definition search_output : list raw_line :=
  [Bytes "info string NNUE evaluation enabled";
   Bytes "info depth 10 multipv 1 score cp 35 nodes 50000 time 120 nps 400000 pv e2e4 e7e5";
   Bytes "bestmove e2e4 ponder e7e5"].

(** The same search with a line that is not valid UTF-8 before the end. *)
Definition garbled_output : list raw_line :=
  [Bytes "info depth 10 multipv 1 score cp 35 nodes 50000 time 120 nps 400000 pv e2e4 e7e5";
   Undecodable;
   Bytes "bestmove e2e4 ponder e7e5"].

Definition analyze_position :=
  Adapter.analyze_position Opening.chess Opening.wdl_floats.

(** Three candidates of which the second has a malformed move. *)
Definition gap_lines : list string :=
  ["info depth 10 multipv 1 score cp 35 nodes 50000 pv e2e4 e7e5";
   "info depth 10 multipv 2 score cp 30 nodes 48000 pv zzzz";
   "info depth 10 multipv 3 score cp 20 nodes 47000 pv d2d4 g8f6"].

(** A variation whose second move is illegal where it is played. *)
Definition broken_line : string :=
  "info depth 10 multipv 1 score cp 35 nodes 50000 pv e2e4 e2e4 e7e5".

Definition legal_line : string :=
  "info depth 12 multipv 1 score cp 30 nodes 70000 pv e2e4 e7e5 g1f3".

(** The first candidate reported twice, the second report without a
    variation. *)
Definition first_report : string :=
  "info depth 10 multipv 1 score cp 35 nodes 50000 pv e2e4 e7e5".
Definition bare_report : string :=
  "info depth 12 seldepth 15 multipv 1 score cp 40 nodes 90000 nps 750000 time 120".
Definition other_report : string :=
  "info depth 10 multipv 2 score cp 20 nodes 50000 pv d2d4 d7d5".

(** Only the second candidate is reported. *)
Definition second_only : list string :=
  ["info depth 10 multipv 2 score cp 30 nodes 48000 pv d2d4 d7d5"].

Definition unparsed : list string :=
  ["info depth 10 multipv 1 score cp 35 nodes 50000 pv zzzz"].

(** Not a FEN. *)
Definition no_fen : string := EmptyString.

End Scenario.

(** ** More vocabulary for the statements below *)

Module Vocabulary.
Import Parser.

(** [v] is the value [f] reads off one of [lines], unless it is still the
    initial 0. *)
Definition attained (lines : list string) (f : info -> option Z) (v : Z)
    : Prop :=
  v = 0 \/
  exists line i, line ∈ lines /\ read_info line = Some i /\ f i = Some v.

(** The lines the loop of [_parse_analysis] does not skip. *)
Definition is_read (line : string) : Prop := is_Some (read_info line).

#[export] Instance is_read_dec line : Decision (is_read line).
Proof. unfold is_read. apply _. Defined.

(** The test of [_read_until_bestmove] for keeping a line. *)
Definition is_kept (line : string) : Prop :=
  Str.startswith line "info" && Str.contains "pv" line = true.

#[export] Instance is_kept_dec line : Decision (is_kept line).
Proof. unfold is_kept. apply _. Defined.

(** The lines that start with "info". *)
Definition is_info (line : string) : Prop := Str.startswith line "info" = true.

#[export] Instance is_info_dec line : Decision (is_info line).
Proof. unfold is_info. apply _. Defined.

(** No character of [s] is blank. *)
Fixpoint no_blank (s : string) : Prop :=
  match s with
  | EmptyString => True
  | String c s' => Str.isspace c = false /\ no_blank s'
  end.

(** The running values of the loop against the lines read so far. *)
Definition bounded (seen : list string) (a : acc) : Prop :=
  forall line i, line ∈ seen -> read_info line = Some i ->
    i_nodes i <= total_nodes a /\ i_depth i <= max_depth a /\
    i_seldepth i <= max_seldepth a /\
    (forall t, i_time i = Some t -> t <= time_ms a) /\
    (forall n, i_nps i = Some n -> n <= nps a).

Definition reached (seen : list string) (a : acc) : Prop :=
  attained seen (fun i => Some (i_nodes i)) (total_nodes a) /\
  attained seen (fun i => Some (i_depth i)) (max_depth a) /\
  attained seen (fun i => Some (i_seldepth i)) (max_seldepth a) /\
  attained seen i_time (time_ms a) /\
  attained seen i_nps (nps a).

Definition wdl_sum (wdl : Z * Z * Z) : Z :=
  let '(win, draw, loss) := wdl in win + draw + loss.

End Vocabulary.

(** ** More of the adapter *)

Module Adapter2.
Import Adapter.

(** [create_stockfish(config)]: a new wrapper, started. The surroundings
    (the process a spawn will give, the log) are those of [s]. *)
Definition create_stockfish (c : StockfishConfig) : M unit := fun s =>
  start {| self := new c; child := child s; spawns := spawns s; log := log s |}.

(** The handles are set and cleared together, and a ready adapter has
    them. *)
Definition consistent (w : StockfishWrapper) : Prop :=
  _reader w = _process w /\ _writer w = _process w /\
  (_is_ready w = true -> _process w = true).

(** Two wrappers that differ at most in the state of the lock. *)
Definition same_fields (w w' : StockfishWrapper) : Prop :=
  config w' = config w /\ _process w' = _process w /\
  _reader w' = _reader w /\ _writer w' = _writer w /\
  _is_ready w' = _is_ready w.

(** The command that sets one option. *)
Definition setoption (o : string * string) : string :=
  ("setoption name " ++ fst o ++ " value " ++ snd o)%string.

(** The MultiPV command [analyze_position] writes before the search, and the
    one it writes after it. *)
Definition multipv_before (num_moves : option Z) (s : state) : list string :=
  match other_multipv num_moves s with
  | Some n => [("setoption name MultiPV value " ++ Str.of_int n)%string]
  | None => []
  end.

Definition multipv_after (num_moves : option Z) (s : state) : list string :=
  match other_multipv num_moves s with
  | Some _ =>
      [("setoption name MultiPV value "
        ++ Str.of_int (multipv (config (self s))))%string]
  | None => []
  end.

(** [triple P m Q E]: from a state satisfying [P], a run of [m] that
    returns [a] ends in a state satisfying [Q a]; a run that raises [e]
    ends in a state satisfying [E (Some e)], and one that hangs in a state
    satisfying [E None]. *)
Definition triple {A} (P : state -> Prop) (m : M A)
    (Q : A -> state -> Prop) (E : option exn -> state -> Prop) : Prop :=
  forall s r s', P s -> m s = (r, s') ->
    match r with
    | Done (Ok a) => Q a s'
    | Done (Raised e) => E (Some e) s'
    | Hangs => E None s'
    end.

(** The state after a list of events. *)
Definition emit_all (evs : list event) (s : state) : state :=
  {| self := self s; child := child s; spawns := spawns s;
     log := (log s ++ evs)%list |}.

(** [start] after its first two lines: the spawn and the handshake. *)
Definition handshake_steps : M unit :=
  spawn ;;
  _send_command "uci" ;;
  _wait_for "uciok" ;;
  s ← get;
  set_options (to_uci_options (config (self s))) ;;
  _send_command "isready" ;;
  _wait_for "readyok" ;;
  modify (set_self (fun w =>
    {| config := config w; _process := _process w; _reader := _reader w;
       _writer := _writer w; _lock := _lock w; _is_ready := true |})).

Section Analysis.

Context (chess : PyChess) (wdl_floats : Z -> option (Z * Z)).

(** The body of [analyze_position], under the lock. *)
Definition analysis_body (fen : string)
    (nodes depth time_ms num_moves : option Z) : M PositionAnalysis.t :=
  s ← get;
  if negb (_is_ready (self s)) then
    raise (RuntimeError "Stockfish non pronto, chiamare start() prima")
  else
    match other_multipv num_moves s with
    | Some n =>
        _send_command ("setoption name MultiPV value " ++ Str.of_int n)%string
    | None => ret tt
    end ;;
    _send_command ("position fen " ++ fen)%string ;;
    _send_command (go_command nodes depth time_ms) ;;
    '(info_lines, bestmove_line) ← _read_until_bestmove;
    s ← get;
    match other_multipv num_moves s with
    | Some _ =>
        _send_command ("setoption name MultiPV value "
                       ++ Str.of_int (multipv (config (self s))))%string
    | None => ret tt
    end ;;
    lift (Parser._parse_analysis chess wdl_floats fen info_lines
            bestmove_line).

End Analysis.

(** The log entries of a list of commands. *)
Definition writes (cs : list string) : list event :=
  (fun c => Write (c ++ Str.LF)%string) <$> cs.

End Adapter2.

(** ** python-chess off the table of [Opening]

    [Board.san] asserts that a piece stands on the square a move starts
    from. At the starting position the ranks 3 to 6 are empty: there [san]
    raises an [AssertionError]. Elsewhere this oracle is [Opening.chess]. *)

Module Asserting.

Definition from_empty_square (b : list string) (m : string) : bool :=
  match b, m with
  | [], String _ (String r _) =>
      let n := N_of_ascii r in ((51 <=? n) && (n <=? 54))%N
  | _, _ => false
  end.

Definition chess : PyChess := {|
  Board := list string;
  Move := string;
  Board_of_fen := fun fen =>
    if String.eqb fen Opening.STARTING_FEN then Some [] else None;
  from_uci := Opening.parse_uci;
  is_legal := fun b m => bool_decide (is_Some (Opening.lookup b m));
  san := fun b m =>
    if from_empty_square b m then Raised AssertionError
    else
      match Opening.lookup b m with
      | Some s => Ok s
      | None => Raised ValueError
      end;
  push := fun b m => (b ++ [m])%list;
|}.

Definition _parse_analysis := Parser._parse_analysis chess Opening.wdl_floats.

(** A line whose variation starts with a move from an empty square. *)
Definition empty_square_line : string :=
  "info depth 10 multipv 1 score cp 35 nodes 50000 pv e4e5".

End Asserting.

(** ** The service around the adapters

    [engine/base.py], [api/schemas.py], [api/routes.py] and the [lifespan]
    of [main.py]. An engine is whatever implements [BaseEngine]; its
    methods act on a world [W] that holds the state of every engine. *)

Module Dict.

(** A Python [dict] with its order: assigning to a key that is present
    replaces the value where it stands, a new key goes to the end. *)
Section Dict.

Context {K V : Type} `{EqDecision K}.

Fixpoint set (k : K) (v : V) (d : list (K * V)) : list (K * V) :=
  match d with
  | [] => [(k, v)]
  | (k', v') :: d' =>
      if decide (k' = k) then (k, v) :: d' else (k', v') :: set k v d'
  end.

Fixpoint get (k : K) (d : list (K * V)) : option V :=
  match d with
  | [] => None
  | (k', v') :: d' => if decide (k' = k) then Some v' else get k d'
  end.

Definition keys (d : list (K * V)) : list K := d.*1.

Definition values (d : list (K * V)) : list V := d.*2.

End Dict.

End Dict.

Module Service.
Import Adapter.

(** [EngineType] of [engine/base.py] *)
Inductive EngineType : Type := LC0 | STOCKFISH | MAIA.

#[export] Instance EngineType_eq_dec : EqDecision EngineType.
Proof. solve_decision. Defined.

Definition value (t : EngineType) : string :=
  match t with
  | LC0 => "lc0"
  | STOCKFISH => "stockfish"
  | MAIA => "maia"
  end.

(** [EngineType(v)]: the member whose value is [v], or [ValueError]. *)
Definition EngineType_of (v : string) : result EngineType :=
  if String.eqb v "lc0" then Ok LC0
  else if String.eqb v "stockfish" then Ok STOCKFISH
  else if String.eqb v "maia" then Ok MAIA
  else Raised ValueError.

(** [EngineType] of [api/schemas.py], a separate enumeration. *)
Module Schema.
Inductive EngineType : Type := LC0 | STOCKFISH | MAIA.

Definition value (t : EngineType) : string :=
  match t with
  | LC0 => "lc0"
  | STOCKFISH => "stockfish"
  | MAIA => "maia"
  end.
End Schema.

(** The request and response models of [api/schemas.py]. *)
Record AnalyzeRequest : Type := {
  req_fen : string;
  req_engine : Schema.EngineType;
  req_nodes : Z;
  req_depth : option Z;
  req_num_moves : Z;
}.

(** The bounds [Field(ge=..., le=...)] puts on a request. *)
Definition valid_request (r : AnalyzeRequest) : Prop :=
  1000 <= req_nodes r <= 10000000 /\
  match req_depth r with
  | Some d => 1 <= d <= 50
  | None => True
  end /\
  1 <= req_num_moves r <= 50.

Module MoveCandidateResponse.
Record t : Type := make {
  move : string;
  move_san : string;
  score_cp : Z;
  score_wdl : list Z;
  rank : Z;
}.
End MoveCandidateResponse.

Module AnalyzeResponse.
Record t : Type := make {
  fen : string;
  engine : string;
  candidates : list MoveCandidateResponse.t;
  evaluation_cp : Z;
  total_nodes : Z;
  time_ms : Z;
  depth : Z;
}.
End AnalyzeResponse.

Record EngineStatus : Type := {
  status_name : string;
  ready : bool;
  enabled : bool;
}.

Record HealthResponse : Type := {
  status : string;
  engines : list EngineStatus;
}.

(** The two settings of [config.py] the routes read. *)
Record Settings : Type := {
  stockfish_enabled : bool;
  maia_enabled : bool;
}.

(** What a handler can end with: a value, an exception of the service, an
    [HTTPException], or nothing when an engine call never completes. *)
Inductive reply (A : Type) : Type :=
  | Reply (a : A)
  | HTTPException (status_code : Z) (detail : string)
  | Unhandled (e : exn)
  | NoReply.
Arguments Reply {A} a.
Arguments HTTPException {A} status_code detail.
Arguments Unhandled {A} e.
Arguments NoReply {A}.

Section WithWorld.

Context {W : Type}.

(** [str(e)] for the exceptions the engines raise. *)
Context (str_of_exn : exn -> string).

(** [BaseEngine]: the abstract methods, as functions of the world. *)
Record BaseEngine : Type := {
  engine_type : EngineType;
  be_start : W -> outcome unit * W;
  be_stop : W -> outcome unit * W;
  be_analyze_position :
    string -> option Z -> option Z -> option Z -> option Z ->
    W -> outcome PositionAnalysis.t * W;
  be_is_ready : W -> outcome bool * W;
  be_new_game : W -> outcome unit * W;
  be_is_running : W -> bool;
}.

(** [BaseEngine.name] *)
Definition name (e : BaseEngine) : string := value (engine_type e).

(** *** [api/routes.py] *)

(** The module-level [_engines]. *)
Definition register_engine (t : EngineType) (e : BaseEngine)
    (_engines : list (EngineType * BaseEngine))
    : list (EngineType * BaseEngine) :=
  Dict.set t e _engines.

Definition get_engine (t : Schema.EngineType)
    (_engines : list (EngineType * BaseEngine)) : reply BaseEngine :=
  match EngineType_of (Schema.value t) with
  | Raised e => Unhandled e
  | Ok engine_enum =>
      match Dict.get engine_enum _engines with
      | None =>
          HTTPException 503
            ("Engine '" ++ Schema.value t ++ "' not available")%string
      | Some e => Reply e
      end
  end.

Definition get_available_engines
    (_engines : list (EngineType * BaseEngine)) : list EngineType :=
  Dict.keys _engines.

(** [x or 20] on an optional integer. *)
Definition or_20 (x : option Z) : Z :=
  match x with
  | Some d => if d =? 0 then 20 else d
  | None => 20
  end.

Definition candidate_response (c : MoveCandidate.t)
    : MoveCandidateResponse.t :=
  {| MoveCandidateResponse.move := MoveCandidate.move c;
     MoveCandidateResponse.move_san := MoveCandidate.move_san c;
     MoveCandidateResponse.score_cp := MoveCandidate.score_cp c;
     MoveCandidateResponse.score_wdl :=
       (let '(w, d, l) := MoveCandidate.score_wdl c in [w; d; l]);
     MoveCandidateResponse.rank := MoveCandidate.rank c |}.

(** The response the handler of [POST /analyze] builds from an analysis. *)
Definition analyze_response (engine_type : EngineType)
    (analysis : PositionAnalysis.t) : AnalyzeResponse.t :=
  {| AnalyzeResponse.fen := PositionAnalysis.fen analysis;
     AnalyzeResponse.engine := value engine_type;
     AnalyzeResponse.candidates :=
       candidate_response <$> PositionAnalysis.candidates analysis;
     AnalyzeResponse.evaluation_cp := PositionAnalysis.evaluation_cp analysis;
     AnalyzeResponse.total_nodes := PositionAnalysis.total_nodes analysis;
     AnalyzeResponse.time_ms := PositionAnalysis.time_ms analysis;
     AnalyzeResponse.depth := PositionAnalysis.depth analysis |}.

(** The handler of [POST /analyze]. *)
Definition analyze_position (request : AnalyzeRequest)
    (_engines : list (EngineType * BaseEngine)) (w : W)
    : reply AnalyzeResponse.t * W :=
  match EngineType_of (Schema.value (req_engine request)) with
  | Raised e => (Unhandled e, w)
  | Ok engine_type =>
      match get_engine (req_engine request) _engines with
      | Reply engine =>
          let call :=
            if decide (engine_type = STOCKFISH) then
              be_analyze_position engine (req_fen request) None
                (Some (or_20 (req_depth request))) None
                (Some (req_num_moves request))
            else
              be_analyze_position engine (req_fen request)
                (Some (req_nodes request)) None None
                (Some (req_num_moves request)) in
          match call w with
          | (Done (Ok analysis), w') =>
              (Reply (analyze_response engine_type analysis), w')
          | (Done (Raised e), w') =>
              (HTTPException 500
                 ("Analysis failed: " ++ str_of_exn e)%string, w')
          | (Hangs, w') => (NoReply, w')
          end
      | HTTPException c d => (HTTPException c d, w)
      | Unhandled e => (Unhandled e, w)
      | NoReply => (NoReply, w)
      end
  end.

(** One of the three probes of [health_check]: not registered is not
    ready, and so is an engine whose [is_ready] raises. *)
Definition probe (t : EngineType)
    (_engines : list (EngineType * BaseEngine)) (w : W) : outcome bool * W :=
  match Dict.get t _engines with
  | None => (Done (Ok false), w)
  | Some e =>
      match be_is_ready e w with
      | (Done (Ok b), w') => (Done (Ok b), w')
      | (Done (Raised _), w') => (Done (Ok false), w')
      | (Hangs, w') => (Hangs, w')
      end
  end.

(** The handler of [GET /health]. *)
Definition health_check (settings : Settings)
    (_engines : list (EngineType * BaseEngine)) (w : W)
    : outcome HealthResponse * W :=
  match probe LC0 _engines w with
  | (Done (Ok lc0_ready), w1) =>
      match probe STOCKFISH _engines w1 with
      | (Done (Ok stockfish_ready), w2) =>
          match probe MAIA _engines w2 with
          | (Done (Ok maia_ready), w3) =>
              let engine_statuses :=
                [ {| status_name := "lc0"; ready := lc0_ready;
                     enabled := true |};
                  {| status_name := "stockfish"; ready := stockfish_ready;
                     enabled := stockfish_enabled settings |};
                  {| status_name := "maia"; ready := maia_ready;
                     enabled := maia_enabled settings |} ] in
              let any_ready := existsb ready engine_statuses in
              (Done (Ok {|
                 status := if any_ready then "healthy" else "degraded";
                 engines := engine_statuses |}), w3)
          | (Done (Raised e), w3) => (Done (Raised e), w3)
          | (Hangs, w3) => (Hangs, w3)
          end
      | (Done (Raised e), w2) => (Done (Raised e), w2)
      | (Hangs, w2) => (Hangs, w2)
      end
  | (Done (Raised e), w1) => (Done (Raised e), w1)
  | (Hangs, w1) => (Hangs, w1)
  end.

(** The handler of [GET /engines], as the identifiers and their
    [available] flags. *)
Definition registered (t : EngineType)
    (_engines : list (EngineType * BaseEngine)) : bool :=
  match Dict.get t _engines with
  | Some _ => true
  | None => false
  end.

Definition list_engines (settings : Settings)
    (_engines : list (EngineType * BaseEngine)) : list (string * bool) :=
  [ ("lc0", registered LC0 _engines);
    ("stockfish",
     registered STOCKFISH _engines && stockfish_enabled settings);
    ("maia", registered MAIA _engines && maia_enabled settings) ].

(** *** [lifespan] of [main.py]

    The two registries, the one of [main.py] and the one of
    [api/routes.py], are filled together. The engines themselves are
    given: the LC0 wrapper is not part of this development. *)

(** The [try] block that starts an engine and registers it. *)
Definition start_and_register (t : EngineType) (engine : BaseEngine)
    (regs : list (EngineType * BaseEngine) * list (EngineType * BaseEngine))
    (w : W)
    : outcome (list (EngineType * BaseEngine) *
               list (EngineType * BaseEngine)) * W :=
  match be_start engine w with
  | (Done (Ok _), w') =>
      (Done (Ok (Dict.set t engine (fst regs),
                 register_engine t engine (snd regs))), w')
  | (Done (Raised e), w') => (Done (Raised e), w')
  | (Hangs, w') => (Hangs, w')
  end.

(** An engine that is only started when [wanted], and whose failure to
    start is logged and passed over: the registries afterwards, or nothing
    when the start never completes. *)
Definition optional_engine (wanted : bool) (t : EngineType)
    (engine : BaseEngine)
    (regs : list (EngineType * BaseEngine) * list (EngineType * BaseEngine))
    (w : W)
    : option (list (EngineType * BaseEngine) *
              list (EngineType * BaseEngine)) * W :=
  if wanted then
    match start_and_register t engine regs w with
    | (Done (Ok regs'), w') => (Some regs', w')
    | (Done (Raised _), w') => (Some regs, w')
    | (Hangs, w') => (None, w')
    end
  else (Some regs, w).

(** How the start-up part ends: the service is up with its registries,
    [sys.exit] ended the process, or an engine never finished starting. *)
Inductive boot : Type :=
  | Serving (main_engines routes_engines : list (EngineType * BaseEngine))
  | SystemExit (code : Z)
  | Starting.

Definition startup (lc0_engine maia_engine stockfish_engine : BaseEngine)
    (settings : Settings) (maia_network_exists stockfish_path_exists : bool)
    (regs : list (EngineType * BaseEngine) * list (EngineType * BaseEngine))
    (w : W) : boot * W :=
  match start_and_register LC0 lc0_engine regs w with
  | (Hangs, w1) => (Starting, w1)
  | (Done (Raised _), w1) => (SystemExit 1, w1)
  | (Done (Ok regs1), w1) =>
      match optional_engine (maia_enabled settings && maia_network_exists)
              MAIA maia_engine regs1 w1 with
      | (None, w2) => (Starting, w2)
      | (Some regs2, w2) =>
          match optional_engine
                  (stockfish_enabled settings && stockfish_path_exists)
                  STOCKFISH stockfish_engine regs2 w2 with
          | (None, w3) => (Starting, w3)
          | (Some regs3, w3) => (Serving (fst regs3) (snd regs3), w3)
          end
      end
  end.

(** *** The shutdown loop of [main.py]: every engine is stopped in turn,
    and a [stop] that raises is logged and passed over. *)
Fixpoint shutdown (_engines : list (EngineType * BaseEngine)) (w : W)
    : outcome unit * W :=
  match _engines with
  | [] => (Done (Ok tt), w)
  | (_, engine) :: rest =>
      match be_stop engine w with
      | (Done _, w') => shutdown rest w'
      | (Hangs, w') => (Hangs, w')
      end
  end.

(** The world after [stop] has been called on each engine in turn. *)
Definition stopped (_engines : list (EngineType * BaseEngine)) (w : W) : W :=
  foldl (fun w0 e => snd (be_stop e w0)) w (Dict.values _engines).

End WithWorld.

Arguments BaseEngine W : clear implicits.

(** The Stockfish adapter as a [BaseEngine] over its own state. *)
Definition stockfish_engine (chess : PyChess)
    (wdl_floats : Z -> option (Z * Z)) : BaseEngine state :=
  {| engine_type := STOCKFISH;
     be_start := Adapter.start;
     be_stop := Adapter.stop;
     be_analyze_position := Adapter.analyze_position chess wdl_floats;
     be_is_ready := Adapter.is_ready;
     be_new_game := Adapter.new_game;
     be_is_running := Adapter.is_running |}.

End Service.

(** ** [config.py] *)

Module Config.

(** [s.split(sep)] for a separator of one character: the pieces between
    the separators, empty ones included. *)
Fixpoint split_on (sep : ascii) (s : string) : list string :=
  match s with
  | EmptyString => [EmptyString]
  | String c s' =>
      if Ascii.eqb c sep then EmptyString :: split_on sep s'
      else
        match split_on sep s' with
        | [] => [String c EmptyString]
        | piece :: pieces => String c piece :: pieces
        end
  end.

(** How often [c] occurs in [s]. *)
Fixpoint count_char (c : ascii) (s : string) : nat :=
  match s with
  | EmptyString => 0%nat
  | String c' s' => ((if Ascii.eqb c' c then 1 else 0) + count_char c s')%nat
  end.

(** A list comprehension whose element expression may raise. *)
Fixpoint comprehension {A B} (f : A -> result B) (xs : list A)
    : result (list B) :=
  match xs with
  | [] => Ok []
  | x :: xs' =>
      result_bind (f x) (fun y =>
      result_bind (comprehension f xs') (fun ys => Ok (y :: ys)))
  end.

Section WithInt.

(** The built-in [int] on a string. *)
Context (int : string -> result Z).

(** [Settings.gpu_ids_list] *)
Definition gpu_ids_list (lc0_gpu_ids : string) : result (list Z) :=
  comprehension (fun x => int (Str.strip x)) (split_on "," lc0_gpu_ids).

End WithInt.

(** [int] on the decimal numerals: blanks around, a sign, digits, single
    underscores between digits. *)
Fixpoint numeral (acc : Z) (after_digit : bool) (s : string) : option Z :=
  match s with
  | EmptyString => if after_digit then Some acc else None
  | String c s' =>
      if Str.isdigit c then numeral (10 * acc + Str.digit_value c) true s'
      else if Ascii.eqb c "_" && after_digit then numeral acc false s'
      else None
  end.

Definition int (s : string) : result Z :=
  let r :=
    match Str.strip s with
    | String "-" s' => Z.opp <$> numeral 0 false s'
    | String "+" s' => numeral 0 false s'
    | s' => numeral 0 false s'
    end in
  match r with
  | Some n => Ok n
  | None => Raised ValueError
  end.

End Config.

(** ** Inputs for the examples of the service *)

Module Cases.
Import Adapter Service.

(** A line that announces a mate in three. *)
Definition mate_line : string :=
  "info depth 20 multipv 1 score mate 3 nodes 100000 pv e2e4".

(** A line without a MultiPV index. *)
Definition currmove_line : string :=
  "info depth 10 currmove e2e4 currmovenumber 1".

(** [str(e)]: the message of a [RuntimeError], nothing for an exception
    raised without arguments. *)
Definition str_of_exn (e : exn) : string :=
  match e with
  | RuntimeError msg => msg
  | _ => EmptyString
  end.

Definition stockfish : BaseEngine state :=
  stockfish_engine Opening.chess Opening.wdl_floats.

(** An engine whose binary is missing: [start] raises. *)
Definition missing (t : EngineType) : BaseEngine state :=
  {| engine_type := t;
     be_start := raise OSError;
     be_stop := ret tt;
     be_analyze_position := fun _ _ _ _ _ => raise (RuntimeError "not started");
     be_is_ready := ret false;
     be_new_game := ret tt;
     be_is_running := fun _ => false |}.

(** An engine that starts at once and keeps to itself. *)
Definition idle (t : EngineType) : BaseEngine state :=
  {| engine_type := t;
     be_start := ret tt;
     be_stop := ret tt;
     be_analyze_position := fun _ _ _ _ _ => raise (RuntimeError "no analysis");
     be_is_ready := ret true;
     be_new_game := ret tt;
     be_is_running := fun _ => true |}.

Definition _engines : list (EngineType * BaseEngine state) :=
  [(STOCKFISH, stockfish)].

Definition settings : Settings :=
  {| stockfish_enabled := true; maia_enabled := true |}.

Definition request : AnalyzeRequest :=
  {| req_fen := Opening.STARTING_FEN; req_engine := Schema.STOCKFISH;
     req_nodes := 100000; req_depth := None; req_num_moves := 10 |}.

End Cases.

(** * Properties of the parser *)

Module ParserSpec.
Import Parser.
Local Open Scope list_scope.

(** A sorted list without repeats is strictly increasing. *)
Lemma StronglySorted_le_lt (l : list Z) :
  StronglySorted Z.le l -> NoDup l -> StronglySorted Z.lt l.
Proof.
  induction 1 as [|x l Hl IH Hx]; intros Hnd; [constructor|].
  apply NoDup_cons in Hnd as [Hnotin Hnd].
  constructor; [auto|].
  rewrite Forall_forall in Hx |- *.
  intros y Hy. specialize (Hx y Hy).
  assert (x <> y) by (intros ->; done). lia.
Qed.

Section WithOracles.

Context (chess : PyChess) (wdl_floats : Z -> option (Z * Z)).

Local Abbreviation candidate_of := (candidate_of chess wdl_floats).
Local Abbreviation parse_line := (parse_line chess wdl_floats).
Local Abbreviation _parse_analysis := (_parse_analysis chess wdl_floats).
Local Abbreviation walk_pv := (walk_pv chess).
Local Abbreviation from_lines := (from_lines chess wdl_floats).
Local Abbreviation plays := (plays chess).
Local Abbreviation unplayable := (unplayable chess).

(** ** The integer part of [_estimate_wdl]

    Whatever the floating-point stage gives for win and draw, the loss is
    what they leave of 1000, so the three sum to 1000. *)
Lemma estimate_wdl_sum score_cp win draw loss :
  _estimate_wdl wdl_floats score_cp = Ok (win, draw, loss) ->
  loss = 1000 - win - draw /\ win + draw + loss = 1000.
Proof.
  unfold _estimate_wdl. destruct (wdl_floats score_cp) as [[w d]|]; [|done].
  intros [= <- <- <-]. lia.
Qed.

(** ** What a stored candidate carries *)

Lemma candidate_of_fields board i c :
  candidate_of board i = Ok (Some c) ->
  MoveCandidate.rank c = mpv_idx i /\
  MoveCandidate.multipv_index c = mpv_idx i /\
  MoveCandidate.score_cp c = i_score_cp i /\
  MoveCandidate.depth c = i_depth i /\
  MoveCandidate.nodes c = i_nodes i /\
  MoveCandidate.pv c = i_pv i /\
  head (i_pv i) = Some (MoveCandidate.move c) /\
  walk_pv board (i_pv i) = Ok (MoveCandidate.pv_san c).
Proof.
  unfold Parser.candidate_of, result_bind.
  destruct (_estimate_wdl wdl_floats (i_score_cp i)) as [wdl|]; [|done].
  destruct (walk_pv board (i_pv i)) as [sans|]; [|done].
  destruct (i_pv i) as [|u rest]; [done|].
  destruct (from_uci chess u) as [m|]; [|done].
  destruct (san chess board m) as [s|e]; [|by destruct (is_value_error e)].
  intros [= <-]. by simpl.
Qed.

(** ** The loop *)

Lemma parse_line_cases board a line a' :
  parse_line board a line = Ok a' ->
  (read_info line = None /\ a' = a) \/
  (exists i c, read_info line = Some i /\ candidate_of board i = Ok c /\
     candidates a' = store i c (candidates a)).
Proof.
  unfold Parser.parse_line.
  destruct (read_info line) as [i|]; [|intros [= <-]; by left].
  unfold result_bind.
  destruct (candidate_of board i) as [c|] eqn:Hc; [|done].
  intros [= <-]. right. by exists i, c.
Qed.

Lemma from_lines_mono board lines x m :
  from_lines board lines m -> from_lines board (lines ++ [x]) m.
Proof.
  intros H k c Hk. destruct (H k c Hk) as (line & i & Hin & Hrest).
  exists line, i. split; [apply elem_of_app; by left|done].
Qed.

Lemma for_each_from_lines board lines : forall seen a a',
  from_lines board seen (candidates a) ->
  for_each (parse_line board) a lines = Ok a' ->
  from_lines board (seen ++ lines) (candidates a').
Proof.
  induction lines as [|line lines IH]; intros seen a a' Hinv; simpl.
  - intros [= <-]. by rewrite app_nil_r.
  - unfold result_bind at 1.
    destruct (parse_line board a line) as [a1|] eqn:Hline; [|done].
    intros Hrest.
    replace (seen ++ line :: lines) with ((seen ++ [line]) ++ lines)
      by (by rewrite <- app_assoc).
    apply (IH _ a1); [|done].
    apply parse_line_cases in Hline as [[_ ->]|(i & c & Hi & Hc & ->)].
    + by apply from_lines_mono.
    + destruct c as [c|]; simpl; [|by apply from_lines_mono].
      intros k c'. rewrite lookup_insert. case_decide as Hk.
      * intros [= <-]. exists line, i. split; [set_solver|done].
      * intros Hk'. by apply (from_lines_mono board seen line _ Hinv).
Qed.

(** A line that stores a candidate is still there at the end unless a
    later line stores one under the same index. *)
Lemma for_each_keeps board lines : forall a a' k c,
  candidates a !! k = Some c ->
  (forall line i, line ∈ lines -> read_info line = Some i -> mpv_idx i = k ->
     candidate_of board i = Ok None) ->
  for_each (parse_line board) a lines = Ok a' ->
  candidates a' !! k = Some c.
Proof.
  induction lines as [|line lines IH]; intros a a' k c Hk Hlater; simpl.
  - by intros [= <-].
  - unfold result_bind at 1.
    destruct (parse_line board a line) as [a1|] eqn:Hline; [|done].
    apply (IH a1); [|intros l i ?; apply Hlater; set_solver].
    apply parse_line_cases in Hline as [[_ ->]|(i & oc & Hi & Hc & ->)];
      [done|].
    destruct oc as [c1|]; simpl; [|done].
    destruct (decide (mpv_idx i = k)) as [Heq|Hne].
    + rewrite (Hlater line i) in Hc; [done|set_solver|done|done].
    + by rewrite lookup_insert_ne.
Qed.

Lemma for_each_app {A S} (body : S -> A -> result S) xs ys : forall s,
  for_each body s (xs ++ ys) =
  result_bind (for_each body s xs) (fun s' => for_each body s' ys).
Proof.
  induction xs as [|x xs IH]; intros s; simpl; [done|].
  destruct (body s x); simpl; auto.
Qed.

Lemma for_each_stores board pre line post i c a a' :
  read_info line = Some i ->
  candidate_of board i = Ok (Some c) ->
  (forall l j, l ∈ post -> read_info l = Some j -> mpv_idx j = mpv_idx i ->
     candidate_of board j = Ok None) ->
  for_each (parse_line board) a (pre ++ line :: post) = Ok a' ->
  candidates a' !! mpv_idx i = Some c.
Proof.
  intros Hi Hc Hpost. rewrite for_each_app. unfold result_bind at 1.
  destruct (for_each (parse_line board) a pre) as [a1|]; [|done].
  simpl. unfold result_bind at 1.
  destruct (parse_line board a1 line) as [a2|] eqn:Hline; [|done].
  apply for_each_keeps; [|done].
  apply parse_line_cases in Hline as [[Hn _]|(i' & oc & Hi' & Hc' & ->)];
    [congruence|].
  assert (i' = i) as -> by congruence.
  rewrite Hc in Hc'. injection Hc' as <-. simpl. apply lookup_insert_eq.
Qed.

(** ** The sorted list *)

Lemma sorted_keys_lt (m : gmap Z MoveCandidate.t) :
  StronglySorted Z.lt (merge_sort Z.le (map_to_list m).*1).
Proof.
  apply StronglySorted_le_lt.
  - apply StronglySorted_merge_sort; [apply _|].
    intros x y. lia.
  - rewrite merge_sort_Permutation. apply NoDup_fst_map_to_list.
Qed.

Lemma elem_of_sorted_candidates (m : gmap Z MoveCandidate.t) c :
  c ∈ sorted_candidates m <-> exists k, m !! k = Some c.
Proof.
  unfold sorted_candidates. rewrite list_elem_of_omap. split.
  - intros (k & _ & Hk). by exists k.
  - intros (k & Hk). exists k. split; [|done].
    rewrite merge_sort_Permutation. apply list_elem_of_fmap.
    exists (k, c). split; [done|]. by apply elem_of_map_to_list.
Qed.

Lemma omap_lookup_ranks (m : gmap Z MoveCandidate.t) (ks : list Z) :
  (forall k c, m !! k = Some c -> MoveCandidate.rank c = k) ->
  (forall k, k ∈ ks -> is_Some (m !! k)) ->
  MoveCandidate.rank <$> omap (fun k => m !! k) ks = ks.
Proof.
  intros Hrank. induction ks as [|k ks IH]; intros Hks; [done|].
  destruct (Hks k) as [c Hc]; [set_solver|].
  simpl. rewrite Hc. simpl. rewrite (Hrank k c Hc). f_equal.
  apply IH. intros k' ?. apply Hks. set_solver.
Qed.

Lemma sorted_candidates_ranks (m : gmap Z MoveCandidate.t) :
  (forall k c, m !! k = Some c -> MoveCandidate.rank c = k) ->
  MoveCandidate.rank <$> sorted_candidates m
  = merge_sort Z.le (map_to_list m).*1.
Proof.
  intros Hrank. apply omap_lookup_ranks; [done|].
  intros k. rewrite merge_sort_Permutation.
  intros ((k' & c) & -> & Hkc)%list_elem_of_fmap.
  apply elem_of_map_to_list in Hkc. by exists c.
Qed.

Lemma from_lines_rank board lines m k c :
  from_lines board lines m -> m !! k = Some c -> MoveCandidate.rank c = k.
Proof.
  intros H Hk. destruct (H k c Hk) as (line & i & _ & _ & <- & Hc).
  by apply candidate_of_fields in Hc as (? & _).
Qed.

(** What [_parse_analysis] returns, in terms of the loop. *)
Lemma parse_analysis_inv fen lines bm pa :
  _parse_analysis fen lines bm = Ok pa ->
  exists board a,
    Board_of_fen chess fen = Some board /\
    for_each (parse_line board) acc0 lines = Ok a /\
    from_lines board lines (candidates a) /\
    PositionAnalysis.candidates pa = sorted_candidates (candidates a) /\
    PositionAnalysis.evaluation_cp pa =
      match PositionAnalysis.candidates pa with
      | c :: _ => MoveCandidate.score_cp c
      | [] => 0
      end /\
    PositionAnalysis.evaluation_wdl pa =
      match PositionAnalysis.candidates pa with
      | c :: _ => MoveCandidate.score_wdl c
      | [] => (333, 334, 333)
      end.
Proof.
  unfold Parser._parse_analysis.
  destruct (Board_of_fen chess fen) as [board|]; [|done].
  unfold result_bind.
  destruct (for_each (parse_line board) acc0 lines) as [a|] eqn:Hloop; [|done].
  intros [= <-]. exists board, a. simpl. repeat split; try done.
  apply (for_each_from_lines board lines [] acc0 a); [|done].
  intros k c. simpl. by rewrite lookup_empty.
Qed.

(** ** Walking a variation *)

Lemma plays_length b pv sans b' :
  plays b pv sans b' -> length sans = length pv.
Proof. induction 1; simpl; auto. Qed.

Lemma walk_pv_plays b pre sans b' rest :
  plays b pre sans b' ->
  walk_pv b (pre ++ rest) =
  result_bind (walk_pv b' rest) (fun l => Ok (sans ++ l)).
Proof.
  induction 1 as [b|b u m s pre sans b' Hu Hl Hs _ IH]; simpl.
  - by destruct (walk_pv b rest).
  - rewrite Hu, Hl, Hs, IH. by destruct (walk_pv b' rest).
Qed.

Lemma walk_pv_unplayable b bad post :
  unplayable b bad -> walk_pv b (bad :: post) = Ok [].
Proof.
  unfold unplayable. simpl. destruct (from_uci chess bad); [|done].
  by intros ->.
Qed.

Lemma read_info_pv line i :
  read_info line = Some i ->
  i_pv i = match Re.pv_pattern line with
           | Some g => Str.split g
           | None => []
           end.
Proof.
  unfold read_info. destruct (negb _); [done|].
  destruct (Re.multipv_pattern line); [|done]. by intros [= <-].
Qed.

Lemma for_each_dom_mono board lines : forall a a' k,
  is_Some (candidates a !! k) ->
  for_each (parse_line board) a lines = Ok a' ->
  is_Some (candidates a' !! k).
Proof.
  induction lines as [|line lines IH]; intros a a' k Hk; simpl.
  - by intros [= <-].
  - unfold result_bind at 1.
    destruct (parse_line board a line) as [a1|] eqn:Hline; [|done].
    apply IH.
    apply parse_line_cases in Hline as [[_ ->]|(i & oc & _ & _ & ->)];
      [done|].
    destruct oc as [c1|]; simpl; [|done].
    rewrite lookup_insert. by case_decide.
Qed.

Lemma for_each_stored board lines line i c a a' :
  line ∈ lines ->
  read_info line = Some i ->
  candidate_of board i = Ok (Some c) ->
  for_each (parse_line board) a lines = Ok a' ->
  is_Some (candidates a' !! mpv_idx i).
Proof.
  intros (pre & post & ->)%list_elem_of_split Hi Hc.
  rewrite for_each_app. unfold result_bind at 1.
  destruct (for_each (parse_line board) a pre) as [a1|]; [|done].
  simpl. unfold result_bind at 1.
  destruct (parse_line board a1 line) as [a2|] eqn:Hline; [|done].
  apply for_each_dom_mono.
  apply parse_line_cases in Hline as [[Hn _]|(i' & oc & Hi' & Hc' & ->)];
    [congruence|].
  assert (i' = i) as -> by congruence.
  rewrite Hc in Hc'. injection Hc' as <-. simpl.
  rewrite lookup_insert_eq. by eexists.
Qed.

Lemma filter_none {A} (P : A -> Prop) `{forall x, Decision (P x)} (l : list A) :
  (forall x, x ∈ l -> ~ P x) -> filter P l = [].
Proof.
  induction l as [|x l IH]; intros Hl; [done|].
  rewrite filter_cons_False by (apply Hl, elem_of_cons; by left).
  apply IH. intros y ?. apply Hl, elem_of_cons. by right.
Qed.

Lemma filter_ext_elem {A} (P Q : A -> Prop) `{forall x, Decision (P x)}
    `{forall x, Decision (Q x)} (l : list A) :
  (forall x, x ∈ l -> P x <-> Q x) -> filter P l = filter Q l.
Proof.
  induction l as [|x l IH]; intros Hl; [done|].
  rewrite !filter_cons.
  assert (P x <-> Q x) as Hx by (apply Hl, elem_of_cons; by left).
  rewrite IH by (intros y ?; apply Hl, elem_of_cons; by right).
  destruct (decide (P x)), (decide (Q x)); tauto.
Qed.

(** In a list whose ranks do not repeat, the candidates of one rank are one
    candidate. *)
Lemma filter_rank_singleton (l : list MoveCandidate.t) c :
  NoDup (MoveCandidate.rank <$> l) -> c ∈ l ->
  filter (fun c' => MoveCandidate.rank c' = MoveCandidate.rank c) l = [c].
Proof.
  induction l as [|x l IH]; [by intros _ ?%elem_of_nil|].
  rewrite fmap_cons, NoDup_cons. intros [Hx Hnd] Hc.
  apply elem_of_cons in Hc as [->|Hc].
  - rewrite filter_cons_True by done. f_equal.
    apply filter_none. intros y Hy Heq.
    apply Hx. rewrite <- Heq. by apply list_elem_of_fmap_2.
  - rewrite filter_cons_False; [by apply IH|].
    intros Heq. apply Hx. rewrite Heq. by apply list_elem_of_fmap_2.
Qed.

Lemma StronglySorted_lt_NoDup (l : list Z) : StronglySorted Z.lt l -> NoDup l.
Proof.
  induction 1 as [|x l _ IH Hx]; constructor; [|done].
  intros Hin. rewrite Forall_forall in Hx. specialize (Hx x Hin). lia.
Qed.

(** The first two facts of the ranks of a result, shared by the claims
    below. *)
Lemma ranks_increasing fen info_lines bestmove_line pa :
  _parse_analysis fen info_lines bestmove_line = Ok pa ->
  StronglySorted Z.lt
    (MoveCandidate.rank <$> PositionAnalysis.candidates pa) /\
  (forall c, c ∈ PositionAnalysis.candidates pa ->
     MoveCandidate.rank c = MoveCandidate.multipv_index c).
Proof.
  intros (board & a & Hb & Hloop & Hfrom & Hcs & _)%parse_analysis_inv.
  rewrite Hcs. split.
  - rewrite sorted_candidates_ranks by eauto using from_lines_rank.
    apply sorted_keys_lt.
  - intros c (k & Hk)%elem_of_sorted_candidates.
    destruct (Hfrom k c Hk) as (line & i & _ & _ & _ & Hc).
    apply candidate_of_fields in Hc as (-> & -> & _). done.
Qed.

(** ** The claims about [_parse_analysis] *)

(** C1, as the code has it: the candidates come out in strictly increasing
    order of rank, so ranks are unique; the rank of a candidate is its own
    MultiPV index, not its position in the list; and the ranks present are
    exactly the indices for which some line gave a candidate, so an index
    whose lines never yield a parsed move is absent and the ranks around it
    keep their values. *)
Theorem parse_analysis_ranks fen info_lines bestmove_line pa :
  _parse_analysis fen info_lines bestmove_line = Ok pa ->
  StronglySorted Z.lt
    (MoveCandidate.rank <$> PositionAnalysis.candidates pa) /\
  (forall c, c ∈ PositionAnalysis.candidates pa ->
     MoveCandidate.rank c = MoveCandidate.multipv_index c) /\
  (forall k,
     k ∈ MoveCandidate.rank <$> PositionAnalysis.candidates pa <->
     exists board line i c,
       Board_of_fen chess fen = Some board /\ line ∈ info_lines /\
       read_info line = Some i /\ mpv_idx i = k /\
       candidate_of board i = Ok (Some c)).
Proof.
  intros Hpa. destruct (ranks_increasing _ _ _ _ Hpa) as [Hsorted Hown].
  apply parse_analysis_inv in Hpa
    as (board & a & Hb & Hloop & Hfrom & Hcs & _).
  split; [done|]. split; [done|]. rewrite Hcs. intros k; split.
  - intros (c & -> & (k' & Hk)%elem_of_sorted_candidates)%list_elem_of_fmap.
    destruct (Hfrom k' c Hk) as (line & i & Hin & Hi & Hidx & Hc).
    exists board, line, i, c. repeat split; try done.
    rewrite Hidx. symmetry. eauto using from_lines_rank.
  - intros (board' & line & i & c & Hb' & Hin & Hi & <- & Hc).
    assert (board' = board) as -> by congruence.
    destruct (for_each_stored board info_lines line i c acc0 a Hin Hi Hc Hloop)
      as [c' Hc'].
    apply list_elem_of_fmap. exists c'. split.
    + symmetry. eauto using from_lines_rank.
    + apply elem_of_sorted_candidates. eauto.
Qed.

(** C2, as the code has it: the candidate of a line keeps in [pv] every
    token of the variation text; only [pv_san] stops at the first move that
    is malformed or illegal on the scratch board, holding the notation of
    the [k] legal moves before it; a variation that is legal throughout
    gives as many notations as it has moves. *)
Theorem pv_san_truncated board line i c :
  read_info line = Some i ->
  candidate_of board i = Ok (Some c) ->
  (exists g, Re.pv_pattern line = Some g /\
             MoveCandidate.pv c = Str.split g) /\
  (forall pre bad post sans b',
     MoveCandidate.pv c = pre ++ bad :: post ->
     plays board pre sans b' ->
     unplayable b' bad ->
     MoveCandidate.pv_san c = sans /\
     length (MoveCandidate.pv_san c) = length pre) /\
  (forall sans b',
     plays board (MoveCandidate.pv c) sans b' ->
     MoveCandidate.pv_san c = sans /\
     length (MoveCandidate.pv_san c) = length (MoveCandidate.pv c)).
Proof.
  intros Hi Hc.
  apply candidate_of_fields in Hc as (_ & _ & _ & _ & _ & Hpv & Hhd & Hwalk).
  rewrite Hpv. split; [|split].
  - rewrite (read_info_pv line i Hi) in Hhd |- *.
    destruct (Re.pv_pattern line) as [g|]; [by exists g|done].
  - intros pre bad post sans b' Hsplit Hplays Hbad.
    rewrite Hsplit in Hwalk.
    rewrite (walk_pv_plays _ _ _ _ _ Hplays),
      (walk_pv_unplayable _ _ _ Hbad) in Hwalk.
    simpl in Hwalk. rewrite app_nil_r in Hwalk. injection Hwalk as <-.
    split; [done|]. by apply plays_length in Hplays.
  - intros sans b' Hplays.
    rewrite <- (app_nil_r (i_pv i)) in Hwalk.
    rewrite (walk_pv_plays _ _ _ _ _ Hplays) in Hwalk. simpl in Hwalk.
    rewrite app_nil_r in Hwalk. injection Hwalk as <-.
    split; [done|]. by apply plays_length in Hplays.
Qed.

(** C8, as the code has it: of the lines that share a MultiPV index, the
    last one that gives a candidate is the one that survives. When [line]
    gives [c] and no later line of the same index gives a candidate, the
    result holds exactly one candidate of that index, it is [c], and its
    fields are those read off [line]. *)
Theorem latest_stored_line_survives fen pre line post bestmove_line pa
    board i c :
  Board_of_fen chess fen = Some board ->
  read_info line = Some i ->
  candidate_of board i = Ok (Some c) ->
  (forall l j, l ∈ post -> read_info l = Some j -> mpv_idx j = mpv_idx i ->
     candidate_of board j = Ok None) ->
  _parse_analysis fen (pre ++ line :: post) bestmove_line = Ok pa ->
  filter (fun c' => MoveCandidate.multipv_index c' = mpv_idx i)
    (PositionAnalysis.candidates pa) = [c] /\
  head (i_pv i) = Some (MoveCandidate.move c) /\
  MoveCandidate.score_cp c = i_score_cp i /\
  MoveCandidate.depth c = i_depth i /\
  MoveCandidate.nodes c = i_nodes i /\
  MoveCandidate.pv c = i_pv i.
Proof.
  intros Hb Hi Hc Hpost Hpa.
  pose proof (ranks_increasing _ _ _ _ Hpa) as (Hsorted & Hidx).
  apply parse_analysis_inv in Hpa
    as (board' & a & Hb' & Hloop & _ & Hcs & _).
  assert (board' = board) as -> by congruence.
  pose proof (for_each_stores _ _ _ _ _ _ _ _ Hi Hc Hpost Hloop) as Hk.
  pose proof (candidate_of_fields _ _ _ Hc)
    as (Hrank & _ & Hcp & Hd & Hn & Hpv & Hhd & _).
  repeat split; try done.
  rewrite <- Hrank.
  rewrite <- (filter_rank_singleton (PositionAnalysis.candidates pa) c).
  - apply filter_ext_elem. intros c' Hc'. by rewrite (Hidx c' Hc').
  - by apply StronglySorted_lt_NoDup.
  - rewrite Hcs. apply elem_of_sorted_candidates. eauto.
Qed.

End WithOracles.
End ParserSpec.

(** * Properties of the adapter *)

Module AdapterSpec.
Import Adapter.
Local Open Scope list_scope.

(** ** The monad *)

Lemma bind_ok {A B} (m : M A) (k : A -> M B) s a s' :
  m s = (Done (Ok a), s') -> (m ≫= k) s = k a s'.
Proof. unfold mbind, M_bind, bind. by intros ->. Qed.

Lemma bind_raised {A B} (m : M A) (k : A -> M B) s e s' :
  m s = (Done (Raised e), s') -> (m ≫= k) s = (Done (Raised e), s').
Proof. unfold mbind, M_bind, bind. by intros ->. Qed.

Lemma bind_hangs {A B} (m : M A) (k : A -> M B) s s' :
  m s = (Hangs, s') -> (m ≫= k) s = (Hangs, s').
Proof. unfold mbind, M_bind, bind. by intros ->. Qed.

Lemma bind_get {B} (k : state -> M B) s : (get ≫= k) s = k s s.
Proof. done. Qed.

(** ** The driver *)

Lemma send_command_ok command s :
  _writer (self s) = true -> stdin_lost (child s) = false ->
  _send_command command s = (Done (Ok tt), emit (Write (command ++ Str.LF)%string) s).
Proof.
  intros Hw Hl. unfold _send_command. rewrite bind_get, Hw, Hl. done.
Qed.

Lemma send_command_lost command s :
  _writer (self s) = true -> stdin_lost (child s) = true ->
  _send_command command s = (Done (Raised ConnectionError), s).
Proof.
  intros Hw Hl. unfold _send_command. rewrite bind_get, Hw, Hl. done.
Qed.

Lemma read_line_line s text rest :
  _reader (self s) = true -> stdout (child s) = Bytes text :: rest ->
  _read_line s = (Done (Ok (Str.strip text)), with_stdout rest s).
Proof.
  intros Hr Hout. unfold _read_line, with_stdout. rewrite Hr, Hout. done.
Qed.

Lemma only_reads_refl s : only_reads s s.
Proof. by repeat split. Qed.

Lemma only_reads_trans s1 s2 s3 :
  only_reads s1 s2 -> only_reads s2 s3 -> only_reads s1 s3.
Proof.
  intros (? & ? & ? & ? & ? & ? & ?) (? & ? & ? & ? & ? & ? & ?).
  repeat split; congruence.
Qed.

Lemma read_line_frame s r s' :
  _read_line s = (r, s') ->
  (forall e, r = Done (Raised e) -> e <> TimeoutError) /\ only_reads s s'.
Proof.
  unfold _read_line. destruct (_reader (self s)); simpl.
  - destruct (stdout (child s)) as [|[text|] rest].
    + destruct (stdout_eof (child s)); intros [= <- <-];
        (split; [done|apply only_reads_refl]).
    + intros [= <- <-]. split; [done|]. by repeat split.
    + intros [= <- <-]. split; [by intros e [= <-]|]. by repeat split.
  - intros [= <- <-]. split; [by intros e [= <-]|apply only_reads_refl].
Qed.

Lemma wait_for_loop_frame expected n : forall lines s r s',
  wait_for_loop n expected lines s = (r, s') ->
  (forall e, r = Done (Raised e) -> e <> TimeoutError) /\ only_reads s s'.
Proof.
  induction n as [|n IH]; intros lines s r s'; simpl.
  - intros [= <- <-]. split; [done|apply only_reads_refl].
  - unfold mbind, M_bind, bind, ret.
    destruct (_read_line s) as [[[line|e]|] s1] eqn:Hread;
      apply read_line_frame in Hread as [Hne Hs1].
    + destruct (Str.startswith line expected).
      * intros [= <- <-]. by split.
      * intros [Hr Hs']%IH. split; [done|]. by eapply only_reads_trans.
    + intros [= <- <-]. split; [|done]. intros e' [= <-]. by apply Hne.
    + intros [= <- <-]. by split.
Qed.

Lemma read_until_bestmove_loop_frame n : forall info_lines s r s',
  read_until_bestmove_loop n info_lines s = (r, s') ->
  (forall e, r = Done (Raised e) -> e <> TimeoutError) /\ only_reads s s'.
Proof.
  induction n as [|n IH]; intros info_lines s r s'; simpl.
  - intros [= <- <-]. split; [done|apply only_reads_refl].
  - unfold mbind, M_bind, bind, ret.
    destruct (_read_line s) as [[[line|e]|] s1] eqn:Hread;
      apply read_line_frame in Hread as [Hne Hs1].
    + destruct (Str.startswith line "info" && Str.contains "pv" line).
      * intros [Hr Hs']%IH. split; [done|]. by eapply only_reads_trans.
      * destruct (Str.startswith line "bestmove").
        -- intros [= <- <-]. by split.
        -- intros [Hr Hs']%IH. split; [done|]. by eapply only_reads_trans.
    + intros [= <- <-]. split; [|done]. intros e' [= <-]. by apply Hne.
    + intros [= <- <-]. by split.
Qed.

(** The lines of [pre] and then [l] are pending, decodable, and [l] is the
    first that starts with [expected]: the loop returns them all. *)
Lemma wait_for_loop_returns expected pre : forall n lines s l post,
  _reader (self s) = true ->
  stdout (child s) = (Bytes <$> pre) ++ Bytes l :: post ->
  Forall (fun x => Str.startswith (Str.strip x) expected = false) pre ->
  Str.startswith (Str.strip l) expected = true ->
  (length pre < n)%nat ->
  wait_for_loop n expected lines s =
    (Done (Ok (lines ++ (Str.strip <$> pre) ++ [Str.strip l])),
     with_stdout post s).
Proof.
  induction pre as [|x pre IH]; intros n lines s l post Hr Hout Hpre Hl Hn;
    (destruct n as [|n]; [simpl in Hn; lia|]); simpl in Hn, Hout |- *.
  - erewrite bind_ok by (by apply read_line_line). by rewrite Hl.
  - erewrite bind_ok by (by apply read_line_line).
    apply Forall_cons in Hpre as [-> Hpre].
    rewrite (IH n _ _ l post); try done; [|lia].
    by rewrite <- app_assoc.
Qed.

Lemma read_until_bestmove_loop_returns pre : forall n info_lines s l post,
  _reader (self s) = true ->
  stdout (child s) = (Bytes <$> pre) ++ Bytes l :: post ->
  Forall (fun x => Str.startswith (Str.strip x) "bestmove" = false) pre ->
  Str.startswith (Str.strip l) "bestmove" = true ->
  (length pre < n)%nat ->
  read_until_bestmove_loop n info_lines s =
    (Done (Ok (info_lines ++
                 filter (fun x => Str.startswith x "info"
                                  && Str.contains "pv" x = true)
                   (Str.strip <$> pre),
               Str.strip l)),
     with_stdout post s).
Proof.
  induction pre as [|x pre IH]; intros n info_lines s l post Hr Hout Hpre Hl Hn;
    (destruct n as [|n]; [simpl in Hn; lia|]); simpl in Hn, Hout |- *.
  - erewrite bind_ok by (by apply read_line_line).
    rewrite Hl. rewrite app_nil_r.
    destruct (Str.startswith (Str.strip l) "info" && _) eqn:Hinfo; [|done].
    apply andb_prop in Hinfo as [Hinfo _]. exfalso.
    revert Hl Hinfo. unfold Str.startswith.
    by destruct (Str.strip l) as [|[[] [] [] [] [] [] [] []] ?].
  - erewrite bind_ok by (by apply read_line_line).
    apply Forall_cons in Hpre as [Hx Hpre]. rewrite filter_cons.
    destruct (Str.startswith (Str.strip x) "info" && _) eqn:Hinfo.
    + rewrite decide_True by done.
      rewrite (IH n _ _ l post); try done; [|lia]. by rewrite <- app_assoc.
    + rewrite decide_False by (by intros ?). rewrite Hx.
      rewrite (IH n _ _ l post); try done. lia.
Qed.

(** ** The budget of the loops

    Turns beyond the budget change nothing: at the end of the output a turn
    either hangs, raises, returns, or leaves the state as it found it. *)

Lemma wait_for_loop_at_end expected n : forall lines s,
  _reader (self s) = true ->
  stdout (child s) = [] ->
  Str.startswith EmptyString expected = false ->
  wait_for_loop n expected lines s = (Hangs, s).
Proof.
  induction n as [|n IH]; intros lines s Hr Hout Hempty; simpl; [done|].
  unfold mbind, M_bind, bind, _read_line. rewrite Hr, Hout. simpl.
  destruct (stdout_eof (child s)); [|done].
  rewrite Hempty. by apply IH.
Qed.

Lemma wait_for_loop_budget expected n : forall m lines s,
  (length (stdout (child s)) < n)%nat ->
  (length (stdout (child s)) < m)%nat ->
  wait_for_loop n expected lines s = wait_for_loop m expected lines s.
Proof.
  induction n as [|n IH]; intros m lines s Hn Hm; [lia|].
  destruct m as [|m]; [lia|]. simpl.
  unfold mbind, M_bind, bind, _read_line.
  destruct (negb (_reader (self s))) eqn:Hr; [done|].
  apply negb_false_iff in Hr.
  destruct (stdout (child s)) as [|[text|] rest] eqn:Hout; simpl in Hn, Hm.
  - destruct (stdout_eof (child s)); [|done].
    destruct (Str.startswith EmptyString expected) eqn:Hempty; [done|].
    by rewrite !wait_for_loop_at_end.
  - destruct (Str.startswith (Str.strip text) expected); [done|].
    apply IH; simpl; lia.
  - done.
Qed.

Lemma wait_for_budget expected s n :
  (budget s <= n)%nat ->
  wait_for_loop n expected [] s = _wait_for expected s.
Proof.
  intros Hn. unfold _wait_for. unfold budget in *.
  apply wait_for_loop_budget; lia.
Qed.

Lemma read_until_bestmove_loop_at_end n : forall info_lines s,
  _reader (self s) = true ->
  stdout (child s) = [] ->
  read_until_bestmove_loop n info_lines s = (Hangs, s).
Proof.
  induction n as [|n IH]; intros info_lines s Hr Hout; simpl; [done|].
  unfold mbind, M_bind, bind, _read_line. rewrite Hr, Hout. simpl.
  destruct (stdout_eof (child s)); [|done]. by apply IH.
Qed.

Lemma read_until_bestmove_loop_budget n : forall m info_lines s,
  (length (stdout (child s)) < n)%nat ->
  (length (stdout (child s)) < m)%nat ->
  read_until_bestmove_loop n info_lines s
  = read_until_bestmove_loop m info_lines s.
Proof.
  induction n as [|n IH]; intros m info_lines s Hn Hm; [lia|].
  destruct m as [|m]; [lia|]. simpl.
  unfold mbind, M_bind, bind, _read_line.
  destruct (negb (_reader (self s))) eqn:Hr; [done|].
  apply negb_false_iff in Hr.
  destruct (stdout (child s)) as [|[text|] rest] eqn:Hout; simpl in Hn, Hm.
  - destruct (stdout_eof (child s)); [|done]. simpl.
    by rewrite !read_until_bestmove_loop_at_end.
  - destruct (Str.startswith (Str.strip text) "info" && _).
    + apply IH; simpl; lia.
    + destruct (Str.startswith (Str.strip text) "bestmove"); [done|].
      apply IH; simpl; lia.
  - done.
Qed.

Lemma read_until_bestmove_budget s n :
  (budget s <= n)%nat ->
  read_until_bestmove_loop n [] s = _read_until_bestmove s.
Proof.
  intros Hn. unfold _read_until_bestmove. unfold budget in *.
  apply read_until_bestmove_loop_budget; lia.
Qed.

(** The pending lines are decodable, none starts with [expected], and the
    empty line read at the end of the stream does not either: the loop
    never returns. *)
Lemma wait_for_loop_hangs expected pre : forall n lines s,
  _reader (self s) = true ->
  stdout (child s) = Bytes <$> pre ->
  Forall (fun x => Str.startswith (Str.strip x) expected = false) pre ->
  Str.startswith EmptyString expected = false ->
  fst (wait_for_loop n expected lines s) = Hangs.
Proof.
  induction pre as [|x pre IH]; intros n lines s Hr Hout Hpre Hempty.
  - destruct n as [|n]; [done|]. simpl.
    unfold mbind, M_bind, bind, _read_line. rewrite Hr, Hout. simpl.
    destruct (stdout_eof (child s)); [|done].
    rewrite Hempty. revert lines.
    induction n as [|n IHn]; intros lines; [done|]. simpl.
    unfold mbind, M_bind, bind, _read_line. rewrite Hr, Hout. simpl.
    destruct (stdout_eof (child s)); [|done].
    rewrite Hempty. apply IHn.
  - destruct n as [|n]; [done|]. simpl.
    erewrite bind_ok by (by apply read_line_line).
    apply Forall_cons in Hpre as [-> Hpre].
    by apply IH.
Qed.

Lemma read_until_bestmove_loop_hangs pre : forall n info_lines s,
  _reader (self s) = true ->
  stdout (child s) = Bytes <$> pre ->
  Forall (fun x => Str.startswith (Str.strip x) "bestmove" = false) pre ->
  fst (read_until_bestmove_loop n info_lines s) = Hangs.
Proof.
  induction pre as [|x pre IH]; intros n info_lines s Hr Hout Hpre.
  - by rewrite read_until_bestmove_loop_at_end.
  - destruct n as [|n]; [done|]. simpl.
    erewrite bind_ok by (by apply read_line_line).
    apply Forall_cons in Hpre as [-> Hpre].
    destruct (Str.startswith (Str.strip x) "info" && _); by apply IH.
Qed.

(** The two loops as the adapter calls them. *)
Lemma wait_for_returns expected s pre l post :
  _reader (self s) = true ->
  stdout (child s) = (Bytes <$> pre) ++ Bytes l :: post ->
  Forall (fun x => Str.startswith (Str.strip x) expected = false) pre ->
  Str.startswith (Str.strip l) expected = true ->
  _wait_for expected s =
    (Done (Ok ((Str.strip <$> pre) ++ [Str.strip l])), with_stdout post s).
Proof.
  intros Hr Hout Hpre Hl. unfold _wait_for, budget.
  rewrite (wait_for_loop_returns expected pre _ [] s l post); try done.
  rewrite Hout, length_app, length_fmap. simpl. lia.
Qed.

(** ** The lock *)

Lemma with_lock_done {A} (body : M A) s r s' :
  _lock (self s) = false ->
  body (emit Acquire (set_lock true s)) = (Done r, s') ->
  with_lock body s = (Done r, emit Release (set_lock false s')).
Proof. unfold with_lock. by intros -> ->. Qed.

Lemma set_lock_release s :
  _lock (self s) = false -> self (set_lock false (set_lock true s)) = self s.
Proof. destruct s as [[] ? ? ?]; simpl. by intros ->. Qed.

(** ** The claims about the adapter *)

(** C3, as the code has it: the two sentinel waits take no deadline.
    Whatever they do, they never fail with a timeout, and they leave the
    adapter's fields, the log of commands and kills, and the child's status
    as they were. When the sentinel arrives, [_wait_for] returns every line
    read up to and including it, and [_read_until_bestmove] returns the
    sentinel with those earlier lines that start with "info" and contain
    "pv". When the output stops before the sentinel, neither returns. *)
Theorem sentinel_waits s expected :
  (forall r s', _wait_for expected s = (r, s') ->
     r <> Done (Raised TimeoutError) /\ only_reads s s') /\
  (forall r s', _read_until_bestmove s = (r, s') ->
     r <> Done (Raised TimeoutError) /\ only_reads s s') /\
  (forall pre l post,
     _reader (self s) = true ->
     stdout (child s) = (Bytes <$> pre) ++ Bytes l :: post ->
     Forall (fun x => Str.startswith (Str.strip x) expected = false) pre ->
     Str.startswith (Str.strip l) expected = true ->
     _wait_for expected s =
       (Done (Ok ((Str.strip <$> pre) ++ [Str.strip l])),
        with_stdout post s)) /\
  (forall pre l post,
     _reader (self s) = true ->
     stdout (child s) = (Bytes <$> pre) ++ Bytes l :: post ->
     Forall (fun x => Str.startswith (Str.strip x) "bestmove" = false) pre ->
     Str.startswith (Str.strip l) "bestmove" = true ->
     _read_until_bestmove s =
       (Done (Ok (filter (fun x => Str.startswith x "info"
                                   && Str.contains "pv" x = true)
                    (Str.strip <$> pre),
                  Str.strip l)),
        with_stdout post s)) /\
  (forall pre,
     _reader (self s) = true ->
     stdout (child s) = Bytes <$> pre ->
     Forall (fun x => Str.startswith (Str.strip x) expected = false) pre ->
     Str.startswith EmptyString expected = false ->
     fst (_wait_for expected s) = Hangs) /\
  (forall pre,
     _reader (self s) = true ->
     stdout (child s) = Bytes <$> pre ->
     Forall (fun x => Str.startswith (Str.strip x) "bestmove" = false) pre ->
     fst (_read_until_bestmove s) = Hangs).
Proof.
  unfold _wait_for, _read_until_bestmove, budget.
  split; [|split; [|split; [|split; [|split]]]].
  - intros r s' [Hne Hs]%wait_for_loop_frame. split; [|done].
    intros ->. by apply (Hne TimeoutError).
  - intros r s' [Hne Hs]%read_until_bestmove_loop_frame. split; [|done].
    intros ->. by apply (Hne TimeoutError).
  - intros pre l post Hr Hout Hpre Hl.
    unfold budget. fold (budget s). by apply wait_for_returns.
  - intros pre l post Hr Hout Hpre Hl.
    rewrite (read_until_bestmove_loop_returns pre _ [] s l post); try done.
    rewrite Hout, length_app, length_fmap. simpl. lia.
  - intros pre Hr Hout Hpre Hempty. by eapply wait_for_loop_hangs.
  - intros pre Hr Hout Hpre. by eapply read_until_bestmove_loop_hangs.
Qed.

(** The lines of [pre] are pending and decodable, none starts with
    [expected], and the next one does not decode: the loop raises. *)
Lemma wait_for_loop_undecodable expected pre : forall n lines s post,
  _reader (self s) = true ->
  stdout (child s) = (Bytes <$> pre) ++ Undecodable :: post ->
  Forall (fun x => Str.startswith (Str.strip x) expected = false) pre ->
  (length pre < n)%nat ->
  wait_for_loop n expected lines s =
    (Done (Raised UnicodeDecodeError), with_stdout post s).
Proof.
  induction pre as [|x pre IH]; intros n lines s post Hr Hout Hpre Hn;
    (destruct n as [|n]; [simpl in Hn; lia|]); simpl in Hn, Hout |- *.
  - apply bind_raised. unfold _read_line, with_stdout. by rewrite Hr, Hout.
  - erewrite bind_ok by (by apply read_line_line).
    apply Forall_cons in Hpre as [-> Hpre].
    rewrite (IH n _ _ post); try done. lia.
Qed.

Lemma wait_for_undecodable expected s pre post :
  _reader (self s) = true ->
  stdout (child s) = (Bytes <$> pre) ++ Undecodable :: post ->
  Forall (fun x => Str.startswith (Str.strip x) expected = false) pre ->
  _wait_for expected s = (Done (Raised UnicodeDecodeError), with_stdout post s).
Proof.
  intros Hr Hout Hpre. unfold _wait_for, budget.
  apply (wait_for_loop_undecodable expected pre); try done.
  rewrite Hout, length_app, length_fmap. simpl. lia.
Qed.

(** The probe of [is_ready], as it runs once the lock is taken. *)
Lemma is_ready_probe s :
  _is_ready (self s) = true ->
  _lock (self s) = false ->
  is_ready s =
  match (_send_command "isready" ;; _wait_for "readyok")
          (emit Acquire (set_lock true s)) with
  | (Done (Ok _), s') => (Done (Ok true), emit Release (set_lock false s'))
  | (Done (Raised e), s') =>
      (Done (Raised e), emit Release (set_lock false s'))
  | (Hangs, s') => (Hangs, s')
  end.
Proof.
  intros Hflag Hlock. unfold is_ready. rewrite bind_get, Hflag. simpl.
  unfold with_lock. rewrite Hlock.
  unfold mbind, M_bind, bind.
  destruct (_send_command _ _) as [[[[]|e]|] s1]; [|done..].
  by destruct (_wait_for _ _) as [[[lines|e]|] s2].
Qed.

(** C5, as the code has it: [is_ready] answers false, without touching the
    engine, for an adapter whose readiness flag is off (never started, or
    stopped). With the flag on it probes the engine under the lock, and the
    only value it can return is true: it does so when the engine answers
    "readyok". A failure of the probe is not turned into a result: whatever
    the write or the wait raises, [is_ready] raises, the lock released. So
    with a broken input pipe it raises the connection error and has written
    nothing; on an answer that does not decode it raises the decoding error
    after writing the probe; and when the output ends without a line that
    starts with "readyok" it does not return, and keeps the lock. *)
Theorem is_ready_cases s :
  (_is_ready (self s) = false -> is_ready s = (Done (Ok false), s)) /\
  (forall b s', is_ready s = (Done (Ok b), s') -> b = _is_ready (self s)) /\
  (forall pre l post,
     _is_ready (self s) = true ->
     _lock (self s) = false ->
     _writer (self s) = true ->
     _reader (self s) = true ->
     stdin_lost (child s) = false ->
     stdout (child s) = (Bytes <$> pre) ++ Bytes l :: post ->
     Forall (fun x => Str.startswith (Str.strip x) "readyok" = false) pre ->
     Str.startswith (Str.strip l) "readyok" = true ->
     exists s',
       is_ready s = (Done (Ok true), s') /\
       self s' = self s /\
       log s' = log s ++ [Acquire; Write ("isready" ++ Str.LF)%string; Release] /\
       stdout (child s') = post) /\
  (forall o s1,
     _is_ready (self s) = true ->
     _lock (self s) = false ->
     (_send_command "isready" ;; _wait_for "readyok")
       (emit Acquire (set_lock true s)) = (o, s1) ->
     match o with
     | Done (Ok _) =>
         is_ready s = (Done (Ok true), emit Release (set_lock false s1))
     | Done (Raised e) =>
         is_ready s = (Done (Raised e), emit Release (set_lock false s1))
     | Hangs => is_ready s = (Hangs, s1)
     end) /\
  (_is_ready (self s) = true ->
   _lock (self s) = false ->
   _writer (self s) = true ->
   stdin_lost (child s) = true ->
   exists s',
     is_ready s = (Done (Raised ConnectionError), s') /\
     self s' = self s /\
     child s' = child s /\
     log s' = log s ++ [Acquire; Release]) /\
  (forall pre post,
     _is_ready (self s) = true ->
     _lock (self s) = false ->
     _writer (self s) = true ->
     _reader (self s) = true ->
     stdin_lost (child s) = false ->
     stdout (child s) = (Bytes <$> pre) ++ Undecodable :: post ->
     Forall (fun x => Str.startswith (Str.strip x) "readyok" = false) pre ->
     exists s',
       is_ready s = (Done (Raised UnicodeDecodeError), s') /\
       self s' = self s /\
       log s' = log s ++ [Acquire; Write ("isready" ++ Str.LF)%string; Release] /\
       stdout (child s') = post) /\
  (forall pre,
     _is_ready (self s) = true ->
     _lock (self s) = false ->
     _writer (self s) = true ->
     _reader (self s) = true ->
     stdin_lost (child s) = false ->
     stdout (child s) = Bytes <$> pre ->
     Forall (fun x => Str.startswith (Str.strip x) "readyok" = false) pre ->
     exists s',
       is_ready s = (Hangs, s') /\
       _lock (self s') = true /\
       log s' = log s ++ [Acquire; Write ("isready" ++ Str.LF)%string]).
Proof.
  split; [|split; [|split; [|split; [|split; [|split]]]]].
  - unfold is_ready. rewrite bind_get. by intros ->.
  - intros b s'. unfold is_ready. rewrite bind_get.
    destruct (_is_ready (self s)); simpl.
    + unfold with_lock. destruct (_lock (self s)); [done|].
      unfold mbind, M_bind, bind.
      destruct (_send_command _ _) as [[[[]|e]|] s1]; [|done..].
      destruct (_wait_for _ _) as [[[lines|e]|] s2]; [|done..].
      by intros [= <- _].
    + by intros [= <- _].
  - intros pre l post Hflag Hlock Hw Hr Hlost Hout Hpre Hl.
    unfold is_ready. rewrite bind_get, Hflag. simpl.
    set (s1 := emit Acquire (set_lock true s)).
    set (s2 := emit (Write ("isready" ++ Str.LF)%string) s1).
    eexists. split; [|split; [|split]].
    + apply with_lock_done; [done|].
      erewrite bind_ok by (by apply send_command_ok).
      erewrite bind_ok; [done|].
      by apply (wait_for_returns "readyok" s2 pre l post).
    + simpl. by apply set_lock_release.
    + simpl. by rewrite <- !app_assoc.
    + done.
  - intros o s1 Hflag Hlock Hrun. rewrite is_ready_probe by done.
    rewrite Hrun. by destruct o as [[?|?]|].
  - intros Hflag Hlock Hw Hlost. rewrite is_ready_probe by done.
    erewrite bind_raised by (by apply send_command_lost).
    eexists. split; [done|]. split; [|split].
    + simpl. by apply set_lock_release.
    + done.
    + simpl. by rewrite <- !app_assoc.
  - intros pre post Hflag Hlock Hw Hr Hlost Hout Hpre.
    rewrite is_ready_probe by done.
    erewrite bind_ok by (by apply send_command_ok).
    rewrite (wait_for_undecodable "readyok" _ pre post) by done.
    eexists. split; [done|]. split; [|split].
    + simpl. by apply set_lock_release.
    + simpl. by rewrite <- !app_assoc.
    + done.
  - intros pre Hflag Hlock Hw Hr Hlost Hout Hpre.
    rewrite is_ready_probe by done.
    erewrite bind_ok by (by apply send_command_ok).
    pose proof (wait_for_loop_hangs "readyok" pre
                  (budget (emit (Write ("isready" ++ Str.LF)%string)
                             (emit Acquire (set_lock true s)))) []
                  (emit (Write ("isready" ++ Str.LF)%string)
                     (emit Acquire (set_lock true s)))
                  Hr Hout Hpre eq_refl) as Hh.
    fold (_wait_for "readyok"
            (emit (Write ("isready" ++ Str.LF)%string)
               (emit Acquire (set_lock true s)))) in Hh.
    destruct (_wait_for "readyok" _) as [o s3] eqn:Hwait.
    simpl in Hh. subst o.
    apply wait_for_loop_frame in Hwait as [_ (Hself & Hlog & _)].
    exists s3. split; [done|]. split.
    + by rewrite Hself.
    + rewrite Hlog. simpl. by rewrite <- !app_assoc.
Qed.

(** The paths of [stop] that reach its last four lines. Without a process
    handle [stop] does nothing. With one, and an input pipe that still takes
    the quit command, it writes "quit", waits out the grace period, kills
    the child if it has not exited by then, clears the three handles and
    the readiness flag, and a second [stop] right after does nothing. *)
Lemma stop_cases s :
  (_process (self s) = false -> stop s = (Done (Ok tt), s)) /\
  (_process (self s) = true ->
   _writer (self s) = true ->
   stdin_lost (child s) = false ->
   exists s',
     stop s = (Done (Ok tt), s') /\
     _process (self s') = false /\
     _reader (self s') = false /\
     _writer (self s') = false /\
     _is_ready (self s') = false /\
     exited (child s') = true /\
     log s' = log s ++ Write ("quit" ++ Str.LF)%string ::
                (if exited (child s) || exits_in_grace (child s) then []
                 else [Kill]) /\
     stop s' = (Done (Ok tt), s')).
Proof.
  unfold stop at 1 2. rewrite bind_get. split.
  - by intros ->.
  - intros Hp Hw Hlost. rewrite Hp. simpl.
    erewrite bind_ok by (by apply send_command_ok).
    unfold mbind, M_bind, bind, except_timeout, wait_with_grace, kill_and_wait,
      modify. simpl.
    destruct (exited (child s) || exits_in_grace (child s));
      (eexists; split; [done|]); simpl; repeat split; try done;
      by rewrite <- app_assoc.
Qed.

(** C10: on an adapter whose readiness flag is off, [analyze_position]
    takes the lock, raises its [RuntimeError] and releases the lock; it
    writes nothing to the engine and leaves every field of the adapter and
    the child as they were. *)
Theorem analyze_position_not_ready chess wdl_floats fen nodes depth time_ms
    num_moves s :
  _is_ready (self s) = false ->
  _lock (self s) = false ->
  exists s',
    analyze_position chess wdl_floats fen nodes depth time_ms num_moves s =
      (Done (Raised (RuntimeError "Stockfish non pronto, chiamare start() prima")),
       s') /\
    self s' = self s /\
    child s' = child s /\
    spawns s' = spawns s /\
    log s' = log s ++ [Acquire; Release] /\
    written s' = written s.
Proof.
  intros Hflag Hlock. unfold analyze_position.
  eexists. split; [|split; [|split; [|split; [|split]]]].
  - apply with_lock_done; [done|]. rewrite bind_get. simpl. by rewrite Hflag.
  - simpl. by apply set_lock_release.
  - done.
  - done.
  - simpl. by rewrite <- app_assoc.
  - unfold written. simpl. rewrite <- app_assoc, omap_app. simpl.
    by rewrite app_nil_r.
Qed.

End AdapterSpec.

(** * The claims on concrete engine output *)

Module Examples.
Import Adapter Scenario.
Local Open Scope list_scope.

(** ** The parser *)

(** The scenario of the specification: one line for the starting position
    gives one candidate. *)
Example one_candidate :
  exists c pa,
    Opening._parse_analysis Opening.STARTING_FEN
      ["info depth 10 multipv 1 score cp 35 nodes 50000 time 120 nps 400000 pv e2e4 e7e5"]
      "bestmove e2e4" = Ok pa /\
    PositionAnalysis.candidates pa = [c] /\
    MoveCandidate.move c = "e2e4" /\ MoveCandidate.move_san c = "e4" /\
    MoveCandidate.score_cp c = 35 /\ MoveCandidate.depth c = 10 /\
    MoveCandidate.rank c = 1.
Proof. eexists _, _. vm_compute. repeat split. Qed.

(** C1 fails as stated: the second of three candidates has a malformed move
    and is dropped, and the two that remain keep ranks 1 and 3. *)
Lemma ranks_keep_gaps :
  exists pa,
    Opening._parse_analysis Opening.STARTING_FEN gap_lines "bestmove e2e4"
      = Ok pa /\
    MoveCandidate.rank <$> PositionAnalysis.candidates pa = [1; 3] /\
    MoveCandidate.rank <$> PositionAnalysis.candidates pa
      <> seqZ 1 (Z.of_nat (length (PositionAnalysis.candidates pa))).
Proof. eexists. split; [vm_compute; reflexivity|]. split; [done|]. by vm_compute. Qed.

Lemma parse_analysis_ranks_witness :
  exists pa,
    Opening._parse_analysis Opening.STARTING_FEN gap_lines "bestmove e2e4"
      = Ok pa /\
    StronglySorted Z.lt
      (MoveCandidate.rank <$> PositionAnalysis.candidates pa) /\
    (forall c, c ∈ PositionAnalysis.candidates pa ->
       MoveCandidate.rank c = MoveCandidate.multipv_index c) /\
    (forall k,
       k ∈ MoveCandidate.rank <$> PositionAnalysis.candidates pa <->
       exists board line i c,
         Board_of_fen Opening.chess Opening.STARTING_FEN = Some board /\
         line ∈ gap_lines /\
         Parser.read_info line = Some i /\ Parser.mpv_idx i = k /\
         Parser.candidate_of Opening.chess Opening.wdl_floats board i
           = Ok (Some c)).
Proof.
  eexists. split; [vm_compute; reflexivity|].
  apply (ParserSpec.parse_analysis_ranks Opening.chess Opening.wdl_floats
           Opening.STARTING_FEN gap_lines "bestmove e2e4").
  vm_compute. reflexivity.
Defined.

(** C2 fails as stated: the second move of the variation is illegal, the
    notation stops after one move, and [pv] still holds the three tokens. *)
Lemma pv_is_not_truncated :
  exists c pa,
    Opening._parse_analysis Opening.STARTING_FEN [broken_line] "bestmove e2e4"
      = Ok pa /\
    PositionAnalysis.candidates pa = [c] /\
    Parser.unplayable Opening.chess ["e2e4"] "e2e4" /\
    MoveCandidate.pv_san c = ["e4"] /\
    MoveCandidate.pv c = ["e2e4"; "e2e4"; "e7e5"] /\
    length (MoveCandidate.pv c) <> 1%nat.
Proof. eexists _, _. vm_compute. repeat split; done. Qed.

Lemma pv_san_truncated_witness :
  exists i c,
    Parser.read_info broken_line = Some i /\
    Parser.candidate_of Opening.chess Opening.wdl_floats [] i = Ok (Some c) /\
    (MoveCandidate.pv_san c = ["e4"] /\
     length (MoveCandidate.pv_san c) = length ["e2e4"]).
Proof.
  eexists _, _. split; [vm_compute; reflexivity|].
  split; [vm_compute; reflexivity|].
  refine (proj1 (proj2 (ParserSpec.pv_san_truncated Opening.chess
            Opening.wdl_floats [] broken_line _ _ _ _))
            ["e2e4"] "e2e4" ["e7e5"] ["e4"] ["e2e4"] _ _ _).
  - vm_compute; reflexivity.
  - vm_compute; reflexivity.
  - reflexivity.
  - eapply Parser.plays_cons; [reflexivity..|]. apply Parser.plays_nil.
  - vm_compute; reflexivity.
Defined.

(** A variation that is legal throughout: three moves, three notations. *)
Example legal_variation :
  exists i c,
    Parser.read_info legal_line = Some i /\
    Parser.candidate_of Opening.chess Opening.wdl_floats [] i = Ok (Some c) /\
    MoveCandidate.pv_san c = ["e4"; "e5"; "Nf3"].
Proof. eexists _, _. vm_compute. repeat split. Qed.

(** C8 fails as stated: the later line for index 1 has no variation and
    stores nothing, so the candidate keeps the content of the earlier line
    (depth 10, 35 centipawns), not that of the latest (depth 12, 40). *)
Lemma earlier_line_survives :
  exists c pa i,
    Opening._parse_analysis Opening.STARTING_FEN [first_report; bare_report]
      "bestmove e2e4" = Ok pa /\
    PositionAnalysis.candidates pa = [c] /\
    Parser.read_info bare_report = Some i /\
    Parser.mpv_idx i = 1 /\ MoveCandidate.multipv_index c = 1 /\
    Parser.i_depth i = 12 /\ MoveCandidate.depth c = 10 /\
    Parser.i_score_cp i = 40 /\ MoveCandidate.score_cp c = 35 /\
    Parser.i_nodes i = 90000 /\ MoveCandidate.nodes c = 50000.
Proof. eexists _, _, _. vm_compute. repeat split. Qed.

Lemma latest_stored_line_survives_witness :
  exists i c pa,
    Parser.read_info first_report = Some i /\
    Opening._parse_analysis Opening.STARTING_FEN
      ([other_report] ++ first_report :: [bare_report]) "bestmove e2e4"
      = Ok pa /\
    (filter (fun c' => MoveCandidate.multipv_index c' = Parser.mpv_idx i)
       (PositionAnalysis.candidates pa) = [c] /\
     head (Parser.i_pv i) = Some (MoveCandidate.move c) /\
     MoveCandidate.score_cp c = Parser.i_score_cp i /\
     MoveCandidate.depth c = Parser.i_depth i /\
     MoveCandidate.nodes c = Parser.i_nodes i /\
     MoveCandidate.pv c = Parser.i_pv i).
Proof.
  eexists _, _, _. split; [vm_compute; reflexivity|].
  split; [vm_compute; reflexivity|].
  refine (ParserSpec.latest_stored_line_survives Opening.chess
            Opening.wdl_floats Opening.STARTING_FEN [other_report]
            first_report [bare_report] "bestmove e2e4" _ [] _ _ _ _ _ _ _).
  - vm_compute; reflexivity.
  - vm_compute; reflexivity.
  - vm_compute; reflexivity.
  - intros l j ->%list_elem_of_singleton [= <-] _. vm_compute; reflexivity.
  - vm_compute; reflexivity.
Defined.

(** The evaluation is that of the first candidate of the list, whatever
    its rank: here the only candidate has rank 2. *)
Example evaluation_without_rank_one :
  exists c pa,
    Opening._parse_analysis Opening.STARTING_FEN second_only "bestmove d2d4"
      = Ok pa /\
    PositionAnalysis.candidates pa = [c] /\
    MoveCandidate.rank c = 2 /\
    PositionAnalysis.evaluation_cp pa = 30 /\
    PositionAnalysis.evaluation_wdl pa = MoveCandidate.score_wdl c.
Proof. eexists _, _. split; [vm_compute; reflexivity|]. by repeat split. Qed.

(** A FEN the board constructor rejects: the parser raises, with or without
    lines to read. *)
Example rejected_fen :
  Opening._parse_analysis no_fen [] "bestmove 0000" = Raised ValueError.
Proof. reflexivity. Qed.

(** C9 fails on the code. A line that gives no candidate is meant to be
    passed over: a first move that is not a UCI move is skipped by the
    handler of lines 297-301, the parser returns without candidates and
    with the neutral evaluation, and an illegal move later in a variation
    only ends the notation. But the handler catches [ValueError] alone, and
    the first move is not tested for legality as the later ones are: for a
    first move that is a UCI move and starts on an empty square, [san]
    fails its assertion, the [AssertionError] leaves the loop, and the
    parser raises instead of returning, also when another line has already
    given a candidate. *)
Theorem first_move_assertion_escapes :
  (exists pa,
     Asserting._parse_analysis Opening.STARTING_FEN unparsed "bestmove 0000"
       = Ok pa /\
     PositionAnalysis.candidates pa = [] /\
     PositionAnalysis.evaluation_cp pa = 0 /\
     PositionAnalysis.evaluation_wdl pa = (333, 334, 333)) /\
  (exists pa c,
     Asserting._parse_analysis Opening.STARTING_FEN [broken_line]
       "bestmove e2e4" = Ok pa /\
     PositionAnalysis.candidates pa = [c] /\
     MoveCandidate.pv_san c = ["e4"%string]) /\
  from_uci Asserting.chess "e4e5" = Some "e4e5"%string /\
  is_legal Asserting.chess [] "e4e5"%string = false /\
  san Asserting.chess [] "e4e5"%string = Raised AssertionError /\
  Asserting._parse_analysis Opening.STARTING_FEN
    [Asserting.empty_square_line] "bestmove e4e5" = Raised AssertionError /\
  Asserting._parse_analysis Opening.STARTING_FEN
    [first_report; Asserting.empty_square_line] "bestmove e2e4"
    = Raised AssertionError.
Proof.
  split; [eexists; split; [vm_compute; reflexivity|]; by repeat split|].
  split; [eexists _, _; split; [vm_compute; reflexivity|]; by repeat split|].
  repeat split; vm_compute; reflexivity.
Qed.

(** ** The adapter *)

(** C3 fails as stated: the engine names itself and falls silent; the wait
    for "uciok" neither returns nor fails, and so does [start] around it.
    And [_read_until_bestmove] gives back only the lines it keeps: the
    "info string" line read before the sentinel is not among them. *)
Lemma wait_without_deadline :
  let s := awaiting_uciok [Bytes "id name Stockfish 16"] in
  fst (_wait_for "uciok" s) = Hangs /\
  fst (_wait_for "uciok" s) <> Done (Raised TimeoutError) /\
  fst (start (fresh (engine [Bytes "id name Stockfish 16"]))) = Hangs /\
  fst (_read_until_bestmove (started search_output)) =
    Done (Ok (["info depth 10 multipv 1 score cp 35 nodes 50000 time 120 nps 400000 pv e2e4 e7e5"],
              "bestmove e2e4 ponder e7e5")).
Proof. vm_compute. repeat split; done. Qed.

Lemma sentinel_waits_witness :
  _wait_for "uciok" (awaiting_uciok handshake) =
    (Done (Ok ["Stockfish 16 by the Stockfish developers";
               "id name Stockfish 16"; "uciok"]),
     with_stdout [Bytes "readyok"] (awaiting_uciok handshake)).
Proof.
  refine (proj1 (proj2 (proj2 (AdapterSpec.sentinel_waits
            (awaiting_uciok handshake) "uciok")))
            ["Stockfish 16 by the Stockfish developers"; "id name Stockfish 16"]
            "uciok" [Bytes "readyok"] _ _ _ _).
  - reflexivity.
  - reflexivity.
  - repeat constructor.
  - reflexivity.
Defined.

(** C4 fails on the code. The adapter is configured for ten candidates and
    asked for three. When the search output decodes, the last command
    written puts MultiPV back to 10. When a line of the output does not
    decode, the call raises after writing the command that sets 3, the
    position and the search: nothing puts MultiPV back, and the engine is
    still running. *)
Theorem multipv_not_restored_after_read_error :
  let ok := started search_output in
  let bad := started garbled_output in
  _is_ready (self bad) = true /\
  multipv (config (self bad)) = 10 /\
  (exists pa s',
     analyze_position Opening.STARTING_FEN None None None (Some 3) ok
       = (Done (Ok pa), s') /\
     written s' = written ok ++
       commands ["setoption name MultiPV value 3";
                 ("position fen " ++ Opening.STARTING_FEN)%string;
                 "go depth 20";
                 "setoption name MultiPV value 10"]) /\
  (exists s' s'',
     analyze_position Opening.STARTING_FEN None None None (Some 3) bad
       = (Done (Raised UnicodeDecodeError), s') /\
     written s' = written bad ++
       commands ["setoption name MultiPV value 3";
                 ("position fen " ++ Opening.STARTING_FEN)%string;
                 "go depth 20"] /\
     is_running s' = true /\
     _is_ready (self s') = true /\
     _lock (self s') = false /\
     snd (analyze_position Opening.STARTING_FEN None None None (Some 10) s')
       = s'' /\
     written s'' = written s' ++
       commands [("position fen " ++ Opening.STARTING_FEN)%string;
                 "go depth 20"]).
Proof.
  cbv zeta. split; [reflexivity|]. split; [reflexivity|]. split.
  - eexists _, _. split; vm_compute; reflexivity.
  - eexists _, _.
    split; [vm_compute; reflexivity|]. split; [vm_compute; reflexivity|].
    split; [reflexivity|]. split; [reflexivity|]. split; [reflexivity|].
    split; vm_compute; reflexivity.
Qed.

(** C5 fails as stated: the engine of a ready adapter dies; the probe
    cannot be written and [is_ready] raises. And when the engine lives but
    does not answer, [is_ready] does not return. *)
Lemma is_ready_raises :
  _is_ready (self (crash (started []))) = true /\
  fst (is_ready (crash (started []))) = Done (Raised ConnectionError) /\
  fst (is_ready (started [])) = Hangs.
Proof. vm_compute. repeat split. Qed.

Lemma is_ready_cases_witness :
  is_ready (fresh (engine handshake))
    = (Done (Ok false), fresh (engine handshake)) /\
  (exists s',
     is_ready (started [Bytes "readyok"]) = (Done (Ok true), s') /\
     self s' = self (started [Bytes "readyok"]) /\
     log s' = log (started [Bytes "readyok"])
              ++ [Acquire; Write ("isready" ++ Str.LF)%string; Release] /\
     stdout (child s') = []) /\
  (exists s',
     is_ready (crash (started [])) = (Done (Raised ConnectionError), s') /\
     self s' = self (crash (started [])) /\
     child s' = child (crash (started [])) /\
     log s' = log (crash (started [])) ++ [Acquire; Release]) /\
  (exists s',
     is_ready (started [Undecodable; Bytes "readyok"])
       = (Done (Raised UnicodeDecodeError), s') /\
     self s' = self (started [Undecodable; Bytes "readyok"]) /\
     log s' = log (started [Undecodable; Bytes "readyok"])
              ++ [Acquire; Write ("isready" ++ Str.LF)%string; Release] /\
     stdout (child s') = [Bytes "readyok"]) /\
  (exists s',
     is_ready (started [Bytes "info string idle"]) = (Hangs, s') /\
     _lock (self s') = true /\
     log s' = log (started [Bytes "info string idle"])
              ++ [Acquire; Write ("isready" ++ Str.LF)%string]).
Proof.
  split; [|split; [|split; [|split]]].
  - apply (proj1 (AdapterSpec.is_ready_cases (fresh (engine handshake)))).
    reflexivity.
  - apply (proj1 (proj2 (proj2 (AdapterSpec.is_ready_cases
             (started [Bytes "readyok"])))) [] "readyok" []);
      try reflexivity.
    constructor.
  - apply (proj1 (proj2 (proj2 (proj2 (proj2 (AdapterSpec.is_ready_cases
             (crash (started []))))))));
      reflexivity.
  - apply (proj1 (proj2 (proj2 (proj2 (proj2 (proj2 (AdapterSpec.is_ready_cases
             (started [Undecodable; Bytes "readyok"]))))))) [] [Bytes "readyok"]);
      try reflexivity.
    constructor.
  - apply (proj2 (proj2 (proj2 (proj2 (proj2 (proj2 (AdapterSpec.is_ready_cases
             (started [Bytes "info string idle"]))))))) ["info string idle"%string]);
      try reflexivity.
    repeat constructor.
Defined.

(** C6 fails on the code. On the graceful path and on the forced one
    [stop] ends with the four assignments that clear the handles and the
    readiness flag. The quit command before them is written outside any
    [try]: when the engine has died the write raises, [stop] raises with
    it, and the clean-up is never reached. The handles and the flag stay
    set on a process that has exited, a second [stop] raises again, and so
    does every [start], which begins with this [stop]: the adapter can
    neither be stopped nor started again. *)
Theorem stop_skips_cleanup_when_quit_fails :
  (exists s',
     stop (started []) = (Done (Ok tt), s') /\
     _process (self s') = false /\ _reader (self s') = false /\
     _writer (self s') = false /\ _is_ready (self s') = false /\
     log s' = log (started []) ++ [Write ("quit" ++ Str.LF)%string] /\
     stop s' = (Done (Ok tt), s')) /\
  (exists s',
     stop started_stubborn = (Done (Ok tt), s') /\
     _process (self s') = false /\ _reader (self s') = false /\
     _writer (self s') = false /\ _is_ready (self s') = false /\
     log s' = log started_stubborn
              ++ [Write ("quit" ++ Str.LF)%string; Kill] /\
     stop s' = (Done (Ok tt), s')) /\
  exited (child (crash (started []))) = true /\
  stop (crash (started []))
    = (Done (Raised ConnectionError), crash (started [])) /\
  _process (self (snd (stop (crash (started []))))) = true /\
  _reader (self (snd (stop (crash (started []))))) = true /\
  _writer (self (snd (stop (crash (started []))))) = true /\
  _is_ready (self (snd (stop (crash (started []))))) = true /\
  stop (snd (stop (crash (started []))))
    = (Done (Raised ConnectionError), crash (started [])) /\
  start (snd (stop (crash (started []))))
    = (Done (Raised ConnectionError), crash (started [])).
Proof.
  split; [eexists; split; [vm_compute; reflexivity|]; by repeat split|].
  split; [eexists; split; [vm_compute; reflexivity|]; by repeat split|].
  repeat split; vm_compute; reflexivity.
Qed.

Example stop_cases_at_work :
  stop (fresh (engine handshake)) = (Done (Ok tt), fresh (engine handshake)) /\
  exists s',
    stop started_stubborn = (Done (Ok tt), s') /\
    _process (self s') = false /\
    _reader (self s') = false /\
    _writer (self s') = false /\
    _is_ready (self s') = false /\
    exited (child s') = true /\
    log s' = log started_stubborn
             ++ Write ("quit" ++ Str.LF)%string ::
                (if exited (child started_stubborn)
                    || exits_in_grace (child started_stubborn)
                 then [] else [Kill]) /\
    stop s' = (Done (Ok tt), s').
Proof.
  split.
  - apply (proj1 (AdapterSpec.stop_cases (fresh (engine handshake)))).
    reflexivity.
  - apply (proj2 (AdapterSpec.stop_cases started_stubborn)); reflexivity.
Qed.

(** The engine that ignores "quit" is killed. *)
Example stubborn_engine_is_killed :
  written (snd (stop started_stubborn))
    = written started_stubborn ++ commands ["quit"] /\
  last (log (snd (stop started_stubborn))) = Some Kill.
Proof. vm_compute. by split. Qed.

Lemma analyze_position_not_ready_witness :
  exists s',
    analyze_position Opening.STARTING_FEN None (Some 20) None (Some 3)
      (fresh (engine handshake))
    = (Done (Raised (RuntimeError "Stockfish non pronto, chiamare start() prima")),
       s') /\
    self s' = self (fresh (engine handshake)) /\
    child s' = child (fresh (engine handshake)) /\
    spawns s' = spawns (fresh (engine handshake)) /\
    log s' = log (fresh (engine handshake)) ++ [Acquire; Release] /\
    written s' = written (fresh (engine handshake)).
Proof.
  apply (AdapterSpec.analyze_position_not_ready Opening.chess
           Opening.wdl_floats); reflexivity.
Defined.

(** The same after a [stop]. *)
Example analyze_after_stop :
  fst (analyze_position Opening.STARTING_FEN None (Some 20) None None
         (snd (stop (started []))))
  = Done (Raised (RuntimeError "Stockfish non pronto, chiamare start() prima")).
Proof. reflexivity. Qed.

End Examples.

(** * Further properties of the parser *)

Module ParserMore.
Import Parser Vocabulary.
Local Open Scope list_scope.

(** ** Numbers read by the regular expressions *)

Lemma int_digits_span_nonneg s : forall acc,
  0 <= acc -> 0 <= Str.int_digits acc (fst (Str.span Str.isdigit s)).
Proof.
  induction s as [|c s IH]; intros acc Hacc; simpl; [done|].
  destruct (Str.isdigit c) eqn:Hc; [|done].
  destruct (Str.span Str.isdigit s) as [run rest]. simpl in *.
  apply IH. unfold Str.isdigit in Hc. unfold Str.digit_value.
  apply andb_prop in Hc as [Hlo%N.leb_le _]. lia.
Qed.

Lemma digits_nonneg s n : Re.digits s = Some n -> 0 <= n.
Proof.
  unfold Re.digits. pose proof (int_digits_span_nonneg s 0 ltac:(lia)) as H.
  destruct (Str.span Str.isdigit s) as [[|c run] rest]; [done|].
  by intros [= <-].
Qed.

Lemma search_some {A} (m : string -> option A) s a :
  Re.search m s = Some a -> exists t, m t = Some a.
Proof.
  induction s as [|c s IH]; simpl.
  - destruct (m EmptyString) eqn:Hm; [|done]. intros [= <-]. eauto.
  - destruct (m (String c s)) eqn:Hm; [intros [= <-]; eauto|]. apply IH.
Qed.

Lemma search_digits_nonneg lit s n :
  Re.search (Re.lit_then lit Re.digits) s = Some n -> 0 <= n.
Proof.
  intros [t Ht]%search_some. unfold Re.lit_then in Ht.
  destruct (Str.after lit t); [|done]. by eapply digits_nonneg.
Qed.

Lemma default_digits_nonneg lit s :
  0 <= default 0 (Re.search (Re.lit_then lit Re.digits) s).
Proof.
  destruct (Re.search _ s) as [n|] eqn:H; simpl; [|done].
  by eapply search_digits_nonneg.
Qed.

Lemma read_info_nonneg line i :
  read_info line = Some i ->
  0 <= mpv_idx i /\ 0 <= i_depth i /\ 0 <= i_seldepth i /\ 0 <= i_nodes i /\
  (forall t, i_time i = Some t -> 0 <= t) /\
  (forall n, i_nps i = Some n -> 0 <= n).
Proof.
  unfold read_info. destruct (negb _); [done|].
  destruct (Re.multipv_pattern line) as [idx|] eqn:Hidx; [|done].
  intros [= <-]. simpl.
  repeat split; try apply default_digits_nonneg.
  - by eapply search_digits_nonneg.
  - intros t. apply search_digits_nonneg.
  - intros n. apply search_digits_nonneg.
Qed.

(** ** Tokens of a variation *)

Lemma no_blank_app s c :
  no_blank s -> Str.isspace c = false ->
  no_blank (s ++ String c EmptyString)%string.
Proof.
  induction s as [|a s IH]; simpl; [done|].
  intros [Ha Hs] Hc. split; [done|]. by apply IH.
Qed.

Lemma app_not_empty s c : (s ++ String c EmptyString)%string <> EmptyString.
Proof. by destruct s. Qed.

Lemma split_from_tokens s : forall tok x,
  no_blank tok ->
  x ∈ Str.split_from tok s -> x <> EmptyString /\ no_blank x.
Proof.
  induction s as [|c s IH]; intros tok x Htok; simpl.
  - destruct tok; simpl; [by intros ?%elem_of_nil|].
    by intros ->%list_elem_of_singleton.
  - destruct (Str.isspace c) eqn:Hc.
    + intros [Hx|Hx]%elem_of_app.
      * destruct tok; simpl in Hx; [by apply elem_of_nil in Hx|].
        by apply list_elem_of_singleton in Hx as ->.
      * by apply (IH EmptyString).
    + apply IH. by apply no_blank_app.
Qed.

Lemma split_tokens s x :
  x ∈ Str.split s -> x <> EmptyString /\ no_blank x.
Proof. by apply split_from_tokens. Qed.

(** ** Substrings *)

Lemma prefix_cons a p b s :
  String.prefix (String a p) (String b s) = true ->
  a = b /\ String.prefix p s = true.
Proof. simpl. by destruct (ascii_dec a b). Qed.

Lemma contains_cons p c s :
  Str.contains p s = true -> Str.contains p (String c s) = true.
Proof. intros H. simpl. rewrite H. apply orb_true_r. Qed.

Lemma contains_prefix p s :
  String.prefix p s = true -> Str.contains p s = true.
Proof. intros H. destruct s; cbn [Str.contains]; by rewrite H. Qed.

(** A string that contains "multipv" contains "pv". *)
Lemma contains_multipv_pv s :
  Str.contains "multipv" s = true -> Str.contains "pv" s = true.
Proof.
  induction s as [|c s IH]; intros H; cbn [Str.contains] in H.
  - by cbn in H.
  - apply orb_true_iff in H as [H|H]; [|by apply contains_cons, IH].
    apply prefix_cons in H as [_ H].
    destruct s as [|c1 s]; [by cbn in H|]. apply prefix_cons in H as [_ H].
    destruct s as [|c2 s]; [by cbn in H|]. apply prefix_cons in H as [_ H].
    destruct s as [|c3 s]; [by cbn in H|]. apply prefix_cons in H as [_ H].
    destruct s as [|c4 s]; [by cbn in H|]. apply prefix_cons in H as [_ H].
    do 5 apply contains_cons. by apply contains_prefix.
Qed.

Lemma is_read_contains line : is_read line -> Str.contains "multipv" line = true.
Proof.
  intros [i Hi]. unfold read_info in Hi.
  by destruct (Str.contains "multipv" line).
Qed.

(** The driver keeps every line that starts with "info" and that the parser
    reads. *)
Lemma is_read_kept line : is_info line -> is_read line -> is_kept line.
Proof.
  unfold is_info, is_kept. intros -> Hread. simpl.
  by apply contains_multipv_pv, is_read_contains.
Qed.

Section WithOracles.

Context (chess : PyChess) (wdl_floats : Z -> option (Z * Z)).

Local Abbreviation candidate_of := (candidate_of chess wdl_floats).
Local Abbreviation parse_line := (parse_line chess wdl_floats).
Local Abbreviation _parse_analysis := (_parse_analysis chess wdl_floats).
Local Abbreviation walk_pv := (walk_pv chess).
Local Abbreviation from_lines := (from_lines chess wdl_floats).

(** ** One turn of the loop, with its telemetry *)

Lemma parse_line_step board a line a' :
  parse_line board a line = Ok a' ->
  (read_info line = None /\ a' = a) \/
  (exists i, read_info line = Some i /\
     total_nodes a' = Z.max (total_nodes a) (i_nodes i) /\
     max_depth a' = Z.max (max_depth a) (i_depth i) /\
     max_seldepth a' = Z.max (max_seldepth a) (i_seldepth i) /\
     time_ms a' = match i_time i with
                  | Some t => Z.max (time_ms a) t
                  | None => time_ms a
                  end /\
     nps a' = match i_nps i with
              | Some n => Z.max (nps a) n
              | None => nps a
              end).
Proof.
  unfold Parser.parse_line.
  destruct (read_info line) as [i|]; [|intros [= <-]; by left].
  unfold result_bind.
  destruct (candidate_of board i) as [c|]; [|done].
  intros [= <-]. right. by exists i.
Qed.

Lemma attained_mono seen x f v :
  attained seen f v -> attained (seen ++ [x]) f v.
Proof.
  intros [->|(line & i & Hin & Hi & Hf)]; [by left|].
  right. exists line, i. split; [apply elem_of_app; by left|done].
Qed.

Lemma attained_max seen line i f old x :
  read_info line = Some i -> f i = Some x ->
  attained seen f old -> attained (seen ++ [line]) f (Z.max old x).
Proof.
  intros Hi Hf Hold.
  destruct (Z.max_spec old x) as [[_ ->]|[_ ->]].
  - right. exists line, i. split; [|done].
    apply elem_of_app. right. by apply list_elem_of_singleton.
  - by apply attained_mono.
Qed.

Lemma parse_line_telemetry board seen a line a' :
  bounded seen a -> reached seen a ->
  parse_line board a line = Ok a' ->
  bounded (seen ++ [line]) a' /\ reached (seen ++ [line]) a'.
Proof.
  intros Hb Hr [[Hnone ->]|(i & Hi & Hn & Hd & Hs & Ht & Hp)]%parse_line_step.
  - split.
    + intros l j [Hl| ->%list_elem_of_singleton]%elem_of_app Hj;
        [exact (Hb l j Hl Hj)|congruence].
    + destruct Hr as (? & ? & ? & ? & ?).
      repeat split; by apply attained_mono.
  - split.
    + intros l j [Hl| ->%list_elem_of_singleton]%elem_of_app Hj.
      * destruct (Hb l j Hl Hj) as (H1 & H2 & H3 & H4 & H5).
        rewrite Hn, Hd, Hs, Ht, Hp. repeat split; try lia.
        -- intros t Hjt. specialize (H4 t Hjt). destruct (i_time i); lia.
        -- intros n Hjn. specialize (H5 n Hjn). destruct (i_nps i); lia.
      * assert (j = i) as -> by congruence.
        rewrite Hn, Hd, Hs, Ht, Hp. repeat split; try lia.
        -- intros t ->. lia.
        -- intros n ->. lia.
    + destruct Hr as (R1 & R2 & R3 & R4 & R5).
      unfold reached. rewrite Hn, Hd, Hs, Ht, Hp.
      repeat split; try (by eapply attained_max).
      * destruct (i_time i) eqn:Hti; [by eapply attained_max|].
        by apply attained_mono.
      * destruct (i_nps i) eqn:Hni; [by eapply attained_max|].
        by apply attained_mono.
Qed.

Lemma for_each_telemetry board lines : forall seen a a',
  bounded seen a -> reached seen a ->
  for_each (parse_line board) a lines = Ok a' ->
  bounded (seen ++ lines) a' /\ reached (seen ++ lines) a'.
Proof.
  induction lines as [|line lines IH]; intros seen a a' Hb Hr; simpl.
  - intros [= <-]. by rewrite app_nil_r.
  - unfold result_bind at 1.
    destruct (parse_line board a line) as [a1|] eqn:Hline; [|done].
    intros Hrest.
    replace (seen ++ line :: lines) with ((seen ++ [line]) ++ lines)
      by (by rewrite <- app_assoc).
    destruct (parse_line_telemetry _ _ _ _ _ Hb Hr Hline) as [Hb1 Hr1].
    by apply (IH _ a1).
Qed.

(** What [_parse_analysis] returns, with the final state of the loop. *)
Lemma parse_analysis_loop fen lines bm pa :
  _parse_analysis fen lines bm = Ok pa ->
  exists board a,
    Board_of_fen chess fen = Some board /\
    for_each (parse_line board) acc0 lines = Ok a /\
    pa = {|
      PositionAnalysis.fen := fen;
      PositionAnalysis.candidates := sorted_candidates (candidates a);
      PositionAnalysis.evaluation_cp :=
        match sorted_candidates (candidates a) with
        | c :: _ => MoveCandidate.score_cp c
        | [] => 0
        end;
      PositionAnalysis.evaluation_wdl :=
        match sorted_candidates (candidates a) with
        | c :: _ => MoveCandidate.score_wdl c
        | [] => (333, 334, 333)
        end;
      PositionAnalysis.total_nodes := total_nodes a;
      PositionAnalysis.time_ms := time_ms a;
      PositionAnalysis.nps := nps a;
      PositionAnalysis.depth := max_depth a;
      PositionAnalysis.seldepth := max_seldepth a;
      PositionAnalysis.multipv :=
        Z.of_nat (length (sorted_candidates (candidates a)));
    |}.
Proof.
  unfold Parser._parse_analysis.
  destruct (Board_of_fen chess fen) as [board|]; [|done].
  unfold result_bind.
  destruct (for_each (parse_line board) acc0 lines) as [a|] eqn:Hloop; [|done].
  intros [= <-]. by exists board, a.
Qed.

(** ** The shape of a candidate *)

Lemma walk_pv_length pv : forall b sans,
  walk_pv b pv = Ok sans -> (length sans <= length pv)%nat.
Proof.
  induction pv as [|u pv IH]; intros b sans; simpl.
  - intros [= <-]. done.
  - destruct (from_uci chess u) as [m|]; [|intros [= <-]; simpl; lia].
    destruct (is_legal chess b m); [|intros [= <-]; simpl; lia].
    destruct (san chess b m) as [s|e].
    + unfold result_bind.
      destruct (walk_pv (push chess b m) pv) as [rest|] eqn:Hrest; [|done].
      intros [= <-]. simpl. apply IH in Hrest. lia.
    + destruct (is_value_error e); [|done]. intros [= <-]. simpl. lia.
Qed.

Lemma candidate_of_shape board i c :
  candidate_of board i = Ok (Some c) ->
  MoveCandidate.pv c = i_pv i /\
  head (MoveCandidate.pv c) = Some (MoveCandidate.move c) /\
  (exists m,
     from_uci chess (MoveCandidate.move c) = Some m /\
     san chess board m = Ok (MoveCandidate.move_san c)) /\
  (MoveCandidate.pv_san c = [] \/
   head (MoveCandidate.pv_san c) = Some (MoveCandidate.move_san c)) /\
  (length (MoveCandidate.pv_san c) <= length (MoveCandidate.pv c))%nat /\
  MoveCandidate.policy c = 0%Q /\
  _estimate_wdl wdl_floats (MoveCandidate.score_cp c)
    = Ok (MoveCandidate.score_wdl c).
Proof.
  unfold Parser.candidate_of, result_bind.
  destruct (_estimate_wdl wdl_floats (i_score_cp i)) as [wdl|] eqn:Hwdl;
    [|done].
  destruct (walk_pv board (i_pv i)) as [sans|] eqn:Hwalk; [|done].
  destruct (i_pv i) as [|u rest] eqn:Hpv; [done|].
  destruct (from_uci chess u) as [m|] eqn:Hu; [|done].
  destruct (san chess board m) as [s|e] eqn:Hs;
    [|by destruct (is_value_error e)].
  intros [= <-]. simpl. repeat split; try done.
  - by exists m.
  - simpl in Hwalk. rewrite Hu, Hs in Hwalk.
    destruct (is_legal chess board m); [|left; congruence].
    unfold result_bind in Hwalk.
    destruct (walk_pv (push chess board m) rest); [|done].
    injection Hwalk as <-. by right.
  - by apply walk_pv_length in Hwalk.
Qed.

Lemma read_info_tokens line i u :
  read_info line = Some i -> u ∈ i_pv i -> u <> EmptyString /\ no_blank u.
Proof.
  intros Hi. rewrite (ParserSpec.read_info_pv line i Hi).
  destruct (Re.pv_pattern line); [apply split_tokens|by intros ?%elem_of_nil].
Qed.

(** Every candidate of a result is the candidate of one of the lines. *)
Lemma candidate_from_line fen lines bm pa c :
  _parse_analysis fen lines bm = Ok pa ->
  c ∈ PositionAnalysis.candidates pa ->
  exists board line i,
    Board_of_fen chess fen = Some board /\ line ∈ lines /\
    read_info line = Some i /\ candidate_of board i = Ok (Some c).
Proof.
  intros (board & a & Hb & _ & Hfrom & Hcs & _)%ParserSpec.parse_analysis_inv.
  rewrite Hcs. intros (k & Hk)%ParserSpec.elem_of_sorted_candidates.
  destruct (Hfrom k c Hk) as (line & i & Hin & Hi & _ & Hc).
  by exists board, line, i.
Qed.

(** ** Lines the loop skips *)

Lemma for_each_skip board lines : forall a,
  for_each (parse_line board) a (filter is_read lines)
  = for_each (parse_line board) a lines.
Proof.
  induction lines as [|line lines IH]; intros a; [done|].
  rewrite filter_cons. destruct (decide (is_read line)) as [Hr|Hr]; simpl.
  - destruct (parse_line board a line); simpl; [apply IH|done].
  - rewrite IH. unfold Parser.parse_line at 2.
    destruct (read_info line) as [i|] eqn:Hi; [|done].
    exfalso. apply Hr. by exists i.
Qed.

Lemma parse_analysis_same_read fen lines lines' bm bm' :
  filter is_read lines = filter is_read lines' ->
  _parse_analysis fen lines bm = _parse_analysis fen lines' bm'.
Proof.
  intros Heq. unfold Parser._parse_analysis.
  destruct (Board_of_fen chess fen) as [board|]; [|done].
  by rewrite <- (for_each_skip board lines), <- (for_each_skip board lines'),
    Heq.
Qed.

(** Of the lines the parser reads, the driver's test keeps those that
    start with "info". *)
Lemma filter_read_kept (lines : list string) :
  filter is_read (filter is_kept lines) = filter is_read (filter is_info lines).
Proof.
  rewrite !list_filter_filter. apply list_filter_iff. intros x. split.
  - intros [Hr Hk]. split; [done|]. unfold is_kept, is_info in *.
    by apply andb_prop in Hk as [? _].
  - intros [Hr Hi]. split; [done|]. by apply is_read_kept.
Qed.

Lemma parse_analysis_kept fen lines bm :
  _parse_analysis fen (filter is_kept lines) bm
  = _parse_analysis fen (filter is_info lines) bm.
Proof. apply parse_analysis_same_read, filter_read_kept. Qed.

(** ** Further facts about [_parse_analysis] *)

(** X1. The five search figures of a result are running maxima: each is at
    least the value of every line the loop read, whether or not the line
    gave a candidate, and each is the value of one of those lines unless it
    is still 0. *)
Theorem parse_analysis_telemetry fen info_lines bestmove_line pa :
  _parse_analysis fen info_lines bestmove_line = Ok pa ->
  (forall line i, line ∈ info_lines -> read_info line = Some i ->
     i_nodes i <= PositionAnalysis.total_nodes pa /\
     i_depth i <= PositionAnalysis.depth pa /\
     i_seldepth i <= PositionAnalysis.seldepth pa /\
     (forall t, i_time i = Some t -> t <= PositionAnalysis.time_ms pa) /\
     (forall n, i_nps i = Some n -> n <= PositionAnalysis.nps pa)) /\
  attained info_lines (fun i => Some (i_nodes i))
    (PositionAnalysis.total_nodes pa) /\
  attained info_lines (fun i => Some (i_depth i))
    (PositionAnalysis.depth pa) /\
  attained info_lines (fun i => Some (i_seldepth i))
    (PositionAnalysis.seldepth pa) /\
  attained info_lines i_time (PositionAnalysis.time_ms pa) /\
  attained info_lines i_nps (PositionAnalysis.nps pa).
Proof.
  intros (board & a & _ & Hloop & ->)%parse_analysis_loop. simpl.
  assert (bounded [] acc0) as Hb0 by (by intros l j ?%elem_of_nil).
  assert (reached [] acc0) as Hr0 by (repeat split; by left).
  destruct (for_each_telemetry board info_lines [] acc0 a Hb0 Hr0 Hloop)
    as [Hb Hr].
  simpl in Hb, Hr. by split.
Qed.

(** X2. Every number of a result is non-negative: the five search figures,
    and the rank, depth and node count of every candidate. A rank can be 0:
    it is whatever index the engine wrote. *)
Theorem parse_analysis_nonneg fen info_lines bestmove_line pa :
  _parse_analysis fen info_lines bestmove_line = Ok pa ->
  0 <= PositionAnalysis.total_nodes pa /\
  0 <= PositionAnalysis.time_ms pa /\
  0 <= PositionAnalysis.nps pa /\
  0 <= PositionAnalysis.depth pa /\
  0 <= PositionAnalysis.seldepth pa /\
  (forall c, c ∈ PositionAnalysis.candidates pa ->
     0 <= MoveCandidate.rank c /\ 0 <= MoveCandidate.depth c /\
     0 <= MoveCandidate.nodes c).
Proof.
  intros Hpa.
  assert (forall f v, attained info_lines f v ->
            (forall line i x, read_info line = Some i -> f i = Some x ->
               0 <= x) -> 0 <= v) as Hatt.
  { intros f v [->|(line & i & _ & Hi & Hf)] Hpos; [done|]. eauto. }
  pose proof Hpa as (board & a & _ & Hloop & Heq)%parse_analysis_loop.
  assert (bounded [] acc0) as Hb0 by (by intros l j ?%elem_of_nil).
  assert (reached [] acc0) as Hr0 by (repeat split; by left).
  destruct (for_each_telemetry board info_lines [] acc0 a Hb0 Hr0 Hloop)
    as [_ (R1 & R2 & R3 & R4 & R5)].
  simpl in R1, R2, R3, R4, R5. rewrite Heq at 1 2 3 4 5. simpl.
  split; [|split; [|split; [|split; [|split]]]].
  - apply (Hatt _ _ R1). intros line i x Hi [= <-].
    by apply read_info_nonneg in Hi as (_ & _ & _ & ? & _).
  - apply (Hatt _ _ R4). intros line i x Hi Hx.
    apply read_info_nonneg in Hi as (_ & _ & _ & _ & Ht & _). eauto.
  - apply (Hatt _ _ R5). intros line i x Hi Hx.
    apply read_info_nonneg in Hi as (_ & _ & _ & _ & _ & Hn). eauto.
  - apply (Hatt _ _ R2). intros line i x Hi [= <-].
    by apply read_info_nonneg in Hi as (_ & ? & _).
  - apply (Hatt _ _ R3). intros line i x Hi [= <-].
    by apply read_info_nonneg in Hi as (_ & _ & ? & _).
  - intros c Hc.
    destruct (candidate_from_line _ _ _ _ _ Hpa Hc)
      as (b & line & i & _ & _ & Hi & Hci).
    apply ParserSpec.candidate_of_fields in Hci
      as (-> & _ & _ & -> & -> & _).
    apply read_info_nonneg in Hi as (? & ? & _ & ? & _). done.
Qed.

(** X3. Every candidate of a result has a variation with at least one
    token, made of non-empty tokens without blanks, of which [move] is the
    first; [move_san] is the notation of [move] on the board of the FEN;
    [pv_san] is never longer than [pv] and, unless it is empty, starts with
    [move_san]; and [policy] is 0. *)
Theorem candidate_shape fen info_lines bestmove_line pa c :
  _parse_analysis fen info_lines bestmove_line = Ok pa ->
  c ∈ PositionAnalysis.candidates pa ->
  head (MoveCandidate.pv c) = Some (MoveCandidate.move c) /\
  (forall u, u ∈ MoveCandidate.pv c -> u <> EmptyString /\ no_blank u) /\
  (exists board m,
     Board_of_fen chess fen = Some board /\
     from_uci chess (MoveCandidate.move c) = Some m /\
     san chess board m = Ok (MoveCandidate.move_san c)) /\
  (MoveCandidate.pv_san c = [] \/
   head (MoveCandidate.pv_san c) = Some (MoveCandidate.move_san c)) /\
  (length (MoveCandidate.pv_san c) <= length (MoveCandidate.pv c))%nat /\
  MoveCandidate.policy c = 0%Q.
Proof.
  intros Hpa Hc.
  destruct (candidate_from_line _ _ _ _ _ Hpa Hc)
    as (board & line & i & Hb & _ & Hi & Hci).
  apply candidate_of_shape in Hci
    as (Hpv & Hhd & (m & Hm & Hs) & Hsan & Hlen & Hpol & _).
  split; [done|]. split.
  - intros u. rewrite Hpv. by apply read_info_tokens with line.
  - split; [by exists board, m|done].
Qed.

(** X4. Whatever the floating-point stage gives, the three per-mille
    values of every candidate, and those of the evaluation of the result,
    sum to 1000; a candidate's triple is the estimate for its own score. *)
Theorem parse_analysis_wdl fen info_lines bestmove_line pa :
  _parse_analysis fen info_lines bestmove_line = Ok pa ->
  wdl_sum (PositionAnalysis.evaluation_wdl pa) = 1000 /\
  (forall c, c ∈ PositionAnalysis.candidates pa ->
     wdl_sum (MoveCandidate.score_wdl c) = 1000 /\
     _estimate_wdl wdl_floats (MoveCandidate.score_cp c)
       = Ok (MoveCandidate.score_wdl c)).
Proof.
  intros Hpa.
  assert (forall c, c ∈ PositionAnalysis.candidates pa ->
     wdl_sum (MoveCandidate.score_wdl c) = 1000 /\
     _estimate_wdl wdl_floats (MoveCandidate.score_cp c)
       = Ok (MoveCandidate.score_wdl c)) as Hall.
  { intros c Hc.
    destruct (candidate_from_line _ _ _ _ _ Hpa Hc)
      as (board & line & i & _ & _ & _ & Hci).
    apply candidate_of_shape in Hci as (_ & _ & _ & _ & _ & _ & Hwdl).
    split; [|done].
    destruct (MoveCandidate.score_wdl c) as [[w d] l].
    apply ParserSpec.estimate_wdl_sum in Hwdl. simpl. lia. }
  split; [|done].
  apply ParserSpec.parse_analysis_inv in Hpa
    as (_ & _ & _ & _ & _ & _ & _ & Hwdl).
  rewrite Hwdl. destruct (PositionAnalysis.candidates pa) as [|c cs] eqn:Hcs;
    [done|].
  apply Hall. by left.
Qed.

(** X5. The result depends only on the FEN and on the lines that carry a
    MultiPV index, in their order: two sequences with the same such lines
    give the same outcome, and the bestmove line plays no part. *)
Theorem parse_analysis_skips fen lines lines' bestmove_line bestmove_line' :
  filter is_read lines = filter is_read lines' ->
  _parse_analysis fen lines bestmove_line
  = _parse_analysis fen lines' bestmove_line'.
Proof. apply parse_analysis_same_read. Qed.

End WithOracles.

(** X6. A mate score takes precedence over a centipawn score on the same
    line, and is 10000 minus the distance for a mate given and the distance
    minus 10000 for a mate suffered (distance 0 included). So within 10000
    moves a mate given is positive, a mate suffered is negative, and of two
    mates of the same kind the nearer given and the farther suffered score
    higher. *)
Theorem mate_scores line i mate_in :
  read_info line = Some i ->
  Re.score_mate_pattern line = Some mate_in ->
  (0 < mate_in -> i_score_cp i = 10000 - mate_in) /\
  (mate_in <= 0 -> i_score_cp i = -10000 - mate_in) /\
  (0 < mate_in < 10000 -> 0 < i_score_cp i) /\
  (-10000 < mate_in <= 0 -> i_score_cp i < 0) /\
  (forall line' i' mate_in',
     read_info line' = Some i' ->
     Re.score_mate_pattern line' = Some mate_in' ->
     (0 < mate_in < mate_in' \/ mate_in < mate_in' <= 0) ->
     i_score_cp i' < i_score_cp i).
Proof.
  assert (forall l j m, read_info l = Some j ->
            Re.score_mate_pattern l = Some m ->
            i_score_cp j = if 0 <? m then 10000 - m else -10000 - m) as Hform.
  { intros l j m Hj Hm. unfold read_info in Hj.
    destruct (negb _); [done|].
    destruct (Re.multipv_pattern l); [|done].
    injection Hj as <-. simpl. rewrite Hm.
    destruct (Z.ltb_spec 0 m); lia. }
  intros Hi Hm. pose proof (Hform _ _ _ Hi Hm) as Hs.
  repeat split.
  - intros ?. rewrite Hs. destruct (Z.ltb_spec 0 mate_in); lia.
  - intros ?. rewrite Hs. destruct (Z.ltb_spec 0 mate_in); lia.
  - intros ?. rewrite Hs. destruct (Z.ltb_spec 0 mate_in); lia.
  - intros ?. rewrite Hs. destruct (Z.ltb_spec 0 mate_in); lia.
  - intros line' i' mate_in' Hi' Hm' Hord.
    rewrite Hs, (Hform _ _ _ Hi' Hm').
    destruct (Z.ltb_spec 0 mate_in), (Z.ltb_spec 0 mate_in'); lia.
Qed.

End ParserMore.

(** * Further properties of the adapter *)

Module AdapterMore.
Import Adapter Adapter2 Vocabulary.
Local Open Scope list_scope.

(** ** What the driver leaves alone *)

Lemma send_command_cases command s :
  (_writer (self s) = false /\
   _send_command command s
     = (Done (Raised (RuntimeError "Stockfish non avviato")), s)) \/
  (_writer (self s) = true /\ stdin_lost (child s) = true /\
   _send_command command s = (Done (Raised ConnectionError), s)) \/
  (_writer (self s) = true /\ stdin_lost (child s) = false /\
   _send_command command s
     = (Done (Ok tt), emit (Write (command ++ Str.LF)%string) s)).
Proof.
  unfold _send_command. rewrite AdapterSpec.bind_get.
  destruct (_writer (self s)); simpl; [|by left].
  destruct (stdin_lost (child s)); simpl; right; [left|right]; done.
Qed.

Lemma send_command_self command s r s' :
  _send_command command s = (r, s') ->
  self s' = self s /\ child s' = child s /\ spawns s' = spawns s.
Proof.
  destruct (send_command_cases command s)
    as [[_ ->]|[(_ & _ & ->)|(_ & _ & ->)]]; by intros [= <- <-].
Qed.

Lemma wait_for_self expected s r s' :
  _wait_for expected s = (r, s') -> self s' = self s.
Proof.
  unfold _wait_for. by intros (_ & ? & _)%AdapterSpec.wait_for_loop_frame.
Qed.

Lemma read_until_bestmove_self s r s' :
  _read_until_bestmove s = (r, s') -> self s' = self s.
Proof.
  unfold _read_until_bestmove.
  by intros (_ & ? & _)%AdapterSpec.read_until_bestmove_loop_frame.
Qed.

Lemma set_options_self options : forall s r s',
  set_options options s = (r, s') -> self s' = self s.
Proof.
  induction options as [|[name value] options IH]; intros s r s'; simpl.
  - by intros [= _ <-].
  - unfold mbind, M_bind, bind.
    destruct (_send_command _ s) as [[[[]|e]|] s1] eqn:Hsend;
      apply send_command_self in Hsend as (Hs1 & _).
    + intros ?%IH. congruence.
    + intros [= _ <-]. done.
    + intros [= _ <-]. done.
Qed.

(** ** Rules for triples *)

Lemma triple_bind {A B} P (m : M A) Q (k : A -> M B) Q' E :
  triple P m Q E -> (forall a, triple (Q a) (k a) Q' E) ->
  triple P (m ≫= k) Q' E.
Proof.
  intros Hm Hk s r s' HP. unfold mbind, M_bind, bind.
  destruct (m s) as [[[a|e]|] s1] eqn:Hms; specialize (Hm _ _ _ HP Hms);
    simpl in Hm.
  - intros Hka. by apply (Hk a s1).
  - by intros [= <- <-].
  - by intros [= <- <-].
Qed.

Lemma triple_weaken {A} (P P' : state -> Prop) (m : M A) Q Q'
    (E E' : option exn -> state -> Prop) :
  triple P' m Q' E' ->
  (forall s, P s -> P' s) -> (forall a s, Q' a s -> Q a s) ->
  (forall x s, E' x s -> E x s) ->
  triple P m Q E.
Proof.
  intros Hm HP HQ HE s r s' Hs Hrun. specialize (Hm s r s' (HP s Hs) Hrun).
  destruct r as [[a|e]|]; auto.
Qed.

Lemma triple_get P E : triple P get (fun s0 s => s = s0 /\ P s) E.
Proof. intros s r s' HP [= <- <-]. done. Qed.

Lemma triple_ret {A} (a : A) (P : state -> Prop) E :
  triple P (ret a) (fun _ s => P s) E.
Proof. intros s r s' HP [= <- <-]. done. Qed.

Lemma triple_modify f (P Q : state -> Prop) E :
  (forall s, P s -> Q (f s)) -> triple P (modify f) (fun _ s => Q s) E.
Proof. intros H s r s' HP [= <- <-]. by apply H. Qed.

(** A step that leaves the adapter's fields alone keeps whatever holds of
    them; [X] is what is known of the exceptions it raises. *)
Lemma triple_step {A} (m : M A) (I : StockfishWrapper -> Prop)
    (X : exn -> Prop) (E : option exn -> state -> Prop) :
  (forall s r s', m s = (r, s') -> self s' = self s) ->
  (forall s e s', I (self s) -> m s = (Done (Raised e), s') -> X e) ->
  (forall e s, I (self s) -> X e -> E (Some e) s) ->
  (forall s, I (self s) -> E None s) ->
  triple (fun s => I (self s)) m (fun _ s => I (self s)) E.
Proof.
  intros Hm HX HE HN s r s' HI Hrun.
  pose proof (Hm _ _ _ Hrun) as Hself.
  destruct r as [[a|e]|].
  - by rewrite Hself.
  - apply HE; [by rewrite Hself|]. by eapply HX.
  - apply HN. by rewrite Hself.
Qed.

(** ** The exceptions of the driver *)

Lemma send_command_raises command s e s' :
  _writer (self s) = true ->
  _send_command command s = (Done (Raised e), s') -> e = ConnectionError.
Proof.
  intros Hw.
  destruct (send_command_cases command s)
    as [[Hf _]|[(_ & _ & ->)|(_ & _ & ->)]]; [congruence|..];
    by intros [= <- _].
Qed.

Lemma read_line_raises s e s' :
  _reader (self s) = true ->
  _read_line s = (Done (Raised e), s') -> e = UnicodeDecodeError.
Proof.
  intros Hr. unfold _read_line. rewrite Hr. simpl.
  destruct (stdout (child s)) as [|[text|] rest].
  - by destruct (stdout_eof (child s)).
  - done.
  - by intros [= <- _].
Qed.

Lemma read_line_self s r s' : _read_line s = (r, s') -> self s' = self s.
Proof. by intros (_ & ? & _)%AdapterSpec.read_line_frame. Qed.

Lemma wait_for_loop_raises expected n : forall lines s e s',
  _reader (self s) = true ->
  wait_for_loop n expected lines s = (Done (Raised e), s') ->
  e = UnicodeDecodeError.
Proof.
  induction n as [|n IH]; intros lines s e s' Hr; simpl; [done|].
  unfold mbind, M_bind, bind.
  destruct (_read_line s) as [[[line|e0]|] s1] eqn:Hread.
  - apply read_line_self in Hread.
    destruct (Str.startswith line expected); [done|].
    apply IH. congruence.
  - intros [= <- _]. by eapply read_line_raises.
  - done.
Qed.

Lemma wait_for_raises expected s e s' :
  _reader (self s) = true ->
  _wait_for expected s = (Done (Raised e), s') -> e = UnicodeDecodeError.
Proof. unfold _wait_for. apply wait_for_loop_raises. Qed.

Lemma read_until_bestmove_loop_raises n : forall info_lines s e s',
  _reader (self s) = true ->
  read_until_bestmove_loop n info_lines s = (Done (Raised e), s') ->
  e = UnicodeDecodeError.
Proof.
  induction n as [|n IH]; intros info_lines s e s' Hr; simpl; [done|].
  unfold mbind, M_bind, bind.
  destruct (_read_line s) as [[[line|e0]|] s1] eqn:Hread.
  - apply read_line_self in Hread.
    destruct (Str.startswith line "info" && _).
    + apply IH. congruence.
    + destruct (Str.startswith line "bestmove"); [done|].
      apply IH. congruence.
  - intros [= <- _]. by eapply read_line_raises.
  - done.
Qed.

Lemma read_until_bestmove_raises s e s' :
  _reader (self s) = true ->
  _read_until_bestmove s = (Done (Raised e), s') -> e = UnicodeDecodeError.
Proof. unfold _read_until_bestmove. apply read_until_bestmove_loop_raises. Qed.

(** ** [stop] on every path *)

Lemma stop_outcome s :
  (_process (self s) = false /\ stop s = (Done (Ok tt), s)) \/
  (_process (self s) = true /\ exists e, stop s = (Done (Raised e), s)) \/
  (_process (self s) = true /\ exists s',
     stop s = (Done (Ok tt), s') /\
     config (self s') = config (self s) /\ _lock (self s') = _lock (self s) /\
     _process (self s') = false /\ _reader (self s') = false /\
     _writer (self s') = false /\ _is_ready (self s') = false /\
     spawns s' = spawns s).
Proof.
  unfold stop. rewrite AdapterSpec.bind_get.
  destruct (_process (self s)) eqn:Hp; simpl; [|by left].
  right. unfold mbind, M_bind, bind.
  destruct (send_command_cases "quit" s)
    as [[_ ->]|[(_ & _ & ->)|(_ & _ & ->)]]; [left; eauto..|].
  right. split; [done|].
  unfold except_timeout, wait_with_grace, kill_and_wait, modify. simpl.
  destruct (exited (child s) || exits_in_grace (child s));
    eexists; (split; [reflexivity|]); simpl; by repeat split.
Qed.

Lemma consistent_same_fields w w' :
  same_fields w w' -> consistent w -> consistent w'.
Proof.
  intros (_ & Hp & Hr & Hw & Hrdy) (H1 & H2 & H3).
  unfold consistent. rewrite Hp, Hr, Hw, Hrdy. done.
Qed.

Lemma same_fields_eq w w' :
  same_fields w w' -> _lock w' = _lock w -> w' = w.
Proof.
  destruct w, w'. unfold same_fields. simpl.
  intros (-> & -> & -> & -> & ->) ->. done.
Qed.

(** ** The lock *)

(** A body that leaves the adapter's fields alone. *)
Lemma with_lock_fields {A} (body : M A) s r s' :
  (forall s0 r0 s1, body s0 = (r0, s1) -> self s1 = self s0) ->
  with_lock body s = (r, s') ->
  same_fields (self s) (self s') /\
  match r with
  | Done _ => _lock (self s) = false /\ _lock (self s') = false
  | Hangs => _lock (self s') = true
  end.
Proof.
  intros Hbody. unfold with_lock.
  destruct (_lock (self s)) eqn:Hlock.
  - intros [= <- <-]. by repeat split.
  - destruct (body _) as [[r0|] s1] eqn:Hrun; apply Hbody in Hrun;
      intros [= <- <-]; simpl; rewrite Hrun; simpl; by repeat split.
Qed.

Lemma with_lock_held {A} (body : M A) s :
  _lock (self s) = true -> with_lock body s = (Hangs, s).
Proof. unfold with_lock. by intros ->. Qed.

(** The bodies of the three locked operations leave the fields alone. *)
Lemma bind_self {A B} (m : M A) (k : A -> M B) :
  (forall s r s', m s = (r, s') -> self s' = self s) ->
  (forall a s r s', k a s = (r, s') -> self s' = self s) ->
  forall s r s', (m ≫= k) s = (r, s') -> self s' = self s.
Proof.
  intros Hm Hk s r s'. unfold mbind, M_bind, bind.
  destruct (m s) as [[[a|e]|] s1] eqn:Hms; apply Hm in Hms.
  - intros ?%Hk. congruence.
  - by intros [= _ <-].
  - by intros [= _ <-].
Qed.

Lemma send_self command s r s' :
  _send_command command s = (r, s') -> self s' = self s.
Proof. by intros (? & _)%send_command_self. Qed.

Lemma ret_self {A} (a : A) s r s' : ret a s = (r, s') -> self s' = self s.
Proof. by intros [= _ <-]. Qed.

Lemma is_ready_body_self s r s' :
  (_send_command "isready" ;; _wait_for "readyok" ;; ret true) s = (r, s') ->
  self s' = self s.
Proof.
  apply bind_self; [apply send_self|]. intros _.
  apply bind_self; [apply wait_for_self|]. intros _. apply ret_self.
Qed.

Lemma new_game_body_self s r s' :
  (_send_command "ucinewgame" ;; _send_command "isready" ;;
   _wait_for "readyok" ;; ret tt) s = (r, s') ->
  self s' = self s.
Proof.
  apply bind_self; [apply send_self|]. intros _.
  apply bind_self; [apply send_self|]. intros _.
  apply bind_self; [apply wait_for_self|]. intros _. apply ret_self.
Qed.

Section Analysis.

Context (chess : PyChess) (wdl_floats : Z -> option (Z * Z)).

Local Abbreviation analyze_position :=
  (analyze_position chess wdl_floats).
Local Abbreviation _parse_analysis :=
  (Parser._parse_analysis chess wdl_floats).
Local Abbreviation analysis_body := (analysis_body chess wdl_floats).

Lemma analyze_position_unfold fen nodes depth time_ms num_moves :
  analyze_position fen nodes depth time_ms num_moves
  = with_lock (analysis_body fen nodes depth time_ms num_moves).
Proof. reflexivity. Qed.

Lemma analysis_body_self fen nodes depth time_ms num_moves s r s' :
  analysis_body fen nodes depth time_ms num_moves s = (r, s') ->
  self s' = self s.
Proof.
  unfold analysis_body. rewrite AdapterSpec.bind_get.
  destruct (negb (_is_ready (self s))); [by intros [= _ <-]|].
  revert s r s'.
  apply bind_self.
  { intros s r s'. destruct (other_multipv num_moves _);
      [apply send_self|apply ret_self]. }
  intros _. apply bind_self; [apply send_self|]. intros _.
  apply bind_self; [apply send_self|]. intros _.
  apply bind_self; [apply read_until_bestmove_self|]. intros [lines bm].
  intros s r s'. rewrite AdapterSpec.bind_get. revert s' r.
  intros s' r. revert s r s'.
  intros s. 
  apply (bind_self
    (match other_multipv num_moves s with
     | Some _ => _send_command _
     | None => ret tt
     end)).
  { intros s0 r s'. destruct (other_multipv num_moves s);
      [apply send_self|apply ret_self]. }
  intros _ s0 r s'. by intros [= _ <-].
Qed.

End Analysis.

End AdapterMore.

(** * Further facts about the adapter *)

Module AdapterFacts.
Import Adapter Adapter2 Vocabulary AdapterMore.
Local Open Scope list_scope.

Lemma start_unfold s :
  start s = (when (_process (self s)) stop ;; handshake_steps) s.
Proof. reflexivity. Qed.

(** The spawn and the handshake: the handles are set by the spawn and stay
    set, and the readiness flag is only set at the very end. [I] is kept
    as long as the flag is not set, [K] throughout. *)
Lemma triple_handshake (I K : StockfishWrapper -> Prop) :
  (forall w, I w -> I {| config := config w; _process := true;
                         _reader := true; _writer := true; _lock := _lock w;
                         _is_ready := _is_ready w |}) ->
  (forall w p r wr rdy, K w ->
     K {| config := config w; _process := p; _reader := r; _writer := wr;
          _lock := _lock w; _is_ready := rdy |}) ->
  triple (fun s => I (self s) /\ K (self s)) handshake_steps
    (fun _ s => _process (self s) = true /\ _reader (self s) = true /\
                _writer (self s) = true /\ _is_ready (self s) = true /\
                K (self s))
    (fun _ s => I (self s) /\ K (self s)).
Proof.
  intros Hspawn HK.
  set (J := fun w => (I w /\ K w) /\ _process w = true /\ _reader w = true /\
                     _writer w = true).
  assert (forall A (m : M A),
            (forall s r s', m s = (r, s') -> self s' = self s) ->
            triple (fun s => J (self s)) m (fun _ s => J (self s))
              (fun _ s => I (self s) /\ K (self s))) as Hstep.
  { intros A m Hm. apply (triple_step m J (fun _ => True)); try done.
    - by intros e s [? _] _.
    - by intros s [? _]. }
  unfold handshake_steps.
  apply triple_bind with (Q := fun _ s => J (self s)).
  { intros s r s' [HI HKs]. unfold spawn. destruct (spawns s) as [c|];
      intros [= <- <-]; simpl; [|done].
    split; [|done]. split; [by apply Hspawn|by apply HK]. }
  intros _. apply triple_bind with (Q := fun _ s => J (self s));
    [apply Hstep, send_self|].
  intros _. apply triple_bind with (Q := fun _ s => J (self s));
    [apply Hstep, wait_for_self|].
  intros _. apply triple_bind with (Q := fun _ s => J (self s)).
  { intros s r s' HJ [= <- <-]. done. }
  intros s0. apply triple_bind with (Q := fun _ s => J (self s));
    [apply Hstep, set_options_self|].
  intros _. apply triple_bind with (Q := fun _ s => J (self s));
    [apply Hstep, send_self|].
  intros _. apply triple_bind with (Q := fun _ s => J (self s));
    [apply Hstep, wait_for_self|].
  intros _. intros s r s' ((HI & HKs) & Hp & Hr & Hw) [= <- <-]. simpl.
  repeat split; try done. by apply HK.
Qed.

Lemma consistent_spawned w :
  consistent w ->
  consistent {| config := config w; _process := true; _reader := true;
                _writer := true; _lock := _lock w;
                _is_ready := _is_ready w |}.
Proof. intros _. by repeat split. Qed.

(** [start], from a consistent adapter. *)
Lemma start_consistent (K : StockfishWrapper -> Prop) s r s' :
  (forall w p r wr rdy, K w ->
     K {| config := config w; _process := p; _reader := r; _writer := wr;
          _lock := _lock w; _is_ready := rdy |}) ->
  consistent (self s) -> K (self s) -> start s = (r, s') ->
  (consistent (self s') /\ K (self s')) /\
  (r = Done (Ok tt) ->
   _process (self s') = true /\ _is_ready (self s') = true) /\
  (r <> Done (Ok tt) -> _is_ready (self s') = false \/ s' = s).
Proof.
  intros HK Hc HKs. rewrite start_unfold. unfold mbind, M_bind, bind, when.
  assert (forall s1, consistent (self s1) -> _is_ready (self s1) = false ->
            K (self s1) ->
            handshake_steps s1 = (r, s') ->
            (consistent (self s') /\ K (self s')) /\
            (r = Done (Ok tt) ->
             _process (self s') = true /\ _is_ready (self s') = true) /\
            (r <> Done (Ok tt) -> _is_ready (self s') = false \/ s' = s))
    as Hrest.
  { intros s1 Hc1 Hn HK1 Hrun.
    pose proof (triple_handshake
                  (fun w => consistent w /\ _is_ready w = false) K
                  ltac:(intros w [? ?]; split; [by apply consistent_spawned|done])
                  HK s1 r s' (conj (conj Hc1 Hn) HK1) Hrun) as H.
    destruct r as [[[]|e]|]; simpl in H.
    - destruct H as (Hp & Hr & Hw & Hrdy & HK'). split; [|split; [done|done]].
      split; [|done]. unfold consistent. by rewrite Hp, Hr, Hw.
    - destruct H as [[? ?] ?]. split; [done|]. split; [done|]. by left.
    - destruct H as [[? ?] ?]. split; [done|]. split; [done|]. by left. }
  destruct (_process (self s)) eqn:Hp.
  - destruct (stop_outcome s)
      as [[Hf _]|[(_ & e & ->)|(_ & s1 & -> & Hcfg & Hl & Hp1 & Hr1 & Hw1 & Hrdy1 & _)]];
      [congruence| |].
    + intros [= <- <-]. split; [done|]. split; [done|]. by right.
    + apply Hrest; [|done|].
      * unfold consistent. by rewrite Hp1, Hr1, Hw1, Hrdy1.
      * specialize (HK (self s) false false false false HKs).
        destruct (self s1). simpl in *. by subst.
  - simpl. apply Hrest; [done| |done].
    destruct Hc as (_ & _ & Hrdy). destruct (_is_ready (self s)); [|done].
    specialize (Hrdy eq_refl). congruence.
Qed.

(** ** Facts *)

(** X7. The operations keep the handles consistent: whatever [start],
    [stop], [is_ready], [new_game] and [analyze_position] do, and however
    they end, the three handles are all set or all cleared afterwards, and
    the readiness flag is only on when they are set. A new wrapper starts
    that way. *)
Theorem handles_consistent s :
  consistent (self s) ->
  consistent (self (snd (start s))) /\
  consistent (self (snd (stop s))) /\
  consistent (self (snd (is_ready s))) /\
  consistent (self (snd (new_game s))) /\
  (forall chess wdl_floats fen nodes depth time_ms num_moves,
     consistent
       (self (snd (analyze_position chess wdl_floats fen nodes depth time_ms
                     num_moves s)))).
Proof.
  intros Hc. split; [|split; [|split; [|split]]].
  - destruct (start s) as [r s'] eqn:Hrun.
    by apply (start_consistent (fun _ => True) s r s') in Hrun as [[? _] _].
  - destruct (stop_outcome s)
      as [[_ ->]|[(_ & e & ->)|(_ & s1 & -> & _ & _ & Hp1 & Hr1 & Hw1 & Hrdy1 & _)]];
      [done..|].
    simpl. unfold consistent. by rewrite Hp1, Hr1, Hw1, Hrdy1.
  - unfold is_ready. rewrite AdapterSpec.bind_get.
    destruct (negb (_is_ready (self s))); [done|].
    destruct (with_lock _ s) as [r s'] eqn:Hrun. simpl.
    apply with_lock_fields in Hrun as [Hsame _]; [|apply is_ready_body_self].
    by eapply consistent_same_fields.
  - unfold new_game. destruct (with_lock _ s) as [r s'] eqn:Hrun. simpl.
    apply with_lock_fields in Hrun as [Hsame _]; [|apply new_game_body_self].
    by eapply consistent_same_fields.
  - intros chess wdl_floats fen nodes depth time_ms num_moves.
    rewrite analyze_position_unfold.
    destruct (with_lock _ s) as [r s'] eqn:Hrun. simpl.
    apply with_lock_fields in Hrun as [Hsame _];
      [|apply analysis_body_self].
    by eapply consistent_same_fields.
Qed.

(** X8. [is_ready], [new_game] and [analyze_position] never change the
    adapter: when one of them returns or raises, every field, the
    configured MultiPV among them, is what it was before the call, with the
    lock free again. *)
Theorem locked_operations_frame s :
  (forall r s', is_ready s = (Done r, s') -> self s' = self s) /\
  (forall r s', new_game s = (Done r, s') ->
     self s' = self s /\ _lock (self s') = false) /\
  (forall chess wdl_floats fen nodes depth time_ms num_moves r s',
     analyze_position chess wdl_floats fen nodes depth time_ms num_moves s
       = (Done r, s') ->
     self s' = self s /\ _lock (self s') = false).
Proof.
  split; [|split].
  - intros r s'. unfold is_ready. rewrite AdapterSpec.bind_get.
    destruct (negb (_is_ready (self s))); [by intros [= _ <-]|].
    intros [Hsame [Hl Hl']]%with_lock_fields; [|apply is_ready_body_self].
    apply same_fields_eq; [done|congruence].
  - intros r s'. unfold new_game.
    intros [Hsame [Hl Hl']]%with_lock_fields; [|apply new_game_body_self].
    split; [|done]. apply same_fields_eq; [done|congruence].
  - intros chess wdl_floats fen nodes depth time_ms num_moves r s'.
    rewrite analyze_position_unfold.
    intros [Hsame [Hl Hl']]%with_lock_fields; [|apply analysis_body_self].
    split; [|done]. apply same_fields_eq; [done|congruence].
Qed.

(** X9. A call that hangs keeps the lock: when [analyze_position],
    [new_game] or [is_ready] does not complete, the lock is held in the
    state it leaves, and from a state where the lock is held every later
    [analyze_position] and [new_game], and [is_ready] on a ready adapter,
    hangs in turn without touching anything. *)
Theorem hung_call_keeps_lock chess wdl_floats fen nodes depth time_ms
    num_moves s :
  (forall s',
     analyze_position chess wdl_floats fen nodes depth time_ms num_moves s
       = (Hangs, s') -> _lock (self s') = true) /\
  (forall s', new_game s = (Hangs, s') -> _lock (self s') = true) /\
  (forall s', is_ready s = (Hangs, s') -> _lock (self s') = true) /\
  (_lock (self s) = true ->
   analyze_position chess wdl_floats fen nodes depth time_ms num_moves s
     = (Hangs, s) /\
   new_game s = (Hangs, s) /\
   (_is_ready (self s) = true -> is_ready s = (Hangs, s))).
Proof.
  split; [|split; [|split]].
  - intros s'. rewrite analyze_position_unfold.
    by intros [_ ?]%with_lock_fields; [|apply analysis_body_self].
  - intros s'. unfold new_game.
    by intros [_ ?]%with_lock_fields; [|apply new_game_body_self].
  - intros s'. unfold is_ready. rewrite AdapterSpec.bind_get.
    destruct (negb (_is_ready (self s))); [done|].
    by intros [_ ?]%with_lock_fields; [|apply is_ready_body_self].
  - intros Hl. split; [|split].
    + rewrite analyze_position_unfold. by apply with_lock_held.
    + unfold new_game. by apply with_lock_held.
    + intros Hr. unfold is_ready. rewrite AdapterSpec.bind_get, Hr. simpl.
      by apply with_lock_held.
Qed.

(** X10. [start] reports success only for a ready adapter: when it
    returns, the handles are set and the readiness flag is on. When it
    does not return, from a consistent adapter, the flag is off, unless
    nothing changed at all (the old engine could not be told to quit). In
    every case the configuration and the lock are what they were. *)
Theorem start_outcome s r s' :
  consistent (self s) ->
  start s = (r, s') ->
  (r = Done (Ok tt) ->
   _process (self s') = true /\ _reader (self s') = true /\
   _writer (self s') = true /\ _is_ready (self s') = true) /\
  (r <> Done (Ok tt) -> _is_ready (self s') = false \/ s' = s) /\
  config (self s') = config (self s) /\
  _lock (self s') = _lock (self s).
Proof.
  intros Hc Hrun.
  destruct (start_consistent
              (fun w => config w = config (self s) /\ _lock w = _lock (self s))
              s r s' ltac:(done) Hc ltac:(done) Hrun)
    as (((Hr & Hw & _) & HK) & Hok & Hko).
  split; [|done]. intros Heq. destruct (Hok Heq) as [Hp Hrdy].
  by rewrite Hr, Hw, Hp.
Qed.

(** X11. [create_stockfish] returns only a started engine: when it
    returns, the wrapper holds the given configuration, its three handles
    are set, it is ready and its lock is free. *)
Theorem create_stockfish_ready c s s' :
  create_stockfish c s = (Done (Ok tt), s') ->
  self s' = {| config := c; _process := true; _reader := true;
               _writer := true; _lock := false; _is_ready := true |}.
Proof.
  unfold create_stockfish. intros Hrun.
  apply start_consistent
    with (K := fun w => config w = c /\ _lock w = false) in Hrun
    as (((Hr & Hw & _) & (Hcfg & Hl)) & Hok & _); try done.
  destruct (Hok eq_refl) as [Hp Hrdy].
  destruct (self s'). simpl in *. congruence.
Qed.

(** X12. An adapter whose engine has died cannot be restarted: with a
    process handle and a broken input pipe, [start] fails on the quit
    command of the [stop] it begins with, before any spawn, and leaves
    everything as it was; [is_running] may well say false meanwhile. *)
Theorem start_after_crash s :
  _process (self s) = true ->
  _writer (self s) = true ->
  stdin_lost (child s) = true ->
  start s = (Done (Raised ConnectionError), s) /\
  (exited (child s) = true -> is_running s = false).
Proof.
  intros Hp Hw Hlost. split.
  - rewrite start_unfold. unfold mbind, M_bind, bind, when. rewrite Hp.
    unfold stop. rewrite AdapterSpec.bind_get, Hp. simpl.
    by erewrite AdapterSpec.bind_raised
      by (by apply AdapterSpec.send_command_lost).
  - intros He. unfold is_running. rewrite He. apply andb_false_r.
Qed.

(** ** Running the operations on an engine that answers *)

Lemma emit_all_nil s : emit_all [] s = s.
Proof. destruct s. unfold emit_all. simpl. by rewrite app_nil_r. Qed.

Lemma emit_emit_all e s : emit e s = emit_all [e] s.
Proof. done. Qed.

Lemma emit_all_app evs evs' s :
  emit_all evs' (emit_all evs s) = emit_all (evs ++ evs') s.
Proof. unfold emit_all. simpl. by rewrite app_assoc. Qed.

Lemma send_command_emits command s :
  _writer (self s) = true -> stdin_lost (child s) = false ->
  _send_command command s = (Done (Ok tt), emit_all (writes [command]) s).
Proof. apply AdapterSpec.send_command_ok. Qed.

Lemma set_options_ok options : forall s,
  _writer (self s) = true -> stdin_lost (child s) = false ->
  set_options options s
  = (Done (Ok tt), emit_all (writes (setoption <$> options)) s).
Proof.
  induction options as [|[name value] options IH]; intros s Hw Hl; simpl.
  - unfold ret. by rewrite emit_all_nil.
  - erewrite AdapterSpec.bind_ok by (by apply send_command_emits).
    rewrite IH by done. by rewrite emit_all_app.
Qed.

Lemma read_until_bestmove_returns s pre l post :
  _reader (self s) = true ->
  stdout (child s) = (Bytes <$> pre) ++ Bytes l :: post ->
  Forall (fun x => Str.startswith (Str.strip x) "bestmove" = false) pre ->
  Str.startswith (Str.strip l) "bestmove" = true ->
  _read_until_bestmove s =
    (Done (Ok (filter is_kept (Str.strip <$> pre), Str.strip l)),
     with_stdout post s).
Proof.
  intros Hr Hout Hpre Hl. unfold _read_until_bestmove, budget.
  rewrite (AdapterSpec.read_until_bestmove_loop_returns pre _ [] s l post);
    try done.
  rewrite Hout, length_app, length_fmap. simpl. lia.
Qed.

Lemma with_lock_run {A} (body : M A) s r s1 :
  _lock (self s) = false ->
  body (emit_all [Acquire] (set_lock true s)) = (Done r, s1) ->
  with_lock body s = (Done r, emit_all [Release] (set_lock false s1)).
Proof. apply AdapterSpec.with_lock_done. Qed.

(** X13. [start] on an engine that answers. Without an old process to
    stop, with a spawn that gives an engine whose output holds a line
    starting with "uciok" and later one starting with "readyok", [start]
    returns; it has written "uci", one "setoption" per configured option in
    the order of [to_uci_options], and "isready", and nothing else; the
    adapter is ready with its three handles set, and the output after
    "readyok" is still pending. *)
Theorem start_succeeds s c pre1 l1 pre2 l2 post :
  _process (self s) = false ->
  spawns s = Some c ->
  stdin_lost c = false ->
  stdout c = (Bytes <$> pre1) ++ Bytes l1 :: (Bytes <$> pre2) ++ Bytes l2 :: post ->
  Forall (fun x => Str.startswith (Str.strip x) "uciok" = false) pre1 ->
  Str.startswith (Str.strip l1) "uciok" = true ->
  Forall (fun x => Str.startswith (Str.strip x) "readyok" = false) pre2 ->
  Str.startswith (Str.strip l2) "readyok" = true ->
  exists s',
    start s = (Done (Ok tt), s') /\
    self s' = {| config := config (self s); _process := true;
                 _reader := true; _writer := true; _lock := _lock (self s);
                 _is_ready := true |} /\
    stdout (child s') = post /\
    is_running s' = negb (exited c) /\
    log s' = log s ++
      writes ("uci" :: (setoption <$> to_uci_options (config (self s)))
                ++ ["isready"]).
Proof.
  intros Hp Hsp Hlost Hout Hpre1 Hl1 Hpre2 Hl2.
  rewrite start_unfold. unfold mbind, M_bind, bind, when. rewrite Hp.
  simpl. unfold handshake_steps.
  set (s1 := {| self := {| config := config (self s); _process := true;
                           _reader := true; _writer := true;
                           _lock := _lock (self s);
                           _is_ready := _is_ready (self s) |};
                child := c; spawns := None; log := log s |}).
  erewrite AdapterSpec.bind_ok
    by (unfold spawn; rewrite Hsp; reflexivity).
  fold s1.
  erewrite AdapterSpec.bind_ok by (by apply send_command_emits).
  erewrite AdapterSpec.bind_ok
    by (by apply (AdapterSpec.wait_for_returns "uciok" _ pre1 l1
                    ((Bytes <$> pre2) ++ Bytes l2 :: post))).
  rewrite AdapterSpec.bind_get.
  erewrite AdapterSpec.bind_ok by (by apply set_options_ok).
  erewrite AdapterSpec.bind_ok by (by apply send_command_emits).
  erewrite AdapterSpec.bind_ok
    by (by apply (AdapterSpec.wait_for_returns "readyok" _ pre2 l2 post)).
  eexists. split; [reflexivity|]. simpl.
  repeat split.
  unfold writes. rewrite ?fmap_app, <- ?app_assoc. simpl.
  by rewrite ?fmap_app, <- ?app_assoc.
Qed.

(** X14. [new_game] does not look at the readiness flag. Without a
    writer handle (a wrapper never started, or stopped) it takes the lock,
    raises the driver's "Stockfish non avviato", releases the lock and has
    written nothing. With its handles and an engine that answers, it writes
    "ucinewgame" and "isready", reads up to the line that starts with
    "readyok" and returns, the adapter unchanged. *)
Theorem new_game_cases s :
  (_lock (self s) = false -> _writer (self s) = false ->
   exists s',
     new_game s
       = (Done (Raised (RuntimeError "Stockfish non avviato")), s') /\
     self s' = self s /\ child s' = child s /\
     log s' = log s ++ [Acquire; Release]) /\
  (forall pre l post,
     _lock (self s) = false ->
     _writer (self s) = true ->
     _reader (self s) = true ->
     stdin_lost (child s) = false ->
     stdout (child s) = (Bytes <$> pre) ++ Bytes l :: post ->
     Forall (fun x => Str.startswith (Str.strip x) "readyok" = false) pre ->
     Str.startswith (Str.strip l) "readyok" = true ->
     exists s',
       new_game s = (Done (Ok tt), s') /\
       self s' = self s /\
       stdout (child s') = post /\
       log s' = log s ++ [Acquire] ++ writes ["ucinewgame"; "isready"]
                  ++ [Release]).
Proof.
  split.
  - intros Hl Hw. unfold new_game. eexists. split; [|split; [|split]].
    + apply with_lock_run; [done|].
      apply AdapterSpec.bind_raised. unfold _send_command.
      rewrite AdapterSpec.bind_get. simpl. rewrite Hw. reflexivity.
    + simpl. by apply AdapterSpec.set_lock_release.
    + done.
    + simpl. by rewrite <- app_assoc.
  - intros pre l post Hl Hw Hr Hlost Hout Hpre Hsent. unfold new_game.
    eexists. split; [|split; [|split]].
    + apply with_lock_run; [done|].
      erewrite AdapterSpec.bind_ok by (by apply send_command_emits).
      erewrite AdapterSpec.bind_ok by (by apply send_command_emits).
      erewrite AdapterSpec.bind_ok; [reflexivity|].
      by apply (AdapterSpec.wait_for_returns "readyok" _ pre l post).
    + simpl. by apply AdapterSpec.set_lock_release.
    + done.
    + simpl. by rewrite <- !app_assoc.
Qed.

Section Analysis.

Context (chess : PyChess) (wdl_floats : Z -> option (Z * Z)).

Local Abbreviation analyze_position :=
  (analyze_position chess wdl_floats).
Local Abbreviation _parse_analysis :=
  (Parser._parse_analysis chess wdl_floats).
Local Abbreviation analysis_body := (analysis_body chess wdl_floats).

Lemma other_multipv_config num_moves s s' :
  config (self s') = config (self s) ->
  other_multipv num_moves s' = other_multipv num_moves s.
Proof. unfold other_multipv. by intros ->. Qed.

Lemma analyze_position_run fen nodes depth time_ms num_moves s pre l
    post :
  _is_ready (self s) = true ->
  _lock (self s) = false ->
  _writer (self s) = true ->
  _reader (self s) = true ->
  stdin_lost (child s) = false ->
  stdout (child s) = (Bytes <$> pre) ++ Bytes l :: post ->
  Forall (fun x => Str.startswith (Str.strip x) "bestmove" = false) pre ->
  Str.startswith (Str.strip l) "bestmove" = true ->
  exists s',
    analyze_position fen nodes depth time_ms num_moves s
      = (Done (_parse_analysis fen (filter is_info (Str.strip <$> pre))
                 (Str.strip l)), s') /\
    self s' = self s /\
    stdout (child s') = post /\
    log s' = log s ++ [Acquire]
               ++ writes (multipv_before num_moves s
                          ++ [("position fen " ++ fen)%string;
                              go_command nodes depth time_ms]
                          ++ multipv_after num_moves s)
               ++ [Release].
Proof.
  intros Hrdy Hl Hw Hr Hlost Hout Hpre Hsent.
  rewrite <- (ParserMore.parse_analysis_kept chess wdl_floats).
  rewrite analyze_position_unfold. unfold Adapter2.analysis_body.
  unfold multipv_before, multipv_after.
  destruct (other_multipv num_moves s) as [n|] eqn:Hother.
  - eexists. split; [|split; [|split]].
    + apply with_lock_run; [done|].
      erewrite AdapterSpec.bind_ok by reflexivity.
      change (_is_ready (self (emit_all [Acquire] (set_lock true s))))
        with (_is_ready (self s)).
      rewrite Hrdy. cbn [negb].
      rewrite (other_multipv_config num_moves s _) by done. rewrite Hother.
      erewrite AdapterSpec.bind_ok by (by apply send_command_emits).
      erewrite AdapterSpec.bind_ok by (by apply send_command_emits).
      erewrite AdapterSpec.bind_ok by (by apply send_command_emits).
      erewrite AdapterSpec.bind_ok
        by (by apply (read_until_bestmove_returns _ pre l post)).
      cbv beta iota.
      erewrite AdapterSpec.bind_ok by reflexivity.
      rewrite (other_multipv_config num_moves s _) by done. rewrite Hother.
      erewrite AdapterSpec.bind_ok by (by apply send_command_emits).
      reflexivity.
    + simpl. by apply AdapterSpec.set_lock_release.
    + done.
    + simpl. by rewrite <- !app_assoc.
  - eexists. split; [|split; [|split]].
    + apply with_lock_run; [done|].
      erewrite AdapterSpec.bind_ok by reflexivity.
      change (_is_ready (self (emit_all [Acquire] (set_lock true s))))
        with (_is_ready (self s)).
      rewrite Hrdy. cbn [negb].
      rewrite (other_multipv_config num_moves s _) by done. rewrite Hother.
      erewrite AdapterSpec.bind_ok by reflexivity.
      erewrite AdapterSpec.bind_ok by (by apply send_command_emits).
      erewrite AdapterSpec.bind_ok by (by apply send_command_emits).
      erewrite AdapterSpec.bind_ok
        by (by apply (read_until_bestmove_returns _ pre l post)).
      cbv beta iota.
      erewrite AdapterSpec.bind_ok by reflexivity.
      rewrite (other_multipv_config num_moves s _) by done. rewrite Hother.
      erewrite AdapterSpec.bind_ok by reflexivity.
      reflexivity.
    + simpl. by apply AdapterSpec.set_lock_release.
    + done.
    + simpl. by rewrite <- !app_assoc.
Qed.

(** X15. [analyze_position] on a ready adapter whose engine answers with
    a line starting with "bestmove". The call returns what the parser makes
    of the FEN and of the earlier output lines that start with "info" (the
    other lines are dropped by the driver, or skipped by the parser), so a
    parser error is the call's error. It has written, in order, the MultiPV
    command when the requested count differs from the configured one, the
    position, the search command, and the MultiPV command that puts the
    configured value back; the adapter is unchanged and the output after the
    bestmove line is still pending. *)
Theorem analyze_position_returns fen nodes depth time_ms num_moves s pre l
    post :
  _is_ready (self s) = true ->
  _lock (self s) = false ->
  _writer (self s) = true ->
  _reader (self s) = true ->
  stdin_lost (child s) = false ->
  stdout (child s) = (Bytes <$> pre) ++ Bytes l :: post ->
  Forall (fun x => Str.startswith (Str.strip x) "bestmove" = false) pre ->
  Str.startswith (Str.strip l) "bestmove" = true ->
  exists s',
    analyze_position fen nodes depth time_ms num_moves s
      = (Done (_parse_analysis fen (filter is_info (Str.strip <$> pre))
                 (Str.strip l)), s') /\
    self s' = self s /\
    stdout (child s') = post /\
    log s' = log s ++ [Acquire]
               ++ writes (multipv_before num_moves s
                          ++ [("position fen " ++ fen)%string;
                              go_command nodes depth time_ms]
                          ++ multipv_after num_moves s)
               ++ [Release].
Proof. apply analyze_position_run. Qed.

End Analysis.

(** X16. The search command. An explicit depth wins over a time limit,
    which wins over a node budget; with nothing given the depth is 20. A
    node budget alone is turned into a depth between 15 and 30: 10 plus one
    per 100000 nodes, never less than 15 (up to 599999 nodes, negative
    budgets included) and never more than 30 (from 2000000 nodes on), and
    the depth does not decrease when the budget grows. *)
Theorem go_command_depth :
  (forall nodes depth time_ms,
     go_command nodes (Some depth) time_ms
     = ("go depth " ++ Str.of_int depth)%string) /\
  (forall nodes time_ms,
     go_command nodes None (Some time_ms)
     = ("go movetime " ++ Str.of_int time_ms)%string) /\
  go_command None None None = "go depth 20" /\
  (forall nodes, exists d,
     go_command (Some nodes) None None
       = ("go depth " ++ Str.of_int d)%string /\
     15 <= d <= 30 /\
     (nodes < 600000 -> d = 15) /\
     (500000 <= nodes < 2100000 -> d = 10 + nodes / 100000) /\
     (2000000 <= nodes -> d = 30) /\
     (forall nodes', nodes <= nodes' -> exists d',
        go_command (Some nodes') None None
          = ("go depth " ++ Str.of_int d')%string /\ d <= d')).
Proof.
  split; [done|]. split; [done|]. split; [done|].
  intros nodes.
  exists (Z.max 15 (Z.min 30 (10 + nodes / 100000))).
  split; [done|].
  assert (forall n, n < 600000 -> n / 100000 < 6) as Hlt
    by (intros n ?; apply Z.div_lt_upper_bound; lia).
  assert (forall n, 500000 <= n -> 5 <= n / 100000) as Hge5
    by (intros n ?; apply Z.div_le_lower_bound; lia).
  assert (forall n, n < 2100000 -> n / 100000 < 21) as Hlt21
    by (intros n ?; apply Z.div_lt_upper_bound; lia).
  assert (forall n, 2000000 <= n -> 20 <= n / 100000) as Hge20
    by (intros n ?; apply Z.div_le_lower_bound; lia).
  split; [lia|]. split; [intros H%Hlt; lia|].
  split; [intros [H1%Hge5 H2%Hlt21]; lia|].
  split; [intros H%Hge20; lia|].
  intros nodes' Hle.
  exists (Z.max 15 (Z.min 30 (10 + nodes' / 100000))). split; [done|].
  assert (nodes / 100000 <= nodes' / 100000)
    by (apply Z.div_le_mono; lia).
  lia.
Qed.

(** ** The driver's own errors *)

Lemma with_lock_raised {A} (body : M A) s e s' :
  with_lock body s = (Done (Raised e), s') ->
  exists s1, body (emit Acquire (set_lock true s)) = (Done (Raised e), s1).
Proof.
  unfold with_lock. destruct (_lock (self s)); [done|].
  destruct (body _) as [[r|] s1]; [|done]. intros [= -> _]. eauto.
Qed.

(** A step of the driver on an adapter that has its handles. *)
Lemma triple_driver {A} (m : M A) (E : option exn -> state -> Prop) :
  (forall s r s', m s = (r, s') -> self s' = self s) ->
  (forall s e s',
     _writer (self s) = true /\ _reader (self s) = true ->
     m s = (Done (Raised e), s') ->
     e = ConnectionError \/ e = UnicodeDecodeError) ->
  (forall s, E (Some ConnectionError) s) ->
  (forall s, E (Some UnicodeDecodeError) s) ->
  (forall s, E None s) ->
  triple (fun s => _writer (self s) = true /\ _reader (self s) = true) m
    (fun _ s => _writer (self s) = true /\ _reader (self s) = true) E.
Proof.
  intros Hm HX HC HU HN.
  apply (triple_step m
           (fun w => _writer w = true /\ _reader w = true)
           (fun e => e = ConnectionError \/ e = UnicodeDecodeError));
    try done.
  by intros e s _ [-> | ->].
Qed.

Lemma triple_send command (E : option exn -> state -> Prop) :
  (forall s, E (Some ConnectionError) s) ->
  (forall s, E (Some UnicodeDecodeError) s) ->
  (forall s, E None s) ->
  triple (fun s => _writer (self s) = true /\ _reader (self s) = true)
    (_send_command command)
    (fun _ s => _writer (self s) = true /\ _reader (self s) = true) E.
Proof.
  apply triple_driver; [apply send_self|].
  intros s e s' [Hw _] Hrun. left. by eapply send_command_raises.
Qed.

Lemma triple_wait expected (E : option exn -> state -> Prop) :
  (forall s, E (Some ConnectionError) s) ->
  (forall s, E (Some UnicodeDecodeError) s) ->
  (forall s, E None s) ->
  triple (fun s => _writer (self s) = true /\ _reader (self s) = true)
    (_wait_for expected)
    (fun _ s => _writer (self s) = true /\ _reader (self s) = true) E.
Proof.
  apply triple_driver; [apply wait_for_self|].
  intros s e s' [_ Hr] Hrun. right. by eapply wait_for_raises.
Qed.

Lemma triple_read_until (E : option exn -> state -> Prop) :
  (forall s, E (Some ConnectionError) s) ->
  (forall s, E (Some UnicodeDecodeError) s) ->
  (forall s, E None s) ->
  triple (fun s => _writer (self s) = true /\ _reader (self s) = true)
    _read_until_bestmove
    (fun _ s => _writer (self s) = true /\ _reader (self s) = true) E.
Proof.
  apply triple_driver; [apply read_until_bestmove_self|].
  intros s e s' [_ Hr] Hrun. right. by eapply read_until_bestmove_raises.
Qed.

(** X17. On an adapter with its handles, the driver's own errors are not
    raised. [is_ready] and [new_game] never raise a [RuntimeError], and
    when [analyze_position] on a ready adapter raises one, it is the
    parser's: the driver raises neither "Stockfish non avviato" nor
    "Stockfish non pronto". *)
Theorem no_driver_error s :
  _writer (self s) = true ->
  _reader (self s) = true ->
  (forall msg, fst (is_ready s) <> Done (Raised (RuntimeError msg))) /\
  (forall msg, fst (new_game s) <> Done (Raised (RuntimeError msg))) /\
  (forall chess wdl_floats fen nodes depth time_ms num_moves msg,
     _is_ready (self s) = true ->
     fst (analyze_position chess wdl_floats fen nodes depth time_ms
            num_moves s) = Done (Raised (RuntimeError msg)) ->
     exists info_lines bestmove_line,
       Parser._parse_analysis chess wdl_floats fen info_lines bestmove_line
       = Raised (RuntimeError msg)).
Proof.
  intros Hw Hr.
  set (E0 := fun (x : option exn) (_ : state) =>
               match x with
               | Some e => forall msg, e <> RuntimeError msg
               | None => True
               end).
  assert (forall st, _writer (self (emit Acquire (set_lock true st)))
                     = _writer (self st)) as HwL by done.
  assert (forall st, _reader (self (emit Acquire (set_lock true st)))
                     = _reader (self st)) as HrL by done.
  split; [|split].
  - intros msg. unfold is_ready. rewrite AdapterSpec.bind_get.
    destruct (negb (_is_ready (self s))); [done|].
    destruct (with_lock _ s) as [r s'] eqn:Hrun. simpl. intros ->.
    apply with_lock_raised in Hrun as [s1 Hrun].
    assert (triple
              (fun s => _writer (self s) = true /\ _reader (self s) = true)
              (_send_command "isready" ;; _wait_for "readyok" ;; ret true)
              (fun _ _ => True) E0) as Ht.
    { eapply triple_bind; [by apply triple_send|]. intros ?.
      eapply triple_bind; [by apply triple_wait|]. intros ?.
      by intros st r st' _ [= <- <-]. }
    specialize (Ht (emit Acquire (set_lock true s)) _ _ (conj Hw Hr) Hrun). simpl in Ht. by eapply Ht.
  - intros msg. unfold new_game.
    destruct (with_lock _ s) as [r s'] eqn:Hrun. simpl. intros ->.
    apply with_lock_raised in Hrun as [s1 Hrun].
    assert (triple
              (fun s => _writer (self s) = true /\ _reader (self s) = true)
              (_send_command "ucinewgame" ;; _send_command "isready" ;;
               _wait_for "readyok" ;; ret tt)
              (fun _ _ => True) E0) as Ht.
    { eapply triple_bind; [by apply triple_send|]. intros ?.
      eapply triple_bind; [by apply triple_send|]. intros ?.
      eapply triple_bind; [by apply triple_wait|]. intros ?.
      by intros st r st' _ [= <- <-]. }
    specialize (Ht (emit Acquire (set_lock true s)) _ _ (conj Hw Hr) Hrun). simpl in Ht. by eapply Ht.
  - intros chess wdl_floats fen nodes depth time_ms num_moves msg Hrdy.
    rewrite analyze_position_unfold.
    destruct (with_lock _ s) as [r s'] eqn:Hrun. simpl. intros ->.
    apply with_lock_raised in Hrun as [s1 Hrun].
    unfold analysis_body in Hrun. rewrite AdapterSpec.bind_get in Hrun.
    change (_is_ready (self (emit Acquire (set_lock true s))))
      with (_is_ready (self s)) in Hrun.
    rewrite Hrdy in Hrun. cbn [negb] in Hrun.
    set (E1 := fun (x : option exn) (_ : state) =>
                 match x with
                 | Some e =>
                     (forall msg, e <> RuntimeError msg) \/
                     exists info_lines bestmove_line,
                       Parser._parse_analysis chess wdl_floats fen info_lines
                         bestmove_line = Raised e
                 | None => True
                 end).
    match type of Hrun with ?m _ = _ =>
      assert (triple
                (fun s => _writer (self s) = true /\ _reader (self s) = true)
                m (fun _ _ => True) E1) as Ht
    end.
    { eapply triple_bind.
      { destruct (other_multipv num_moves _).
        - apply triple_send; try done; by left.
        - apply triple_ret. }
      intros ?. eapply triple_bind; [apply triple_send; try done; by left|].
      intros ?. eapply triple_bind; [apply triple_send; try done; by left|].
      intros ?.
      eapply triple_bind; [apply triple_read_until; try done; by left|].
      intros [info_lines bestmove_line].
      eapply triple_bind; [apply triple_get|]. intros s0.
      apply triple_bind with (Q := fun _ _ => True).
      { intros st r st' [_ HI] Hrun'.
        destruct (other_multipv num_moves s0).
        - assert (triple
                    (fun s => _writer (self s) = true /\ _reader (self s) = true)
                    (_send_command
                       ("setoption name MultiPV value "
                        ++ Str.of_int (multipv (config (self s0))))%string)
                    (fun _ s => _writer (self s) = true /\ _reader (self s) = true)
                    E1) as Hsend
            by (apply triple_send; try done; by left).
          specialize (Hsend st r st' HI Hrun').
          by destruct r as [[?|?]|].
        - by injection Hrun' as <- <-. }
      intros ? st r st' _ [= <- <-].
      destruct (Parser._parse_analysis _ _ _ _ _) as [pa|e] eqn:Hpa;
        [done|]. right. eauto. }
    specialize (Ht (emit Acquire (set_lock true s)) _ _ (conj Hw Hr) Hrun). simpl in Ht.
    destruct Ht as [Hne|Hparse]; [by destruct (Hne msg)|done].
Qed.

End AdapterFacts.
(** * Properties of the service *)

Module ServiceFacts.
Import Adapter Adapter2 Vocabulary Service.
Local Open Scope list_scope.

Section DictFacts.

Context {K V : Type} `{EqDecision K}.
Implicit Types (d : list (K * V)).

Lemma get_set_eq k v d : Dict.get k (Dict.set k v d) = Some v.
Proof.
  induction d as [|[k' v'] d IH]; simpl; [by rewrite decide_True|].
  destruct (decide (k' = k)); simpl;
    [by rewrite decide_True | by rewrite decide_False].
Qed.

Lemma get_set_ne k k' v d :
  k <> k' -> Dict.get k' (Dict.set k v d) = Dict.get k' d.
Proof.
  intros Hne. induction d as [|[k0 v0] d IH]; simpl.
  - by rewrite decide_False.
  - destruct (decide (k0 = k)) as [->|Hk]; simpl.
    + by rewrite !decide_False.
    + by destruct (decide (k0 = k')).
Qed.

Lemma get_None k d : Dict.get k d = None <-> k ∉ Dict.keys d.
Proof.
  unfold Dict.keys. induction d as [|[k0 v0] d IH]; simpl.
  - split; [intros _; apply not_elem_of_nil | done].
  - rewrite not_elem_of_cons. destruct (decide (k0 = k)) as [->|Hk].
    + split; [done | by intros [? _]].
    + rewrite IH. split; [by intros ? | by intros [_ ?]].
Qed.

Lemma get_Some k v d : Dict.get k d = Some v -> (k, v) ∈ d.
Proof.
  induction d as [|[k0 v0] d IH]; simpl; [done|].
  destruct (decide (k0 = k)) as [->|Hk].
  - intros [= ->]. by left.
  - intros H'. right. by apply IH.
Qed.

Lemma keys_set k v d :
  Dict.keys (Dict.set k v d) =
  match Dict.get k d with
  | Some _ => Dict.keys d
  | None => Dict.keys d ++ [k]
  end.
Proof.
  unfold Dict.keys. induction d as [|[k0 v0] d IH]; [done|].
  cbn [Dict.set Dict.get].
  destruct (decide (k0 = k)) as [->|Hk]; [done|].
  rewrite fmap_cons, IH. by destruct (Dict.get k d).
Qed.

Lemma keys_set_NoDup k v d :
  NoDup (Dict.keys d) -> NoDup (Dict.keys (Dict.set k v d)).
Proof.
  intros Hd. rewrite keys_set. destruct (Dict.get k d) eqn:Hg; [done|].
  apply NoDup_app. split; [done|]. split; [|apply NoDup_singleton].
  intros x Hx ->%list_elem_of_singleton. by apply get_None in Hg.
Qed.

End DictFacts.

Lemma EngineType_of_schema (t : Schema.EngineType) :
  exists engine_enum,
    EngineType_of (Schema.value t) = Ok engine_enum /\
    value engine_enum = Schema.value t.
Proof. destruct t; eexists; split; reflexivity. Qed.

Lemma value_inj t t' : value t = value t' -> t = t'.
Proof. by destruct t, t'. Qed.

Lemma EngineType_of_value t : EngineType_of (value t) = Ok t.
Proof. by destruct t. Qed.

Section Registry.

Context {W : Type} (str_of_exn : exn -> string).
Implicit Types (_engines : list (EngineType * BaseEngine W)).

Lemma get_engine_value t engine_enum _engines :
  Schema.value t = value engine_enum ->
  get_engine t _engines =
  match Dict.get engine_enum _engines with
  | Some e => Reply e
  | None =>
      HTTPException 503
        ("Engine '" ++ Schema.value t ++ "' not available")%string
  end.
Proof.
  intros Hv. unfold get_engine. by rewrite Hv, EngineType_of_value.
Qed.

(** X18. The registry of [api/routes.py] is a map from the engine types
    to the engines. A lookup never fails on the conversion between the two
    enumerations: it gives the engine stored for the type of the same
    value, or the error 503 that names the type when nothing is stored.
    Registering an engine makes it the one the lookup gives, whatever was
    registered for its type before; the lookups of the other types are not
    touched; and the list of available engines keeps its order and stays
    free of duplicates, the type going to the end when it is new. *)
Theorem registry_lookup _engines (engine_enum : EngineType)
    (engine : BaseEngine W) :
  (forall t,
     exists t', value t' = Schema.value t /\
       get_engine t _engines =
       match Dict.get t' _engines with
       | Some e => Reply e
       | None =>
           HTTPException 503
             ("Engine '" ++ Schema.value t ++ "' not available")%string
       end) /\
  (forall t, Schema.value t = value engine_enum ->
     get_engine t (register_engine engine_enum engine _engines)
       = Reply engine) /\
  (forall t, Schema.value t <> value engine_enum ->
     get_engine t (register_engine engine_enum engine _engines)
       = get_engine t _engines) /\
  get_available_engines (register_engine engine_enum engine _engines) =
    (if registered engine_enum _engines
     then get_available_engines _engines
     else get_available_engines _engines ++ [engine_enum]) /\
  (NoDup (get_available_engines _engines) ->
   NoDup (get_available_engines
            (register_engine engine_enum engine _engines))).
Proof.
  repeat split.
  - intros t. destruct (EngineType_of_schema t) as (t' & Ht & Hv).
    exists t'. split; [done|]. by apply get_engine_value.
  - intros t Hv. rewrite (get_engine_value t engine_enum) by done.
    unfold register_engine. by rewrite get_set_eq.
  - intros t Hv. destruct (EngineType_of_schema t) as (t' & Ht & Hv').
    rewrite !(get_engine_value t t') by done.
    unfold register_engine. rewrite get_set_ne; [done|].
    intros ->. by rewrite Hv' in Hv.
  - unfold get_available_engines, register_engine, registered.
    rewrite keys_set. by destruct (Dict.get engine_enum _engines).
  - unfold get_available_engines, register_engine. apply keys_set_NoDup.
Qed.

(** X19. What [POST /analyze] can answer. No exception of the engine or
    of the handler escapes: the answer is a response, the error 503, the
    error 500, or nothing while the engine does not return. The error 503
    is given exactly when no engine is registered for the requested type,
    and then no engine has been called. Otherwise the registered engine is
    called once, with the requested number of moves and no time limit:
    Stockfish with a depth (the requested one, 20 when there is none) and
    no node count, the others with the requested node count and no depth.
    An analysis that raises is answered with the error 500 carrying the
    text of the exception; one that returns is answered with its own
    position, evaluation, node count, time and depth, the value of the
    requested engine type, and its candidates in the same order, each with
    its move, score and rank and its three WDL values. *)
Theorem analyze_route_cases (request : AnalyzeRequest) _engines (w : W) r w' :
  analyze_position str_of_exn request _engines w = (r, w') ->
  exists engine_type,
    value engine_type = Schema.value (req_engine request) /\
    match Dict.get engine_type _engines with
    | None =>
        w' = w /\
        r = HTTPException 503
              ("Engine '" ++ Schema.value (req_engine request)
               ++ "' not available")%string
    | Some engine =>
        exists nodes depth o,
          be_analyze_position engine (req_fen request) nodes depth None
            (Some (req_num_moves request)) w = (o, w') /\
          (nodes, depth) =
            (if decide (engine_type = STOCKFISH)
             then (None, Some (or_20 (req_depth request)))
             else (Some (req_nodes request), None)) /\
          match o with
          | Done (Ok analysis) =>
              exists response,
                r = Reply response /\
                AnalyzeResponse.fen response = PositionAnalysis.fen analysis /\
                AnalyzeResponse.engine response
                  = Schema.value (req_engine request) /\
                AnalyzeResponse.evaluation_cp response
                  = PositionAnalysis.evaluation_cp analysis /\
                AnalyzeResponse.total_nodes response
                  = PositionAnalysis.total_nodes analysis /\
                AnalyzeResponse.time_ms response
                  = PositionAnalysis.time_ms analysis /\
                AnalyzeResponse.depth response
                  = PositionAnalysis.depth analysis /\
                Forall2
                  (fun c c' =>
                     MoveCandidateResponse.move c' = MoveCandidate.move c /\
                     MoveCandidateResponse.move_san c'
                       = MoveCandidate.move_san c /\
                     MoveCandidateResponse.score_cp c'
                       = MoveCandidate.score_cp c /\
                     MoveCandidateResponse.rank c' = MoveCandidate.rank c /\
                     exists win draw loss,
                       MoveCandidate.score_wdl c = (win, draw, loss) /\
                       MoveCandidateResponse.score_wdl c' = [win; draw; loss])
                  (PositionAnalysis.candidates analysis)
                  (AnalyzeResponse.candidates response)
          | Done (Raised e) =>
              r = HTTPException 500
                    ("Analysis failed: " ++ str_of_exn e)%string
          | Hangs => r = NoReply
          end
    end.
Proof.
  intros Hrun. unfold analyze_position in Hrun.
  destruct (EngineType_of_schema (req_engine request)) as (t & Ht & Hv).
  exists t. split; [done|].
  rewrite Ht, (get_engine_value _ t) in Hrun by done.
  destruct (Dict.get t _engines) as [engine|].
  2: { injection Hrun as <- <-. done. }
  destruct (decide (t = STOCKFISH)) as [->|Hne].
  - destruct (be_analyze_position engine (req_fen request) None
                (Some (or_20 (req_depth request))) None
                (Some (req_num_moves request)) w) as [o w1] eqn:Hcall.
    exists None, (Some (or_20 (req_depth request))), o.
    destruct o as [[analysis|e]|]; injection Hrun as <- <-;
      (split; [done|]); (split; [done|]); [|done|done].
    eexists. split; [done|]. repeat split; try done.
    simpl. apply Forall2_fmap_r, Forall_Forall2_diag, Forall_forall.
    intros c _. repeat split.
    destruct (MoveCandidate.score_wdl c) as [[win draw] loss] eqn:Hwdl.
    exists win, draw, loss. split; [done|]. simpl. by rewrite Hwdl.
  - destruct (be_analyze_position engine (req_fen request)
                (Some (req_nodes request)) None None
                (Some (req_num_moves request)) w) as [o w1] eqn:Hcall.
    exists (Some (req_nodes request)), None, o.
    destruct o as [[analysis|e]|]; injection Hrun as <- <-;
      (split; [done|]); (split; [done|]); [|done|done].
    eexists. split; [done|]. repeat split; try done.
    simpl. apply Forall2_fmap_r, Forall_Forall2_diag, Forall_forall.
    intros c _. repeat split.
    destruct (MoveCandidate.score_wdl c) as [[win draw] loss] eqn:Hwdl.
    exists win, draw, loss. split; [done|]. simpl. by rewrite Hwdl.
Qed.

(** The probes of [health_check] do not raise. *)
Lemma probe_cases t _engines (w : W) o w' :
  probe t _engines w = (o, w') ->
  match o with
  | Done (Ok b) =>
      match Dict.get t _engines with
      | None => b = false /\ w' = w
      | Some e =>
          (exists b', be_is_ready e w = (Done (Ok b'), w') /\ b = b') \/
          (exists x, be_is_ready e w = (Done (Raised x), w') /\ b = false)
      end
  | Done (Raised _) => False
  | Hangs => exists e, Dict.get t _engines = Some e /\
                       be_is_ready e w = (Hangs, w')
  end.
Proof.
  unfold probe. destruct (Dict.get t _engines) as [e|].
  - destruct (be_is_ready e w) as [[[b|x]|] w1] eqn:Hr; intros [= <- <-].
    + left. by exists b.
    + right. by exists x.
    + by exists e.
  - by intros [= <- <-].
Qed.

(** X20. [GET /health] always answers when the engines do: an engine
    whose [is_ready] raises is reported as not ready and the others are
    still asked, in the order LC0, Stockfish, Maia. The answer lists these
    three, LC0 as enabled and the other two as the settings say; an engine
    is reported ready only when it is registered and its [is_ready] has
    returned true; and the status is "healthy" when at least one is
    reported ready and "degraded" otherwise. *)
Theorem health_check_cases (settings : Settings) _engines (w : W) r w' :
  health_check settings _engines w = (r, w') ->
  match r with
  | Done (Ok h) =>
      status_name <$> engines h = ["lc0"; "stockfish"; "maia"]%string /\
      enabled <$> engines h =
        [true; stockfish_enabled settings; maia_enabled settings] /\
      (exists w1 w2 b1 b2 b3,
         ready <$> engines h = [b1; b2; b3] /\
         probe LC0 _engines w = (Done (Ok b1), w1) /\
         probe STOCKFISH _engines w1 = (Done (Ok b2), w2) /\
         probe MAIA _engines w2 = (Done (Ok b3), w')) /\
      (forall st, st ∈ engines h -> ready st = true ->
         exists t e w0 w1,
           value t = status_name st /\ Dict.get t _engines = Some e /\
           be_is_ready e w0 = (Done (Ok true), w1)) /\
      ((exists st, st ∈ engines h /\ ready st = true) ->
       status h = "healthy"%string) /\
      ((forall st, st ∈ engines h -> ready st = false) ->
       status h = "degraded"%string)
  | Done (Raised _) => False
  | Hangs =>
      exists t e w0, Dict.get t _engines = Some e /\
                     be_is_ready e w0 = (Hangs, w')
  end.
Proof.
  unfold health_check. intros Hrun.
  destruct (probe LC0 _engines w) as [o1 w1] eqn:H1.
  pose proof (probe_cases _ _ _ _ _ H1) as P1.
  destruct o1 as [[b1|x]|]; [|done|].
  2: { injection Hrun as <- <-. destruct P1 as (e & ? & ?).
       by exists LC0, e, w. }
  destruct (probe STOCKFISH _engines w1) as [o2 w2] eqn:H2.
  pose proof (probe_cases _ _ _ _ _ H2) as P2.
  destruct o2 as [[b2|x]|]; [|done|].
  2: { injection Hrun as <- <-. destruct P2 as (e & ? & ?).
       by exists STOCKFISH, e, w1. }
  destruct (probe MAIA _engines w2) as [o3 w3] eqn:H3.
  pose proof (probe_cases _ _ _ _ _ H3) as P3.
  destruct o3 as [[b3|x]|]; [|done|].
  2: { injection Hrun as <- <-. destruct P3 as (e & ? & ?).
       by exists MAIA, e, w2. }
  injection Hrun as <- <-. cbn [status engines].
  split; [done|]. split; [done|]. split.
  { by exists w1, w2, b1, b2, b3. }
  assert (forall t (wa wb : W) b,
            match Dict.get t _engines with
            | None => b = false /\ wb = wa
            | Some e =>
                (exists b', be_is_ready e wa = (Done (Ok b'), wb) /\ b = b') \/
                (exists x, be_is_ready e wa = (Done (Raised x), wb) /\
                           b = false)
            end ->
            b = true ->
            exists e w0 w1, Dict.get t _engines = Some e /\
                            be_is_ready e w0 = (Done (Ok true), w1)) as Hready.
  { intros t wa wb b Hp ->. destruct (Dict.get t _engines) as [e|].
    - destruct Hp as [(b' & Hr & <-)|(x & _ & ?)]; [|done].
      by exists e, wa, wb.
    - by destruct Hp. }
  split; [|split].
  - intros st Hst Hr.
    apply elem_of_cons in Hst as [->|Hst]; simpl in Hr.
    { destruct (Hready _ _ _ _ P1 Hr) as (e & w0 & w4 & ? & ?).
      by exists LC0, e, w0, w4. }
    apply elem_of_cons in Hst as [->|Hst]; simpl in Hr.
    { destruct (Hready _ _ _ _ P2 Hr) as (e & w0 & w4 & ? & ?).
      by exists STOCKFISH, e, w0, w4. }
    apply elem_of_cons in Hst as [->|Hst]; simpl in Hr.
    { destruct (Hready _ _ _ _ P3 Hr) as (e & w0 & w4 & ? & ?).
      by exists MAIA, e, w0, w4. }
    by apply elem_of_nil in Hst.
  - intros (st & Hst & Hr). simpl.
    apply elem_of_cons in Hst as [->|Hst]; simpl in Hr.
    { by rewrite Hr. }
    apply elem_of_cons in Hst as [->|Hst]; simpl in Hr.
    { rewrite Hr. by destruct b1. }
    apply elem_of_cons in Hst as [->|Hst]; simpl in Hr.
    { rewrite Hr. by destruct b1, b2. }
    by apply elem_of_nil in Hst.
  - intros Hall.
    assert (b1 = false) as ->.
    { apply (Hall {| status_name := "lc0"; ready := b1; enabled := true |}).
      by left. }
    assert (b2 = false) as ->.
    { apply (Hall {| status_name := "stockfish"; ready := b2;
                     enabled := stockfish_enabled settings |}).
      right. by left. }
    assert (b3 = false) as ->.
    { apply (Hall {| status_name := "maia"; ready := b3;
                     enabled := maia_enabled settings |}).
      right. right. by left. }
    done.
Qed.

(** X21. The shutdown loop of [lifespan] does not raise, and an engine
    whose [stop] raises does not keep the later ones from being stopped:
    the loop ends only when [stop] has been called on every engine of the
    registry, in the order of registration, each from the world the
    previous one left, unless a [stop] never returns. *)
Theorem shutdown_cases _engines (w : W) r w' :
  shutdown _engines w = (r, w') ->
  match r with
  | Done (Ok _) =>
      w' = stopped _engines w /\
      forall pre t e post, _engines = pre ++ (t, e) :: post ->
        exists o, be_stop e (stopped pre w)
                  = (Done o, stopped (pre ++ [(t, e)]) w)
  | Done (Raised _) => False
  | Hangs =>
      exists pre t e post,
        _engines = pre ++ (t, e) :: post /\
        be_stop e (stopped pre w) = (Hangs, w')
  end.
Proof.
  unfold stopped, Dict.values. revert w.
  induction _engines as [|[t e] rest IH]; intros w; simpl.
  - intros [= <- <-]. split; [done|].
    intros pre t e post Heq. by destruct pre.
  - destruct (be_stop e w) as [[o|] w1] eqn:Hstop.
    + intros Hrun. specialize (IH _ Hrun).
      destruct r as [[[]|x]|]; [|done|].
      * destruct IH as [-> IH]. split; [done|].
        intros pre t0 e0 post Heq. destruct pre as [|[t1 e1] pre].
        -- injection Heq as <- <- <-. exists o. simpl. by rewrite Hstop.
        -- injection Heq as <- <- ->. simpl. rewrite Hstop. simpl.
           by apply (IH pre t0 e0 post).
      * destruct IH as (pre & t0 & e0 & post & -> & Hh).
        exists ((t, e) :: pre), t0, e0, post. split; [done|].
        simpl. by rewrite Hstop.
    + intros [= <- <-]. exists [], t, e, rest. by split.
Qed.

(** What one [try] block of the start-up does. *)
Lemma optional_engine_cases wanted t (engine : BaseEngine W) regs w o w' :
  optional_engine wanted t engine regs w = (o, w') ->
  match o with
  | Some regs' =>
      (regs' = (Dict.set t engine (fst regs),
                register_engine t engine (snd regs)) /\
       wanted = true /\ exists u, be_start engine w = (Done (Ok u), w')) \/
      (regs' = regs /\
       (wanted = false /\ w' = w \/
        exists x, be_start engine w = (Done (Raised x), w')))
  | None => be_start engine w = (Hangs, w')
  end.
Proof.
  unfold optional_engine, start_and_register. destruct wanted.
  - destruct (be_start engine w) as [[[u|x]|] w1]; intros [= <- <-].
    + left. split; [done|]. split; [done|]. by exists u.
    + right. split; [done|]. right. by exists x.
    + done.
  - intros [= <- <-]. right. split; [done|]. by left.
Qed.

(** X22. The start-up part of [lifespan], from the empty registries. The
    service comes up only with LC0 started and registered; when LC0 fails
    to start the process exits with code 1 and no other engine has been
    started. Maia and Stockfish are registered only when they are enabled,
    their file exists and their [start] has returned; a failure to start
    one of them does not stop the service. The two registries hold the
    same engines, in the order LC0, Maia, Stockfish, and [GET /engines]
    reports as available exactly the registered engines. *)
Theorem startup_cases (lc0_engine maia_engine stockfish_engine : BaseEngine W)
    (settings : Settings) (maia_network_exists stockfish_path_exists : bool)
    (w : W) b w' :
  startup lc0_engine maia_engine stockfish_engine settings
    maia_network_exists stockfish_path_exists ([], []) w = (b, w') ->
  match b with
  | Serving main_engines routes_engines =>
      main_engines = routes_engines /\
      (exists u w1, be_start lc0_engine w = (Done (Ok u), w1)) /\
      Dict.get LC0 routes_engines = Some lc0_engine /\
      (forall e, Dict.get MAIA routes_engines = Some e ->
         e = maia_engine /\ maia_enabled settings = true /\
         maia_network_exists = true /\
         exists u w0 w1, be_start maia_engine w0 = (Done (Ok u), w1)) /\
      (forall e, Dict.get STOCKFISH routes_engines = Some e ->
         e = stockfish_engine /\ stockfish_enabled settings = true /\
         stockfish_path_exists = true /\
         exists u w0, be_start stockfish_engine w0 = (Done (Ok u), w')) /\
      get_available_engines routes_engines =
        LC0 :: (if registered MAIA routes_engines then [MAIA] else [])
            ++ (if registered STOCKFISH routes_engines
                then [STOCKFISH] else []) /\
      list_engines settings routes_engines =
        [ ("lc0"%string, true);
          ("stockfish"%string, registered STOCKFISH routes_engines);
          ("maia"%string, registered MAIA routes_engines) ]
  | SystemExit code =>
      code = 1 /\ exists x, be_start lc0_engine w = (Done (Raised x), w')
  | Starting =>
      exists e w0, e ∈ [lc0_engine; maia_engine; stockfish_engine] /\
                   be_start e w0 = (Hangs, w')
  end.
Proof.
  unfold startup. unfold start_and_register at 1.
  destruct (be_start lc0_engine w) as [[[u|x]|] w1] eqn:Hlc0; simpl.
  2: { intros [= <- <-]. split; [done|]. by exists x. }
  2: { intros [= <- <-]. exists lc0_engine, w. split; [by left | done]. }
  destruct (optional_engine (maia_enabled settings && maia_network_exists)
              MAIA maia_engine _ w1) as [o2 w2] eqn:H2.
  pose proof (optional_engine_cases _ _ _ _ _ _ _ H2) as P2.
  destruct o2 as [regs2|].
  2: { intros [= <- <-]. exists maia_engine, w1.
       split; [right; by left | done]. }
  destruct (optional_engine
              (stockfish_enabled settings && stockfish_path_exists)
              STOCKFISH stockfish_engine regs2 w2) as [o3 w3] eqn:H3.
  pose proof (optional_engine_cases _ _ _ _ _ _ _ H3) as P3.
  destruct o3 as [regs3|].
  2: { intros [= <- <-]. exists stockfish_engine, w2.
       split; [right; right; by left | done]. }
  intros [= <- <-].
  assert (exists u0 w0, be_start lc0_engine w = (Done (Ok u0), w0)) as Hl
    by (by exists u, w1).
  destruct P2 as [(-> & [Hm Hmx]%andb_prop & (u2 & Hs2))|(-> & P2)];
    destruct P3 as [(-> & [Hs Hsx]%andb_prop & (u3 & Hs3))|(-> & P3)];
    unfold register_engine, get_available_engines, list_engines, registered;
    simpl; rewrite ?Hm, ?Hs; simpl.
  all: split_and!; try done; eauto.
  all: intros e [= <-]; split_and!; try done; eauto.
Qed.

End Registry.

Section StockfishRoute.

Context (chess : PyChess) (wdl_floats : Z -> option (Z * Z)).
Context (str_of_exn : exn -> string).

(** X23. A valid request for Stockfish, on a ready adapter whose engine
    answers with a bestmove line. The search command the engine receives
    is "go depth d" with d the requested depth, or 20 when the request has
    none, so 1 <= d <= 50; the node count of the request plays no part.
    The answer is the response built from what the parser makes of the
    output, or the error 500 when the parser raises. *)
Theorem analyze_route_stockfish (request : AnalyzeRequest)
    (_engines : list (EngineType * BaseEngine state)) s pre l post :
  valid_request request ->
  req_engine request = Schema.STOCKFISH ->
  Dict.get STOCKFISH _engines = Some (stockfish_engine chess wdl_floats) ->
  _is_ready (self s) = true ->
  _lock (self s) = false ->
  _writer (self s) = true ->
  _reader (self s) = true ->
  stdin_lost (child s) = false ->
  stdout (child s) = (Bytes <$> pre) ++ Bytes l :: post ->
  Forall (fun x => Str.startswith (Str.strip x) "bestmove" = false) pre ->
  Str.startswith (Str.strip l) "bestmove" = true ->
  exists s' d,
    1 <= d <= 50 /\
    match req_depth request with Some d' => d = d' | None => d = 20 end /\
    Service.analyze_position str_of_exn request _engines s
      = (match Parser._parse_analysis chess wdl_floats (req_fen request)
                 (filter is_info (Str.strip <$> pre)) (Str.strip l) with
         | Ok analysis => Reply (analyze_response STOCKFISH analysis)
         | Raised e =>
             HTTPException 500 ("Analysis failed: " ++ str_of_exn e)%string
         end, s') /\
    self s' = self s /\
    log s' = log s ++ [Acquire]
               ++ writes (multipv_before (Some (req_num_moves request)) s
                          ++ [("position fen " ++ req_fen request)%string;
                              ("go depth " ++ Str.of_int d)%string]
                          ++ multipv_after (Some (req_num_moves request)) s)
               ++ [Release].
Proof.
  intros (_ & Hd & _) He Hreg Hrdy Hl Hw Hr Hlost Hout Hpre Hsent.
  destruct (AdapterFacts.analyze_position_run chess wdl_floats
              (req_fen request) None (Some (or_20 (req_depth request))) None
              (Some (req_num_moves request)) s pre l post)
    as (s' & Hrun & Hself & _ & Hlog); try done.
  exists s', (or_20 (req_depth request)).
  assert (1 <= or_20 (req_depth request) <= 50 /\
          match req_depth request with
          | Some d' => or_20 (req_depth request) = d'
          | None => or_20 (req_depth request) = 20
          end) as [Hb Hd'].
  { unfold or_20. destruct (req_depth request) as [d'|]; [|lia].
    destruct (Z.eqb_spec d' 0); [lia|]. by split. }
  split; [done|]. split; [done|]. split; [|split; [done|]].
  - unfold Service.analyze_position, get_engine. rewrite He. simpl.
    rewrite Hreg. cbv beta iota.
    change (be_analyze_position (stockfish_engine chess wdl_floats))
      with (Adapter.analyze_position chess wdl_floats).
    rewrite Hrun.
    by destruct (Parser._parse_analysis chess wdl_floats (req_fen request)
                   (filter is_info (Str.strip <$> pre)) (Str.strip l))
      as [a|e].
  - exact Hlog.
Qed.

End StockfishRoute.

Section Ids.

Lemma split_on_length sep s :
  length (Config.split_on sep s) = S (Config.count_char sep s).
Proof.
  induction s as [|c s IH]; simpl; [done|].
  destruct (Ascii.eqb c sep); simpl; [by rewrite IH|].
  destruct (Config.split_on sep s); simpl in *; [done | by rewrite <- IH].
Qed.

Lemma split_on_pieces sep s :
  Forall (fun piece => Config.count_char sep piece = 0%nat)
    (Config.split_on sep s).
Proof.
  induction s as [|c s IH]; simpl; [by repeat constructor|].
  destruct (Ascii.eqb c sep) eqn:Hc; [by constructor|].
  destruct (Config.split_on sep s) as [|piece pieces]; simpl.
  - repeat constructor. simpl. by rewrite Hc.
  - inversion IH; subst. constructor; [|done]. simpl. by rewrite Hc.
Qed.

Lemma split_on_concat sep s :
  String.concat (String sep EmptyString) (Config.split_on sep s) = s.
Proof.
  induction s as [|c s IH]; [done|].
  pose proof (split_on_length sep s) as Hlen.
  cbn [Config.split_on].
  destruct (Ascii.eqb_spec c sep) as [->|Hc];
    destruct (Config.split_on sep s) as [|piece pieces]; [done| |done|].
  - etransitivity; [|apply (f_equal (String sep) IH)]. reflexivity.
  - etransitivity; [|apply (f_equal (String c) IH)].
    by destruct pieces.
Qed.

Lemma comprehension_cases {A B} (f : A -> result B) xs :
  match Config.comprehension f xs with
  | Ok ys => Forall2 (fun x y => f x = Ok y) xs ys
  | Raised e =>
      exists pre x post, xs = pre ++ x :: post /\ f x = Raised e /\
        Forall (fun x' => exists y, f x' = Ok y) pre
  end.
Proof.
  induction xs as [|x xs IH]; simpl; [constructor|].
  destruct (f x) as [y|e] eqn:Hx; simpl.
  - destruct (Config.comprehension f xs) as [ys|e]; simpl.
    + by constructor.
    + destruct IH as (pre & x' & post & -> & Hx' & Hpre).
      exists (x :: pre), x', post. split; [done|]. split; [done|].
      constructor; [by exists y | done].
  - exists [], x, xs. by repeat split.
Qed.

Context (int : string -> result Z).

(** X24. [Settings.gpu_ids_list] gives one identifier for each piece of
    the setting between its commas, in order, each the [int] of the piece
    without the blanks around it, so never an empty list; the pieces,
    joined by commas, are the setting. When [int] raises on a piece the
    property raises what [int] raised on the first such piece. In
    particular a setting with a blank piece (the empty setting, a comma at
    the end, two commas in a row) raises when [int] does so on the empty
    string. *)
Theorem gpu_ids_list_cases (lc0_gpu_ids : string) :
  let pieces := Config.split_on "," lc0_gpu_ids in
  String.concat "," pieces = lc0_gpu_ids /\
  Forall (fun piece => Config.count_char "," piece = 0%nat) pieces /\
  match Config.gpu_ids_list int lc0_gpu_ids with
  | Ok ids =>
      ids <> [] /\
      length ids = S (Config.count_char "," lc0_gpu_ids) /\
      Forall2 (fun piece id => int (Str.strip piece) = Ok id) pieces ids
  | Raised e =>
      exists pre piece post,
        pieces = pre ++ piece :: post /\
        int (Str.strip piece) = Raised e /\
        Forall (fun x => exists id, int (Str.strip x) = Ok id) pre
  end /\
  (forall e piece, int EmptyString = Raised e -> piece ∈ pieces ->
     Str.strip piece = EmptyString ->
     exists e', Config.gpu_ids_list int lc0_gpu_ids = Raised e').
Proof.
  intros pieces. split; [apply split_on_concat|].
  split; [apply split_on_pieces|].
  pose proof (comprehension_cases (fun x => int (Str.strip x)) pieces) as Hc.
  pose proof (split_on_length "," lc0_gpu_ids) as Hlen.
  fold pieces in Hlen. unfold Config.gpu_ids_list. fold pieces.
  destruct (Config.comprehension (fun x => int (Str.strip x)) pieces)
    as [ids|e]; (split; [|intros e0 piece He0 Hin Hblank]).
  - pose proof (Forall2_length _ _ _ Hc) as Hl. rewrite Hlen in Hl.
    split; [by destruct ids|]. by split.
  - exfalso. apply list_elem_of_lookup_1 in Hin as [i Hi].
    destruct (Forall2_lookup_l _ _ _ _ _ Hc Hi) as (id & _ & Hid).
    rewrite Hblank, He0 in Hid. done.
  - done.
  - by exists e.
Qed.

End Ids.

End ServiceFacts.
(** * The further properties at work *)

Module MoreExamples.
Import Adapter Adapter2 Vocabulary Scenario Service.
Local Open Scope list_scope.

(** ** The parser *)

Lemma parse_analysis_telemetry_witness :
  exists pa,
    Opening._parse_analysis Opening.STARTING_FEN
      [first_report; bare_report; other_report] "bestmove e2e4" = Ok pa /\
    PositionAnalysis.total_nodes pa = 90000 /\
    attained [first_report; bare_report; other_report]
      (fun i => Some (Parser.i_nodes i)) (PositionAnalysis.total_nodes pa).
Proof.
  eexists. split; [vm_compute; reflexivity|]. split; [reflexivity|].
  refine (proj1 (proj2 (ParserMore.parse_analysis_telemetry Opening.chess
            Opening.wdl_floats Opening.STARTING_FEN
            [first_report; bare_report; other_report] "bestmove e2e4" _ _))).
  vm_compute; reflexivity.
Defined.

Lemma parse_analysis_nonneg_witness :
  exists pa,
    Opening._parse_analysis Opening.STARTING_FEN gap_lines "bestmove e2e4"
      = Ok pa /\
    0 <= PositionAnalysis.total_nodes pa.
Proof.
  eexists. split; [vm_compute; reflexivity|].
  refine (proj1 (ParserMore.parse_analysis_nonneg Opening.chess
            Opening.wdl_floats Opening.STARTING_FEN gap_lines
            "bestmove e2e4" _ _)).
  vm_compute; reflexivity.
Defined.

Lemma candidate_shape_witness :
  exists pa c,
    Opening._parse_analysis Opening.STARTING_FEN [broken_line] "bestmove e2e4"
      = Ok pa /\
    PositionAnalysis.candidates pa = [c] /\
    MoveCandidate.pv c = ["e2e4"; "e2e4"; "e7e5"]%string /\
    MoveCandidate.pv_san c = ["e4"%string] /\
    head (MoveCandidate.pv c) = Some (MoveCandidate.move c).
Proof.
  eexists _, _. split; [vm_compute; reflexivity|].
  split; [reflexivity|]. split; [reflexivity|]. split; [reflexivity|].
  refine (proj1 (ParserMore.candidate_shape Opening.chess Opening.wdl_floats
            Opening.STARTING_FEN [broken_line] "bestmove e2e4" _ _ _ _)).
  - vm_compute; reflexivity.
  - by left.
Defined.

Lemma parse_analysis_wdl_witness :
  exists pa,
    Opening._parse_analysis Opening.STARTING_FEN gap_lines "bestmove e2e4"
      = Ok pa /\
    PositionAnalysis.evaluation_wdl pa = (428, 212, 360) /\
    wdl_sum (PositionAnalysis.evaluation_wdl pa) = 1000.
Proof.
  eexists. split; [vm_compute; reflexivity|]. split; [reflexivity|].
  refine (proj1 (ParserMore.parse_analysis_wdl Opening.chess
            Opening.wdl_floats Opening.STARTING_FEN gap_lines
            "bestmove e2e4" _ _)).
  vm_compute; reflexivity.
Defined.

Lemma parse_analysis_skips_witness :
  Opening._parse_analysis Opening.STARTING_FEN
    (Cases.currmove_line :: gap_lines) "bestmove e2e4"
  = Opening._parse_analysis Opening.STARTING_FEN gap_lines "bestmove d2d4".
Proof.
  refine (ParserMore.parse_analysis_skips Opening.chess Opening.wdl_floats
            Opening.STARTING_FEN (Cases.currmove_line :: gap_lines) gap_lines
            "bestmove e2e4" "bestmove d2d4" _).
  vm_compute; reflexivity.
Defined.

Lemma mate_scores_witness :
  exists i,
    Parser.read_info Cases.mate_line = Some i /\
    Parser.i_score_cp i = 10000 - 3.
Proof.
  eexists. split; [vm_compute; reflexivity|].
  refine (proj1 (ParserMore.mate_scores Cases.mate_line _ 3 _ _) _).
  - vm_compute; reflexivity.
  - vm_compute; reflexivity.
  - lia.
Defined.

(** ** The adapter *)

Lemma handles_consistent_witness :
  consistent (self (fresh (engine handshake))) /\
  consistent (self (snd (start (fresh (engine handshake))))).
Proof.
  assert (consistent (self (fresh (engine handshake)))) as H
    by (by repeat split).
  split; [exact H|].
  exact (proj1 (AdapterFacts.handles_consistent (fresh (engine handshake)) H)).
Defined.

Lemma locked_operations_frame_witness :
  new_game (started [Bytes "readyok"])
    = (Done (Ok tt), snd (new_game (started [Bytes "readyok"]))) /\
  self (snd (new_game (started [Bytes "readyok"])))
    = self (started [Bytes "readyok"]).
Proof.
  assert (new_game (started [Bytes "readyok"])
          = (Done (Ok tt), snd (new_game (started [Bytes "readyok"])))) as H
    by (vm_compute; reflexivity).
  split; [exact H|].
  exact (proj1 (proj1 (proj2 (AdapterFacts.locked_operations_frame
           (started [Bytes "readyok"]))) _ _ H)).
Defined.

Lemma hung_call_keeps_lock_witness :
  is_ready (started []) = (Hangs, snd (is_ready (started []))) /\
  _lock (self (snd (is_ready (started [])))) = true.
Proof.
  assert (is_ready (started []) = (Hangs, snd (is_ready (started [])))) as H
    by (vm_compute; reflexivity).
  split; [exact H|].
  exact (proj1 (proj2 (proj2 (AdapterFacts.hung_call_keeps_lock Opening.chess
           Opening.wdl_floats Opening.STARTING_FEN None None None None
           (started []))))
           _ H).
Defined.

Lemma start_outcome_witness :
  start (fresh (engine handshake)) = (Done (Ok tt), started []) /\
  _process (self (started [])) = true /\
  _reader (self (started [])) = true /\
  _writer (self (started [])) = true /\
  _is_ready (self (started [])) = true.
Proof.
  assert (start (fresh (engine handshake)) = (Done (Ok tt), started [])) as H
    by (vm_compute; reflexivity).
  split; [exact H|].
  refine (proj1 (AdapterFacts.start_outcome (fresh (engine handshake))
            (Done (Ok tt)) (started []) _ H) eq_refl).
  by repeat split.
Defined.

Lemma create_stockfish_ready_witness :
  self (snd (create_stockfish cfg (fresh (engine handshake))))
  = {| config := cfg; _process := true; _reader := true; _writer := true;
       _lock := false; _is_ready := true |}.
Proof.
  refine (AdapterFacts.create_stockfish_ready cfg (fresh (engine handshake))
            _ _).
  vm_compute; reflexivity.
Defined.

Lemma start_after_crash_witness :
  start (crash (started [])) = (Done (Raised ConnectionError), crash (started []))
  /\ is_running (crash (started [])) = false.
Proof.
  destruct (AdapterFacts.start_after_crash (crash (started []))
              eq_refl eq_refl eq_refl) as [H1 H2].
  split; [exact H1 | exact (H2 eq_refl)].
Defined.

Lemma start_succeeds_witness :
  exists s',
    start (fresh (engine handshake)) = (Done (Ok tt), s') /\
    log s' = writes ["uci"; "setoption name Hash value 2048";
                     "setoption name Threads value 4";
                     "setoption name MultiPV value 10";
                     "setoption name UCI_AnalyseMode value true";
                     "setoption name Use NNUE value true"; "isready"]%string.
Proof.
  destruct (AdapterFacts.start_succeeds (fresh (engine handshake))
              (engine handshake)
              ["Stockfish 16 by the Stockfish developers";
               "id name Stockfish 16"]%string "uciok" [] "readyok" [])
    as (s' & Hrun & _ & _ & _ & Hlog).
  - reflexivity.
  - reflexivity.
  - reflexivity.
  - reflexivity.
  - repeat constructor.
  - reflexivity.
  - constructor.
  - reflexivity.
  - exists s'. split; [exact Hrun | exact Hlog].
Defined.

Lemma new_game_cases_witness :
  exists s',
    new_game (fresh (engine handshake))
      = (Done (Raised (RuntimeError "Stockfish non avviato")), s') /\
    log s' = [Acquire; Release].
Proof.
  destruct (proj1 (AdapterFacts.new_game_cases (fresh (engine handshake)))
              eq_refl eq_refl) as (s' & Hrun & _ & _ & Hlog).
  exists s'. split; [exact Hrun | exact Hlog].
Defined.

Lemma analyze_position_returns_witness :
  exists s',
    Scenario.analyze_position Opening.STARTING_FEN None (Some 12) None (Some 3)
      (started search_output)
    = (Done (Opening._parse_analysis Opening.STARTING_FEN
               ["info string NNUE evaluation enabled";
                "info depth 10 multipv 1 score cp 35 nodes 50000 time 120 nps 400000 pv e2e4 e7e5"]%string
               "bestmove e2e4 ponder e7e5"), s') /\
    written s' =
      written (started search_output)
      ++ commands ["setoption name MultiPV value 3";
                   "position fen rnbqkbnr/pppppppp/8/8/8/8/PPPPPPPP/RNBQKBNR w KQkq - 0 1";
                   "go depth 12";
                   "setoption name MultiPV value 10"]%string.
Proof.
  destruct (AdapterFacts.analyze_position_returns Opening.chess
              Opening.wdl_floats Opening.STARTING_FEN None (Some 12) None
              (Some 3) (started search_output)
              ["info string NNUE evaluation enabled";
               "info depth 10 multipv 1 score cp 35 nodes 50000 time 120 nps 400000 pv e2e4 e7e5"]%string
              "bestmove e2e4 ponder e7e5" [])
    as (s' & Hrun & _ & _ & Hlog).
  - reflexivity.
  - reflexivity.
  - reflexivity.
  - reflexivity.
  - reflexivity.
  - reflexivity.
  - repeat constructor.
  - reflexivity.
  - exists s'. split; [exact Hrun|].
    unfold written. rewrite Hlog. vm_compute. reflexivity.
Defined.

Lemma go_command_depth_witness :
  go_command (Some 100000) (Some 12) (Some 500) = "go depth 12"%string.
Proof.
  exact (proj1 AdapterFacts.go_command_depth (Some 100000) 12 (Some 500)).
Defined.

Lemma no_driver_error_witness :
  _writer (self (started [])) = true /\
  _reader (self (started [])) = true /\
  fst (is_ready (started []))
    <> Done (Raised (RuntimeError "Stockfish non avviato")).
Proof.
  split; [reflexivity|]. split; [reflexivity|].
  exact (proj1 (AdapterFacts.no_driver_error (started []) eq_refl eq_refl)
           "Stockfish non avviato"%string).
Defined.

(** ** The service *)

Lemma registry_lookup_witness :
  get_engine Schema.STOCKFISH
    (register_engine STOCKFISH Cases.stockfish
       [(STOCKFISH, Cases.missing STOCKFISH)])
  = Reply Cases.stockfish.
Proof.
  exact (proj1 (proj2 (ServiceFacts.registry_lookup
           [(STOCKFISH, Cases.missing STOCKFISH)] STOCKFISH Cases.stockfish))
           Schema.STOCKFISH eq_refl).
Defined.

Lemma analyze_route_cases_witness :
  fst (Service.analyze_position Cases.str_of_exn Cases.request Cases._engines
         (fresh (engine handshake)))
  = HTTPException 500
      "Analysis failed: Stockfish non pronto, chiamare start() prima" /\
  exists engine_type,
    value engine_type = "stockfish"%string /\
    is_Some (Dict.get engine_type Cases._engines).
Proof.
  split; [vm_compute; reflexivity|].
  destruct (ServiceFacts.analyze_route_cases Cases.str_of_exn Cases.request
              Cases._engines (fresh (engine handshake))
              (HTTPException 500
                 "Analysis failed: Stockfish non pronto, chiamare start() prima")
              (snd (Service.analyze_position Cases.str_of_exn Cases.request
                      Cases._engines (fresh (engine handshake)))))
    as (t & Hv & _).
  - vm_compute; reflexivity.
  - exists t. split; [exact Hv|].
    destruct t; try discriminate Hv. by eexists.
Defined.

Lemma health_check_cases_witness :
  exists h w',
    health_check Cases.settings Cases._engines (fresh (engine handshake))
      = (Done (Ok h), w') /\
    status h = "degraded"%string /\
    status_name <$> engines h = ["lc0"; "stockfish"; "maia"]%string.
Proof.
  eexists _, _. split; [vm_compute; reflexivity|]. split; [reflexivity|].
  refine (proj1 (ServiceFacts.health_check_cases Cases.settings
            Cases._engines (fresh (engine handshake)) (Done (Ok _)) _ _)).
  vm_compute; reflexivity.
Defined.

Lemma shutdown_cases_witness :
  exists w',
    shutdown Cases._engines (started []) = (Done (Ok tt), w') /\
    _process (self w') = false /\
    w' = stopped Cases._engines (started []).
Proof.
  eexists. split; [vm_compute; reflexivity|]. split; [reflexivity|].
  refine (proj1 (ServiceFacts.shutdown_cases Cases._engines (started [])
            (Done (Ok tt)) _ _)).
  vm_compute; reflexivity.
Defined.

Lemma startup_cases_witness :
  fst (startup (Cases.idle LC0) (Cases.missing MAIA) Cases.stockfish
         Cases.settings true true ([], []) (fresh (engine handshake)))
  = Serving [(LC0, Cases.idle LC0); (STOCKFISH, Cases.stockfish)]
      [(LC0, Cases.idle LC0); (STOCKFISH, Cases.stockfish)] /\
  Dict.get LC0 [(LC0, Cases.idle LC0); (STOCKFISH, Cases.stockfish)]
  = Some (Cases.idle LC0).
Proof.
  assert (startup (Cases.idle LC0) (Cases.missing MAIA) Cases.stockfish
            Cases.settings true true ([], []) (fresh (engine handshake))
          = (Serving [(LC0, Cases.idle LC0); (STOCKFISH, Cases.stockfish)]
               [(LC0, Cases.idle LC0); (STOCKFISH, Cases.stockfish)],
             snd (startup (Cases.idle LC0) (Cases.missing MAIA)
                    Cases.stockfish Cases.settings true true ([], [])
                    (fresh (engine handshake))))) as H by reflexivity.
  split; [by rewrite H|].
  exact (proj1 (proj2 (proj2 (ServiceFacts.startup_cases _ _ _ _ _ _ _ _ _
                                H)))).
Defined.

Lemma analyze_route_stockfish_witness :
  exists s' d,
    1 <= d <= 50 /\ d = 20 /\
    Service.analyze_position Cases.str_of_exn Cases.request Cases._engines
      (started search_output)
    = (match Opening._parse_analysis Opening.STARTING_FEN
               ["info string NNUE evaluation enabled";
                "info depth 10 multipv 1 score cp 35 nodes 50000 time 120 nps 400000 pv e2e4 e7e5"]%string
               "bestmove e2e4 ponder e7e5" with
       | Ok analysis => Reply (analyze_response STOCKFISH analysis)
       | Raised e =>
           HTTPException 500
             ("Analysis failed: " ++ Cases.str_of_exn e)%string
       end, s').
Proof.
  destruct (ServiceFacts.analyze_route_stockfish Opening.chess
              Opening.wdl_floats Cases.str_of_exn Cases.request
              Cases._engines (started search_output)
              ["info string NNUE evaluation enabled";
               "info depth 10 multipv 1 score cp 35 nodes 50000 time 120 nps 400000 pv e2e4 e7e5"]%string
              "bestmove e2e4 ponder e7e5" [])
    as (s' & d & Hb & Hd & Hrun & _).
  - vm_compute. repeat split; discriminate.
  - reflexivity.
  - reflexivity.
  - reflexivity.
  - reflexivity.
  - reflexivity.
  - reflexivity.
  - reflexivity.
  - reflexivity.
  - repeat constructor.
  - reflexivity.
  - exists s', d. split; [exact Hb|]. split; [exact Hd|]. exact Hrun.
Defined.

Lemma gpu_ids_list_cases_witness :
  Config.gpu_ids_list Config.int "0, 1" = Ok [0; 1] /\
  exists e, Config.gpu_ids_list Config.int "0," = Raised e.
Proof.
  split; [reflexivity|].
  refine (proj2 (proj2 (proj2 (ServiceFacts.gpu_ids_list_cases Config.int
            "0,"))) ValueError EmptyString eq_refl _ eq_refl).
  right. by left.
Defined.

End MoreExamples.
